(** * Workout logger and exercise records: a shallow embedding

    The development follows the TypeScript sources of the fitness tracker:
    - [useWorkoutLogger] (startWorkoutLogging, calculateTotalScore,
      logWorkout, updateWorkoutLog),
    - [MessageBoard] (handlePostMessage),
    - [ExerciseRecords] (fetchExerciseRecords and the rendered list).

    Conventions.  A JavaScript [number] is an integer of [Z]; an optional
    or nullable field is an [option]; [x || 0] on such a field is [or0].
    A string is a [string], except the text of a message, whose characters
    the code inspects: it is the list of its UTF-16 code units.
    The hosted record store is an external collaborator: it is modelled by
    finite maps from row identifiers to rows, with a schedule of injected
    failures, so that every call "may fail with a generic store error".
    React state setters take effect at once. *)

From stdpp Require Import gmap strings list fin_maps fin_sets sorting.
From Stdlib Require Import ZArith.

Local Open Scope Z_scope.

(** ** JavaScript values used by the sources *)

(** [time?: string | number | null] *)
Inductive JsTime :=
| TimeString (s : string)
| TimeNumber (n : Z).

(** [x || 0] for an optional number: absent and zero both give zero. *)
Definition or0 (x : option Z) : Z :=
  match x with
  | Some v => v
  | None => 0
  end.

(** A string whose characters the code looks at is the sequence of its
    UTF-16 code units; [code_units] gives that of a text of ASCII
    characters. *)
Definition code_units (s : string) : list N :=
  Ascii.N_of_ascii <$> String.list_ascii_of_string s.

(** The error object a failed store call returns. *)
Inductive StoreErr := StoreFailure (code : string).

(** What a rejected promise carries: an [Error] built by the hook itself, a
    [RangeError] or [TypeError] of the runtime, or the error object a store
    call returned. *)
Inductive JsError :=
| Error (message : string)
| RangeError (message : string)
| TypeError (message : string)
| StoreError (e : StoreErr).

Inductive Result (A : Type) :=
| Ok (a : A)
| Throw (e : JsError).
Arguments Ok {A} a.
Arguments Throw {A} e.

(** [Array.prototype.reduce] with the index passed to the callback. *)
Fixpoint reduce_from {A B : Type} (f : B -> A -> nat -> B) (index : nat)
    (l : list A) (acc : B) : B :=
  match l with
  | [] => acc
  | x :: l' => reduce_from f (S index) l' (f acc x index)
  end.

Definition reduce {A B : Type} (f : B -> A -> nat -> B) (l : list A) (init : B) : B :=
  reduce_from f 0%nat l init.

(** [Array(n)]: a [RangeError] unless [n] is a valid array length. *)
Definition max_array_length : Z := 2 ^ 32 - 1.

Definition valid_array_length (n : Z) : bool :=
  (0 <=? n) && (n <=? max_array_length).

(** [Array(n).fill(x)].  [fill] stores [n] elements, and the runtime does
    not do that for every valid length: beyond the longest array it can
    hold, which the language leaves to the implementation, it throws the
    same [RangeError].  [capacity] is that length for the runtime at
    hand. *)
Definition Array_fill {A : Type} (capacity n : Z) (x : A) : Result (list A) :=
  if valid_array_length n && (n <=? capacity) then Ok (replicate (Z.to_nat n) x)
  else Throw (RangeError "Invalid array length").

(** [Array.prototype.map] with a callback that may throw. *)
Fixpoint map_throw {A B : Type} (f : A -> Result B) (l : list A) : Result (list B) :=
  match l with
  | [] => Ok []
  | x :: l' =>
      match f x with
      | Throw e => Throw e
      | Ok y =>
          match map_throw f l' with
          | Throw e => Throw e
          | Ok ys => Ok (y :: ys)
          end
      end
  end.

(** ** Data model *)

Module LoggedSet.
Record t := mk {
  id : option string;
  weight : option Z;
  reps : Z;
  distance : option Z;
  time : option JsTime;
  calories : option Z;
}.
End LoggedSet.

Module ExerciseLog.
Record t := mk {
  exercise_id : string;
  sets : list LoggedSet.t;
}.
End ExerciseLog.

(** Modelled from the spec: the declarations of [../types/workout] are not
    among the sources.  [Workout], its [workout_exercises] and the exercise
    each of them names carry the fields the hook reads, typed after the
    data model (a target set count, default weight, reps, distance, time
    and calories; the weight may be null). *)
Module Exercise.
Record t := mk {
  id : string;
  name : string;
}.
End Exercise.

Module WorkoutExercise.
Record t := mk {
  exercise_id : string;
  exercise : Exercise.t;
  sets : Z;
  weight : option Z;
  reps : Z;
  distance : option Z;
  time : option JsTime;
  calories : option Z;
}.
End WorkoutExercise.

Module Workout.
Record t := mk {
  id : string;
  type : string;
  workout_exercises : option (list WorkoutExercise.t);
}.

Definition with_type (ty : string) (w : t) : t :=
  mk (id w) ty (workout_exercises w).
End Workout.

Module User.
Record t := mk { id : string }.
End User.

(** ** calculateTotalScore *)

Definition sumDistance (log : ExerciseLog.t) : Z :=
  fold_left (fun setTotal set => setTotal + or0 (LoggedSet.distance set))
            (ExerciseLog.sets log) 0.

Definition sumCalories (log : ExerciseLog.t) : Z :=
  fold_left (fun setTotal set => setTotal + or0 (LoggedSet.calories set))
            (ExerciseLog.sets log) 0.

(** The branch taken when [workout.type === 'weight training']. *)
Definition weightTrainingBranch (total : Z) (log : ExerciseLog.t) : Z :=
  total + fold_left
            (fun setTotal set =>
               setTotal + or0 (LoggedSet.weight set) * LoggedSet.reps set)
            (ExerciseLog.sets log) 0.

(** The final [else] branch, "Default scoring". *)
Definition defaultBranch (total : Z) (log : ExerciseLog.t) : Z :=
  total + fold_left
            (fun setTotal set =>
               setTotal + or0 (LoggedSet.weight set) * LoggedSet.reps set)
            (ExerciseLog.sets log) 0.

Definition scoreStep (workout : Workout.t) (total : Z) (log : ExerciseLog.t)
    (index : nat) : Z :=
  match Workout.workout_exercises workout ≫= (fun l => l !! index) with
  | None => total
  | Some exercise =>
      if String.eqb (Exercise.name (WorkoutExercise.exercise exercise)) "Run"
      then total + sumDistance log
      else if String.eqb (Exercise.name (WorkoutExercise.exercise exercise))
                         "Assault Bike"
      then total + sumCalories log
      else if String.eqb (Workout.type workout) "weight training"
      then weightTrainingBranch total log
      else defaultBranch total log
  end.

Definition calculateTotalScore (logs : list ExerciseLog.t) (workout : Workout.t) : Z :=
  reduce (scoreStep workout) logs 0.

(** The scoring rule in the words of the specification: the contribution of
    the log at position [index]. *)
Definition Zsum (l : list Z) : Z := foldr Z.add 0 l.

Definition contribution (workout : Workout.t) (index : nat) (log : ExerciseLog.t) : Z :=
  match Workout.workout_exercises workout ≫= (fun l => l !! index) with
  | None => 0
  | Some exercise =>
      let name := Exercise.name (WorkoutExercise.exercise exercise) in
      if decide (name = "Run")
      then Zsum (map (fun s => or0 (LoggedSet.distance s)) (ExerciseLog.sets log))
      else if decide (name = "Assault Bike")
      then Zsum (map (fun s => or0 (LoggedSet.calories s)) (ExerciseLog.sets log))
      else Zsum (map (fun s => or0 (LoggedSet.weight s) * LoggedSet.reps s)
                     (ExerciseLog.sets log))
  end.

(** ** The hook state and startWorkoutLogging *)

(** [initialLog] is the callback of [workout_exercises?.map]. *)
Definition initialSet (exercise : WorkoutExercise.t) : LoggedSet.t :=
  LoggedSet.mk None
               (Some (or0 (WorkoutExercise.weight exercise)))
               (WorkoutExercise.reps exercise)
               (WorkoutExercise.distance exercise)
               (WorkoutExercise.time exercise)
               (WorkoutExercise.calories exercise).

Definition initialLog (capacity : Z) (exercise : WorkoutExercise.t)
    : Result ExerciseLog.t :=
  match Array_fill capacity (WorkoutExercise.sets exercise) (initialSet exercise) with
  | Throw e => Throw e
  | Ok sets => Ok (ExerciseLog.mk (WorkoutExercise.exercise_id exercise) sets)
  end.

Definition initialLogs (capacity : Z) (workout : Workout.t)
    : Result (list ExerciseLog.t) :=
  match Workout.workout_exercises workout with
  | None => Ok []
  | Some exercises => map_throw (initialLog capacity) exercises
  end.

(** ** The record store

    Modelled from the spec: the hosted backend behind [supabase] is not
    among the sources.  Its operations are the select, insert, update,
    delete and upsert of the external interface, on the tables the sources
    write to.  A row is stored under its identifier; columns the server
    maintains on its own (such as [created_at]) are not part of the rows
    written here. *)

Module ScoreRow.
Record t := mk {
  user_id : string;
  workout_log_id : string;
  exercise_id : string;
  weight : option Z;
  reps : Z;
  distance : option Z;
  time : option JsTime;
  calories : option Z;
}.
End ScoreRow.

Module WorkoutLog.
Record t := mk {
  user_id : string;
  workout_id : string;
  notes : string;
  score : Z;
  total : Z;
  completed_at : string;
}.
End WorkoutLog.

Module Message.
Record t := mk {
  content : list N;
  profile_id : string;
}.
End Message.

Module Store.
Record t := mk {
  workout_logs : gmap string WorkoutLog.t;
  exercise_scores : gmap string ScoreRow.t;
  messages : gmap string Message.t;
}.

Definition set_workout_logs (m : gmap string WorkoutLog.t) (s : t) : t :=
  mk m (exercise_scores s) (messages s).
Definition set_exercise_scores (m : gmap string ScoreRow.t) (s : t) : t :=
  mk (workout_logs s) m (messages s).
Definition set_messages (m : gmap string Message.t) (s : t) : t :=
  mk (workout_logs s) (exercise_scores s) m.
End Store.

(** The rows of [exercise_scores] that belong to one workout log. *)
Definition scoresOf (workout_log_id : string) (scores : gmap string ScoreRow.t)
    : gmap string ScoreRow.t :=
  filter (fun kv => ScoreRow.workout_log_id kv.2 = workout_log_id) scores.

(** Identifiers the server assigns: never empty, never one already in use. *)
Definition new_ids (n : nat) (used : gset string) : list string :=
  fresh_list n ({[ EmptyString ]} ∪ used).

(** What the hook asks of the store, as recorded in the trace. *)
Inductive Call :=
| InsertWorkoutLog (row : WorkoutLog.t)
| UpdateWorkoutLog (id user_id notes : string) (score total : Z) (completed_at : string)
| SelectScoreIds (workout_log_id : string)
| DeleteScores (ids : list string)
| InsertScores (rows : list ScoreRow.t)
| UpsertScores (rows : list (option string * ScoreRow.t))
| InsertMessage (row : Message.t).

(** [insert(row).select().single()] on [workout_logs]. *)
Definition store_insertWorkoutLog (row : WorkoutLog.t) (s : Store.t)
    : StoreErr + ((string * WorkoutLog.t) * Store.t) :=
  match new_ids 1 (dom (Store.workout_logs s)) with
  | id :: _ => inr ((id, row), Store.set_workout_logs (<[id := row]> (Store.workout_logs s)) s)
  | [] => inl (StoreFailure "PGRST116")
  end.

(** [update({...}).eq('id', id).eq('user_id', user_id).select().single()]:
    [single()] reports an error unless exactly one row matched. *)
Definition store_updateWorkoutLog (id user_id notes : string) (score total : Z)
    (completed_at : string) (s : Store.t)
    : StoreErr + ((string * WorkoutLog.t) * Store.t) :=
  match Store.workout_logs s !! id with
  | Some old =>
      if decide (WorkoutLog.user_id old = user_id) then
        let row := WorkoutLog.mk (WorkoutLog.user_id old) (WorkoutLog.workout_id old)
                                 notes score total completed_at in
        inr ((id, row), Store.set_workout_logs (<[id := row]> (Store.workout_logs s)) s)
      else inl (StoreFailure "PGRST116")
  | None => inl (StoreFailure "PGRST116")
  end.

(** [select('id').eq('workout_log_id', id)] on [exercise_scores]. *)
Definition store_selectScoreIds (workout_log_id : string) (s : Store.t)
    : StoreErr + (list string * Store.t) :=
  inr ((map_to_list (scoresOf workout_log_id (Store.exercise_scores s))).*1, s).

(** [delete().in('id', ids)] on [exercise_scores]. *)
Definition store_deleteScores (ids : list string) (s : Store.t)
    : StoreErr + (unit * Store.t) :=
  inr (tt, Store.set_exercise_scores
             (filter (fun kv => kv.1 ∉ ids) (Store.exercise_scores s)) s).

(** [insert(rows)] on [exercise_scores]: every row gets a new identifier. *)
Definition store_insertScores (rows : list ScoreRow.t) (s : Store.t)
    : StoreErr + (unit * Store.t) :=
  let ids := new_ids (length rows) (dom (Store.exercise_scores s)) in
  inr (tt, Store.set_exercise_scores
             (list_to_map (zip ids rows) ∪ Store.exercise_scores s) s).

(** [upsert(rows, { onConflict: 'id' })] on [exercise_scores], the
    "insert-or-update-by-identifier" batch: the rows are written one after
    the other, in the order of the batch; "rows with an identifier update
    in place; rows without one are assigned a fresh identifier and
    inserted".  [assign_ids] gives every row of the batch its identifier:
    its own, or the next of the new ones. *)
Fixpoint assign_ids (rows : list (option string * ScoreRow.t)) (pool : list string)
    : list (string * ScoreRow.t) :=
  match rows with
  | [] => []
  | (Some id, row) :: rows' => (id, row) :: assign_ids rows' pool
  | (None, row) :: rows' =>
      match pool with
      | id :: pool' => (id, row) :: assign_ids rows' pool'
      | [] => assign_ids rows' []
      end
  end.

Definition named_ids (rows : list (option string * ScoreRow.t)) : list string :=
  omap fst rows.

Definition upsert_assignment (rows : list (option string * ScoreRow.t))
    (scores : gmap string ScoreRow.t) : list (string * ScoreRow.t) :=
  assign_ids rows
    (new_ids (length rows) (dom scores ∪ list_to_set (named_ids rows))).

(** One row of the batch is written: it replaces the row stored under its
    identifier, or is inserted under it. *)
Definition upsertRow (scores : gmap string ScoreRow.t) (kv : string * ScoreRow.t)
    : gmap string ScoreRow.t :=
  <[kv.1 := kv.2]> scores.

Definition store_upsertScores (rows : list (option string * ScoreRow.t)) (s : Store.t)
    : StoreErr + (unit * Store.t) :=
  inr (tt, Store.set_exercise_scores
             (fold_left upsertRow (upsert_assignment rows (Store.exercise_scores s))
                        (Store.exercise_scores s)) s).

(** [insert([row]).select().single()] on [messages]. *)
Definition store_insertMessage (row : Message.t) (s : Store.t)
    : StoreErr + ((string * Message.t) * Store.t) :=
  match new_ids 1 (dom (Store.messages s)) with
  | id :: _ => inr ((id, row), Store.set_messages (<[id := row]> (Store.messages s)) s)
  | [] => inl (StoreFailure "PGRST116")
  end.

(** ** The world the hook runs in

    [faults] is the schedule of injected failures, one entry per store call
    ([None]: the call goes through to the store); [trace] records every
    call with the error it returned, if any; [arrayCapacity] is the length
    of the longest array the runtime fills. *)
Record World := mkWorld {
  store : Store.t;
  faults : list (option StoreErr);
  trace : list (Call * option StoreErr);
  now : string;
  logging : bool;
  console : list (string * JsError);
  arrayCapacity : Z;
}.

Definition M (A : Type) : Type := World -> Result A * World.

Definition ret {A : Type} (a : A) : M A := fun w => (Ok a, w).

Definition throw {A : Type} (e : JsError) : M A := fun w => (Throw e, w).

Definition bind {A B : Type} (m : M A) (k : A -> M B) : M B :=
  fun w =>
    match m w with
    | (Ok a, w') => k a w'
    | (Throw e, w') => (Throw e, w')
    end.

Declare Scope hook_scope.
Delimit Scope hook_scope with hook.
Notation "x <- m ;; k" := (bind m (fun x => k))
  (at level 100, m at next level, right associativity) : hook_scope.

(** [try { body } catch (error) { console.error(label, error); throw error }] *)
Definition catch_log {A : Type} (label : string) (body : M A) : M A :=
  fun w =>
    match body w with
    | (Ok a, w') => (Ok a, w')
    | (Throw e, w') =>
        (Throw e, mkWorld (store w') (faults w') (trace w') (now w') (logging w')
                          (console w' ++ [(label, e)]) (arrayCapacity w'))
    end.

(** [try { body } finally { fin }] where [fin] does not throw. *)
Definition try_finally {A : Type} (body : M A) (fin : World -> World) : M A :=
  fun w => let (r, w') := body w in (r, fin w').

Definition setLogging (b : bool) (w : World) : World :=
  mkWorld (store w) (faults w) (trace w) (now w) b (console w) (arrayCapacity w).

(** [new Date().toISOString()] *)
Definition toISOString_now : M string := fun w => (Ok (now w), w).

(** The world after a store call [c] that returned [r] and left the store
    as [s]: one entry of the schedule is used up, the call is recorded. *)
Definition recorded (c : Call) (r : option StoreErr) (s : Store.t) (w : World) : World :=
  mkWorld s (tail (faults w)) (trace w ++ [(c, r)]) (now w) (logging w) (console w)
          (arrayCapacity w).

(** One awaited store call: it yields [{ data, error }], here a sum. *)
Definition await {A : Type} (c : Call) (op : Store.t -> StoreErr + (A * Store.t))
    : World -> (StoreErr + A) * World :=
  fun w =>
    match faults w with
    | Some e :: _ => (inl e, recorded c (Some e) (store w) w)
    | _ =>
        match op (store w) with
        | inl e => (inl e, recorded c (Some e) (store w) w)
        | inr (a, s') => (inr a, recorded c None s' w)
        end
    end.

(** [const { data, error } = await call; if (error) throw error;] *)
Definition await_or_throw {A : Type} (c : Call)
    (op : Store.t -> StoreErr + (A * Store.t)) : M A :=
  fun w =>
    match await c op w with
    | (inl error, w') => (Throw (StoreError error), w')
    | (inr data, w') => (Ok data, w')
    end.

(** ** useWorkoutLogger *)

Local Open Scope hook_scope.

Definition startWorkoutLogging (user : option User.t) (workout : Workout.t)
    : M (list ExerciseLog.t) :=
  match user with
  | None => throw (Error "User must be logged in to start a workout")
  | Some _ =>
      fun w =>
        let w := setLogging true w in
        match initialLogs (arrayCapacity w) workout with
        | Throw e => (Throw e, w)
        | Ok initialLogs => (Ok initialLogs, w)
        end
  end.

(** [logs.flatMap((log) => log.sets.map((set) => ({ ... })))] of logWorkout *)
Definition insertedScores (user_id workout_log_id : string) (logs : list ExerciseLog.t)
    : list ScoreRow.t :=
  flat_map
    (fun log =>
       map (fun set =>
              ScoreRow.mk user_id workout_log_id (ExerciseLog.exercise_id log)
                          (LoggedSet.weight set) (LoggedSet.reps set)
                          (LoggedSet.distance set) (LoggedSet.time set)
                          (LoggedSet.calories set))
           (ExerciseLog.sets log))
    logs.

Definition logWorkout (user : option User.t) (workout : Workout.t)
    (logs : list ExerciseLog.t) (notes : string) : M (string * WorkoutLog.t) :=
  match user with
  | None => throw (Error "User must be logged in to log a workout")
  | Some user =>
      try_finally
        (catch_log "Error logging workout:"
           (let totalScore := calculateTotalScore logs workout in
            completed_at <- toISOString_now ;;
            let row := WorkoutLog.mk (User.id user) (Workout.id workout) notes
                                     totalScore totalScore completed_at in
            workoutLog <- await_or_throw (InsertWorkoutLog row)
                                         (store_insertWorkoutLog row) ;;
            let exerciseScores := insertedScores (User.id user) workoutLog.1 logs in
            _ <- await_or_throw (InsertScores exerciseScores)
                                (store_insertScores exerciseScores) ;;
            ret workoutLog))
        (setLogging false)
  end.

(** [logs.flatMap((log) => log.sets.map((set) => ({ id: set.id, ... })))] of
    updateWorkoutLog *)
Definition upsertedScores (user_id workout_log_id : string) (logs : list ExerciseLog.t)
    : list (option string * ScoreRow.t) :=
  flat_map
    (fun log =>
       map (fun set =>
              (LoggedSet.id set,
               ScoreRow.mk user_id workout_log_id (ExerciseLog.exercise_id log)
                           (LoggedSet.weight set) (LoggedSet.reps set)
                           (LoggedSet.distance set) (LoggedSet.time set)
                           (LoggedSet.calories set)))
           (ExerciseLog.sets log))
    logs.

(** [new Set(xs)], as the sequence of its elements in insertion order. *)
Definition Set_of (xs : list string) : list string :=
  fold_left (fun acc x => if decide (x ∈ acc) then acc else acc ++ [x]) xs [].

(** The truth value of [score.id]: present and not the empty string. *)
Definition truthy_id (id : option string) : bool :=
  match id with
  | Some s => negb (String.eqb s EmptyString)
  | None => false
  end.

(** [new Set(exerciseScores.filter(score => score.id).map(score => score.id))] *)
Definition currentScoreIds (exerciseScores : list (option string * ScoreRow.t))
    : list string :=
  Set_of (omap fst (filter (fun score => truthy_id score.1 = true) exerciseScores)).

(** [Array.from(existingScoreIds).filter(id => !currentScoreIds.has(id))] *)
Definition scoreIdsToDelete (existingScoreIds currentScoreIds : list string)
    : list string :=
  filter (fun id => id ∉ currentScoreIds) existingScoreIds.

Definition updateWorkoutLog (user : option User.t) (workoutLogId : string)
    (workout : Workout.t) (logs : list ExerciseLog.t) (notes : string)
    : M (string * WorkoutLog.t) :=
  match user with
  | None => throw (Error "User must be logged in to update a workout")
  | Some user =>
      try_finally
        (catch_log "Error updating workout log:"
           (let totalScore := calculateTotalScore logs workout in
            completed_at <- toISOString_now ;;
            workoutLog <- await_or_throw
                            (UpdateWorkoutLog workoutLogId (User.id user) notes
                                              totalScore totalScore completed_at)
                            (store_updateWorkoutLog workoutLogId (User.id user) notes
                                                    totalScore totalScore completed_at) ;;
            existingScores <- await_or_throw (SelectScoreIds workoutLogId)
                                             (store_selectScoreIds workoutLogId) ;;
            let existingScoreIds := Set_of existingScores in
            let exerciseScores := upsertedScores (User.id user) workoutLogId logs in
            let currentScoreIds := currentScoreIds exerciseScores in
            let scoreIdsToDelete := scoreIdsToDelete existingScoreIds currentScoreIds in
            _ <- (if (0 <? length scoreIdsToDelete)%nat
                  then await_or_throw (DeleteScores scoreIdsToDelete)
                                      (store_deleteScores scoreIdsToDelete)
                  else ret tt) ;;
            _ <- await_or_throw (UpsertScores exerciseScores)
                                (store_upsertScores exerciseScores) ;;
            ret workoutLog))
        (setLogging false)
  end.

(** ** MessageBoard.handlePostMessage *)

Module MessageBoard.
Record State := mkState {
  messages : list (string * Message.t);
  newMessage : list N;
  error : option string;
}.

(** The characters [String.prototype.trim] strips, the WhiteSpace and
    LineTerminator code points of ECMAScript: U+0009 to U+000D, U+0020,
    U+00A0, U+1680, U+2000 to U+200A, U+2028, U+2029, U+202F, U+205F,
    U+3000 and U+FEFF.  Each of them is one code unit. *)
Definition is_white_space (c : N) : bool :=
  ((9 <=? c) && (c <=? 13)
   || (c =? 32) || (c =? 160) || (c =? 5760)
   || (8192 <=? c) && (c <=? 8202)
   || (c =? 8232) || (c =? 8233) || (c =? 8239) || (c =? 8287)
   || (c =? 12288) || (c =? 65279))%N.

(** [String.prototype.trimStart], [trimEnd] and [trim]. *)
Fixpoint trimStart (s : list N) : list N :=
  match s with
  | [] => []
  | c :: s' => if is_white_space c then trimStart s' else s
  end.

Definition trimEnd (s : list N) : list N := reverse (trimStart (reverse s)).

Definition trim (s : list N) : list N := trimEnd (trimStart s).

Definition consoleError (label : string) (e : JsError) (w : World) : World :=
  mkWorld (store w) (faults w) (trace w) (now w) (logging w)
          (console w ++ [(label, e)]) (arrayCapacity w).

Definition handlePostMessage (user : option User.t) (st : State) : M State :=
  match user with
  | None => ret st
  | Some user =>
      (* [!newMessage.trim()]: the trimmed string is empty *)
      match trim (newMessage st) with
      | [] => ret st
      | _ :: _ =>
        fun w =>
          let row := Message.mk (newMessage st) (User.id user) in
          match await (InsertMessage row) (store_insertMessage row) w with
          | (inl error, w') =>
              (Ok (mkState (messages st) (newMessage st)
                           (Some "Failed to post message. Please try again later.")),
               consoleError "Error posting message:" (StoreError error) w')
          | (inr data, w') =>
              (Ok (mkState (data :: messages st) [] (error st)), w')
          end
      end
  end.
End MessageBoard.

(** ** ExerciseRecords.fetchExerciseRecords, steps 4 to 8 *)

(** [Array.prototype.sort(compare)]: a stable sort; [compare a b <= 0] keeps
    [a] before [b]. *)
Fixpoint sort_insert {A : Type} (compare : A -> A -> Z) (x : A) (l : list A) : list A :=
  match l with
  | [] => [x]
  | y :: l' =>
      if compare x y <=? 0 then x :: y :: l'
      else y :: sort_insert compare x l'
  end.

Definition sort {A : Type} (compare : A -> A -> Z) (l : list A) : list A :=
  foldr (sort_insert compare) [] l.

(** [a || b] on optional strings: an absent or empty string is falsy. *)
Definition or_string (a : option string) (b : string) : string :=
  match a with
  | Some s => if String.eqb s EmptyString then b else s
  | None => b
  end.

(** The properties every plain object inherits from [Object.prototype]. *)
Definition object_prototype_keys : list string :=
  [ "constructor"; "__defineGetter__"; "__defineSetter__"; "hasOwnProperty";
    "__lookupGetter__"; "__lookupSetter__"; "isPrototypeOf";
    "propertyIsEnumerable"; "toString"; "valueOf"; "__proto__";
    "toLocaleString" ]%string.

(** The value of a property key that is an array index (a canonical
    numeric string below [2^32 - 1]); such keys are enumerated first. *)
Fixpoint digits_value (s : string) (acc : N) : option N :=
  match s with
  | EmptyString => Some acc
  | String c s' =>
      let n := Ascii.N_of_ascii c in
      if ((48 <=? n) && (n <=? 57))%N
      then digits_value s' (10 * acc + (n - 48))%N
      else None
  end.

Definition array_index (s : string) : option N :=
  match s with
  | EmptyString => None
  | String c s' =>
      if (Ascii.N_of_ascii c =? 48)%N && negb (String.eqb s' EmptyString) then None
      else
        match digits_value s 0%N with
        | Some v => if (v <? 2 ^ 32 - 1)%N then Some v else None
        | None => None
        end
  end.

Module ExerciseRecords.

(** Modelled from the spec: [ExerciseScore] is declared in
    [../../types/workout], which is not among the sources; the fields are
    those the component reads from a fetched row. *)
Module ExerciseScore.
Record t := mk {
  id : string;
  exercise_id : string;
  workout_id : option string;
  weight : option Z;
  reps : Z;
  distance : option Z;
  calories : option Z;
  created_at : string;
}.
End ExerciseScore.

(** A row of [select('id, workout_type, completed_at')]. *)
Module WorkoutRow.
Record t := mk {
  id : string;
  workout_type : option string;
  completed_at : option string;
}.
End WorkoutRow.

Module WorkoutInfo.
Record t := mk {
  type : string;
  completed_at : option string;
}.
End WorkoutInfo.

(** [{ ...score, exercise, workout_type, date }] *)
Module Enhanced.
Record t := mk {
  score : ExerciseScore.t;
  exercise : option Exercise.t;
  workout_type : string;
  date : string;
}.
End Enhanced.

(** Step 4: [workouts.reduce((acc, workout) => { acc[workout.id] = ... })] *)
Definition workoutInfoOf (workouts : list WorkoutRow.t) : gmap string WorkoutInfo.t :=
  fold_left
    (fun acc workout =>
       <[WorkoutRow.id workout :=
           WorkoutInfo.mk (or_string (WorkoutRow.workout_type workout) EmptyString)
                          (WorkoutRow.completed_at workout)]> acc)
    workouts ∅.

(** Step 5: the callback of [scores.map]. *)
Definition enhance (exercises : option (list Exercise.t))
    (workoutInfo : gmap string WorkoutInfo.t) (score : ExerciseScore.t) : Enhanced.t :=
  let exercise :=
    exercises ≫=
      List.find (fun ex => String.eqb (Exercise.id ex) (ExerciseScore.exercise_id score)) in
  let workout :=
    match ExerciseScore.workout_id score with
    | Some id => if String.eqb id EmptyString then None else workoutInfo !! id
    | None => None
    end in
  Enhanced.mk score exercise
              (or_string (WorkoutInfo.type <$> workout) EmptyString)
              (or_string (workout ≫= WorkoutInfo.completed_at)
                         (ExerciseScore.created_at score)).

(** Step 6.  [exerciseGroups] is a plain object: its own keys in insertion
    order, each with the array pushed to so far. *)
Abbreviation Groups := (list (string * list Enhanced.t)) (only parsing).

Definition has_own (name : string) (groups : Groups) : bool :=
  existsb (fun kv => String.eqb kv.1 name) groups.

(** [exerciseGroups[name].push(score)], after [exerciseGroups[name] = []]
    when the key is new. *)
Fixpoint push (name : string) (score : Enhanced.t) (groups : Groups) : Groups :=
  match groups with
  | [] => [(name, [] ++ [score])]
  | (key, scores) :: groups' =>
      if String.eqb key name then (key, scores ++ [score]) :: groups'
      else (key, scores) :: push name score groups'
  end.

(** The callback of [enhancedScores.forEach].  For a name that
    [Object.prototype] defines and the object does not yet own,
    [exerciseGroups[name]] is the inherited value: it is truthy, no array
    is created, and calling its [push] is a [TypeError]. *)
Definition groupStep (groups : Groups) (score : Enhanced.t) : Result Groups :=
  match Enhanced.exercise score with
  | None => Ok groups
  | Some exercise =>
      let exerciseName := Exercise.name exercise in
      if String.eqb exerciseName EmptyString then Ok groups
      else if negb (has_own exerciseName groups)
              && bool_decide (exerciseName ∈ object_prototype_keys)
      then Throw (TypeError "exerciseGroups[exerciseName].push is not a function")
      else Ok (push exerciseName score groups)
  end.

Fixpoint groupFrom (groups : Groups) (enhancedScores : list Enhanced.t) : Result Groups :=
  match enhancedScores with
  | [] => Ok groups
  | score :: rest =>
      match groupStep groups score with
      | Throw e => Throw e
      | Ok groups' => groupFrom groups' rest
      end
  end.

Definition exerciseGroups (enhancedScores : list Enhanced.t) : Result Groups :=
  groupFrom [] enhancedScores.

(** [Object.entries]: array-index keys in ascending order, then the other
    keys in insertion order. *)
Definition indexed (groups : Groups) : list (N * (string * list Enhanced.t)) :=
  omap (fun kv => (fun n => (n, kv)) <$> array_index kv.1) groups.

Definition Object_entries (groups : Groups) : Groups :=
  (sort (fun a b => Z.of_N a.1 - Z.of_N b.1) (indexed groups)).*2
    ++ filter (fun kv => array_index kv.1 = None) groups.

(** Step 7: [(current.f || 0) > (best.f || 0) ? current : best] *)
Definition better (f : Enhanced.t -> option Z) (best current : Enhanced.t) : Enhanced.t :=
  if or0 (f best) <? or0 (f current) then current else best.

(** [scores.reduce(..., scores[0])] per exercise name; [None] stands for
    the [undefined] that [scores[0]] is on an empty array. *)
Definition bestScore (exerciseName : string) (scores : list Enhanced.t)
    : option Enhanced.t :=
  match scores with
  | [] => None
  | first :: _ =>
      Some
        (if String.eqb exerciseName "Run" then
           fold_left (better (fun s => ExerciseScore.distance (Enhanced.score s)))
                     scores first
         else if String.eqb exerciseName "Assault Bike" then
           fold_left (better (fun s => ExerciseScore.calories (Enhanced.score s)))
                     scores first
         else
           fold_left (better (fun s => ExerciseScore.weight (Enhanced.score s)))
                     scores first)
  end.

Definition bestScores (groups : Groups) : list Enhanced.t :=
  omap (fun kv => bestScore kv.1 kv.2) (Object_entries groups).

Section Dates.
(** [new Date(s).getTime()] *)
Variable getTime : string -> Z.

Definition compareDates (a b : Enhanced.t) : Z :=
  getTime (Enhanced.date b) - getTime (Enhanced.date a).

(** Step 8: [bestScores.sort(...).slice(0, 5)] *)
Definition topRecords (bestScores : list Enhanced.t) : list Enhanced.t :=
  take 5 (sort compareDates bestScores).

(** Steps 5 to 8 on the fetched rows. *)
Definition selectRecords (scores : list ExerciseScore.t)
    (exercises : option (list Exercise.t))
    (workoutInfo : gmap string WorkoutInfo.t) : Result (list Enhanced.t) :=
  match scores with
  | [] => Ok []
  | _ =>
      match exerciseGroups (map (enhance exercises workoutInfo) scores) with
      | Throw e => Throw e
      | Ok groups => Ok (topRecords (bestScores groups))
      end
  end.

(** The [records] state the component renders: [setRecords] is reached
    only when nothing was thrown; the state starts as the empty list. *)
Definition records (scores : list ExerciseScore.t)
    (exercises : option (list Exercise.t))
    (workoutInfo : gmap string WorkoutInfo.t) : list Enhanced.t :=
  match selectRecords scores exercises workoutInfo with
  | Ok topRecords => topRecords
  | Throw _ => []
  end.
End Dates.

(** The quantity step 7 compares within the group of [exerciseName]. *)
Definition measure (exerciseName : string) (s : Enhanced.t) : Z :=
  if decide (exerciseName = "Run"%string)
  then or0 (ExerciseScore.distance (Enhanced.score s))
  else if decide (exerciseName = "Assault Bike"%string)
  then or0 (ExerciseScore.calories (Enhanced.score s))
  else or0 (ExerciseScore.weight (Enhanced.score s)).

(** The exercise name of a score, when it resolves to a non-empty one. *)
Definition resolvedName (s : Enhanced.t) : option string :=
  match Enhanced.exercise s with
  | Some exercise =>
      if String.eqb (Exercise.name exercise) EmptyString then None
      else Some (Exercise.name exercise)
  | None => None
  end.

(** The group of an exercise name: the scores that resolve to it, in
    fetch order. *)
Definition groupOf (name : string) (enhancedScores : list Enhanced.t)
    : list Enhanced.t :=
  filter (fun s => resolvedName s = Some name) enhancedScores.

(** [r] is the record of its group that maximizes the measure, the
    earliest one in fetch order among those that do. *)
Definition bestOfGroup (name : string) (enhancedScores : list Enhanced.t)
    (r : Enhanced.t) : Prop :=
  exists k,
    groupOf name enhancedScores !! k = Some r
    /\ (forall s, s ∈ groupOf name enhancedScores -> measure name s <= measure name r)
    /\ (forall k' s,
           (k' < k)%nat ->
           groupOf name enhancedScores !! k' = Some s ->
           measure name s < measure name r).

(** A list of records ordered by date, newest first. *)
Definition newestFirst (getTime : string -> Z) (l : list Enhanced.t) : Prop :=
  forall i j a b,
    (i < j)%nat ->
    l !! i = Some a ->
    l !! j = Some b ->
    getTime (Enhanced.date b) <= getTime (Enhanced.date a).
End ExerciseRecords.

(** ** Reference descriptions and sample data

    What [startWorkoutLogging] is expected to build for one entry of the
    workout: the default weight is the entry's weight when it is non-zero,
    and 0 otherwise. *)
Definition defaultWeight (exercise : WorkoutExercise.t) : Z :=
  match WorkoutExercise.weight exercise with
  | Some v => if decide (v = 0) then 0 else v
  | None => 0
  end.

Definition expectedLog (exercise : WorkoutExercise.t) : ExerciseLog.t :=
  ExerciseLog.mk
    (WorkoutExercise.exercise_id exercise)
    (replicate (Z.to_nat (WorkoutExercise.sets exercise))
               (LoggedSet.mk None
                             (Some (defaultWeight exercise))
                             (WorkoutExercise.reps exercise)
                             (WorkoutExercise.distance exercise)
                             (WorkoutExercise.time exercise)
                             (WorkoutExercise.calories exercise))).

(** Every set count of the workout is the length of an array the runtime
    fills: a valid array length, and not beyond [capacity]. *)
Definition validSetCounts (capacity : Z) (workout : Workout.t) : Prop :=
  forall exercises,
    Workout.workout_exercises workout = Some exercises ->
    Forall (fun e => 0 <= WorkoutExercise.sets e <= max_array_length
                     /\ WorkoutExercise.sets e <= capacity) exercises.

(** A store with no rows, and a world around a given store, in a runtime
    that fills arrays of up to a million elements. *)
Definition emptyStore : Store.t := Store.mk ∅ ∅ ∅.

Definition worldOf (s : Store.t) (faults : list (option StoreErr)) (logging : bool)
    : World :=
  mkWorld s faults [] "2024-01-01T00:00:00.000Z" logging [] 1000000.

Definition alice : User.t := User.mk "alice".

Definition benchPress (sets : Z) (weight : option Z) : WorkoutExercise.t :=
  WorkoutExercise.mk "ex-1" (Exercise.mk "ex-1" "Bench Press") sets weight 5 None None None.

Definition sampleWorkout (sets : Z) (weight : option Z) : Workout.t :=
  Workout.mk "wk-1" "weight training" (Some [benchPress sets weight]).

(** The logs of a second call that carries the identifiers [ids], one per
    supplied set in order. *)
Definition withId (id : string) (set : LoggedSet.t) : LoggedSet.t :=
  LoggedSet.mk (Some id) (LoggedSet.weight set) (LoggedSet.reps set)
               (LoggedSet.distance set) (LoggedSet.time set) (LoggedSet.calories set).

Fixpoint relabel (logs : list ExerciseLog.t) (ids : list string) : list ExerciseLog.t :=
  match logs with
  | [] => []
  | log :: logs' =>
      let n := length (ExerciseLog.sets log) in
      ExerciseLog.mk (ExerciseLog.exercise_id log)
                     (zip_with withId (take n ids) (ExerciseLog.sets log))
        :: relabel logs' (drop n ids)
  end.

(** [ids] labels the rows persisted for a workout log: the k-th identifier
    is the one under which the row of the k-th supplied set is stored. *)
Definition labelled (user_id workout_log_id : string) (logs : list ExerciseLog.t)
    (scores : gmap string ScoreRow.t) (ids : list string) : Prop :=
  length ids = length (flat_map ExerciseLog.sets logs)
  /\ NoDup ids
  /\ scoresOf workout_log_id scores =
     list_to_map (zip ids (upsertedScores user_id workout_log_id logs).*2).

(** The identifiers the supplied sets carry, in the order of the sets. *)
Definition carriedIds (logs : list ExerciseLog.t) : list string :=
  omap LoggedSet.id (flat_map ExerciseLog.sets logs).

(** The rows persisted for a workout log are what writing the rows of the
    supplied sets, in order, under [ids] gives: the k-th set is written
    under the k-th identifier, and of two sets written under one identifier
    the later one stays.  For pairwise distinct [ids] this is [labelled]. *)
Definition persistedUnder (user_id workout_log_id : string) (logs : list ExerciseLog.t)
    (scores : gmap string ScoreRow.t) (ids : list string) : Prop :=
  length ids = length (flat_map ExerciseLog.sets logs)
  /\ scoresOf workout_log_id scores =
     fold_left upsertRow (zip ids (upsertedScores user_id workout_log_id logs).*2) ∅.

(** An outcome that reports the calls made faithfully: a result is produced
    only when no call failed; a failure is the error of the last call made,
    handed on as it came, after calls that all went through. *)
Definition propagates {A : Type} (res : Result A) (calls : list (Call * option StoreErr))
    : Prop :=
  match res with
  | Ok _ => Forall (fun c => c.2 = None) calls
  | Throw err =>
      exists pre c e,
        calls = pre ++ [(c, Some e)]
        /\ Forall (fun c => c.2 = None) pre
        /\ err = StoreError e
  end.

(** A computation of the hook that leaves the logging flag alone and
    reports its store calls faithfully. *)
Definition faithful {A : Type} (m : M A) : Prop :=
  forall w res w',
    m w = (res, w') ->
    logging w' = logging w
    /\ exists calls, trace w' = trace w ++ calls /\ propagates res calls.

(** A world in which no failure is scheduled. *)
Definition no_faults (w : World) : Prop := Forall (fun f => f = None) (faults w).

(** The groups built so far reflect the scores processed so far: distinct
    keys, each with the non-empty group of its name, and a key for every
    resolved name. *)
Definition groups_reflect (G : list (string * list ExerciseRecords.Enhanced.t))
    (processed : list ExerciseRecords.Enhanced.t) : Prop :=
  NoDup G.*1
  /\ (forall name g,
         (name, g) ∈ G -> g = ExerciseRecords.groupOf name processed /\ g ≠ [])
  /\ (forall s name,
         s ∈ processed -> ExerciseRecords.resolvedName s = Some name -> name ∈ G.*1).

(** Sample data: a workout log with three persisted sets A, B and C, and an
    edit that keeps A and C and adds one new set. *)
Definition sampleRow (reps : Z) : ScoreRow.t :=
  ScoreRow.mk "alice" "log-1" "ex-1" (Some 100) reps None None None.

Definition sampleStore : Store.t :=
  Store.mk
    {[ "log-1"%string := WorkoutLog.mk "alice" "wk-1" "first" 1200 1200
                                       "2023-12-31T00:00:00.000Z" ]}
    (<["A"%string := sampleRow 5]>
       (<["B"%string := sampleRow 4]> {[ "C"%string := sampleRow 3 ]}))
    ∅.

Definition sampleLogs : list ExerciseLog.t :=
  [ExerciseLog.mk "ex-1"
     [LoggedSet.mk (Some "A"%string) (Some 100) 5 None None None;
      LoggedSet.mk (Some "C"%string) (Some 100) 3 None None None;
      LoggedSet.mk None (Some 100) 2 None None None]].

Definition sampleUpdate : Result (string * WorkoutLog.t) * World :=
  updateWorkoutLog (Some alice) "log-1" (sampleWorkout 3 (Some 100)) sampleLogs
                   "edited" (worldOf sampleStore [] true).

Definition sampleLogWorkout (faults : list (option StoreErr))
    : Result (string * WorkoutLog.t) * World :=
  logWorkout (Some alice) (sampleWorkout 3 (Some 100)) sampleLogs "done"
             (worldOf emptyStore faults true).

(** Sample data for the exercise records: dates written as digits. *)
Definition sampleGetTime (date : string) : Z :=
  match digits_value date 0%N with
  | Some n => Z.of_N n
  | None => 0
  end.

Definition sampleExercises : list Exercise.t :=
  [Exercise.mk "run" "Run"; Exercise.mk "bench" "Bench Press"].

Definition sampleScore (id exercise_id : string) (weight distance : option Z)
    (created_at : string) : ExerciseRecords.ExerciseScore.t :=
  ExerciseRecords.ExerciseScore.mk id exercise_id None weight 5 distance None created_at.

Definition sampleScores : list ExerciseRecords.ExerciseScore.t :=
  [sampleScore "s1" "run" None (Some 400) "20240305";
   sampleScore "s2" "run" None (Some 600) "20240304";
   sampleScore "s3" "bench" (Some 100) None "20240303";
   sampleScore "s4" "run" None (Some 600) "20240302";
   sampleScore "s5" "gone" (Some 300) None "20240301"].

(** ** Further descriptions: scores, store invariants, the records view *)

(** Sets whose numbers are all non-negative. *)
Definition nonNegativeSet (set : LoggedSet.t) : Prop :=
  0 <= or0 (LoggedSet.weight set)
  /\ 0 <= LoggedSet.reps set
  /\ 0 <= or0 (LoggedSet.distance set)
  /\ 0 <= or0 (LoggedSet.calories set).

(** Every [exercise_scores] row references a stored workout log. *)
Definition referencesLogs (s : Store.t) : Prop :=
  forall i row,
    Store.exercise_scores s !! i = Some row ->
    is_Some (Store.workout_logs s !! ScoreRow.workout_log_id row).

(** A triple on the store: from a store satisfying [P], a result [a] comes
    with a store satisfying [Q a] and a failure with one satisfying [E]. *)
Definition hoare {A : Type} (P : Store.t -> Prop) (m : M A)
    (Q : A -> Store.t -> Prop) (E : Store.t -> Prop) : Prop :=
  forall w res w',
    P (store w) ->
    m w = (res, w') ->
    match res with
    | Ok a => Q a (store w')
    | Throw _ => E (store w')
    end.

(** The row [updateWorkoutLog] builds for a set of a log. *)
Definition scoreRowOf (user_id workout_log_id : string) (log : ExerciseLog.t)
    (set : LoggedSet.t) : ScoreRow.t :=
  ScoreRow.mk user_id workout_log_id (ExerciseLog.exercise_id log)
              (LoggedSet.weight set) (LoggedSet.reps set)
              (LoggedSet.distance set) (LoggedSet.time set)
              (LoggedSet.calories set).

(** ** ExerciseRecords: the effect and the rendered list *)

Module RecordsView.

(** [records], [loading] and [error] of the component. *)
Record State := mkState {
  records : list ExerciseRecords.Enhanced.t;
  loading : bool;
  error : option string;
}.

(** The queries of the effect, with the identifiers passed to [in]. *)
Inductive Query :=
| SelectScores
| SelectExercises (ids : list string)
| SelectWorkoutLogs (ids : list string).

(** What the backend answers to each query: an error, or data that may be
    null. *)
Record Backend := mkBackend {
  scores : StoreErr + option (list ExerciseRecords.ExerciseScore.t);
  exercises : list string -> StoreErr + option (list Exercise.t);
  workout_logs : list string -> StoreErr + option (list ExerciseRecords.WorkoutRow.t);
}.

(** [catch { setError(...) } finally { setLoading(false) }] *)
Definition failed (st : State) : State :=
  mkState (records st) false
          (Some "Failed to load exercise records. Please try again later.").

(** [scores.filter(s => s.workout_id).map(s => s.workout_id).filter(Boolean)] *)
Definition workoutIdsOf (scores : list ExerciseRecords.ExerciseScore.t) : list string :=
  omap (fun s =>
          match ExerciseRecords.ExerciseScore.workout_id s with
          | Some id => if String.eqb id EmptyString then None else Some id
          | None => None
          end)
       scores.

Section Effect.
Variable getTime : string -> Z.

Definition fetchExerciseRecords (backend : Backend) (st : State) : State * list Query :=
  (* setLoading(true); setError(null) *)
  let st := mkState (records st) true None in
  match scores backend with
  | inl scoresError => (failed st, [SelectScores])
  | inr None => (mkState [] false None, [SelectScores])
  | inr (Some []) => (mkState [] false None, [SelectScores])
  | inr (Some scores) =>
      let exerciseIds :=
        Set_of (map ExerciseRecords.ExerciseScore.exercise_id scores) in
      match exercises backend exerciseIds with
      | inl exercisesError => (failed st, [SelectScores; SelectExercises exerciseIds])
      | inr exercises =>
          let workoutIds := workoutIdsOf scores in
          let finish workoutInfo queries :=
            match ExerciseRecords.exerciseGroups
                    (map (ExerciseRecords.enhance exercises workoutInfo) scores) with
            | Throw _ => (failed st, queries)
            | Ok exerciseGroups =>
                (mkState (ExerciseRecords.topRecords getTime
                            (ExerciseRecords.bestScores exerciseGroups))
                         false None,
                 queries)
            end in
          if (0 <? length workoutIds)%nat then
            match workout_logs backend workoutIds with
            | inl workoutsError =>
                (failed st, [SelectScores; SelectExercises exerciseIds;
                             SelectWorkoutLogs workoutIds])
            | inr workouts =>
                finish
                  (match workouts with
                   | Some workouts => ExerciseRecords.workoutInfoOf workouts
                   | None => ∅
                   end)
                  [SelectScores; SelectExercises exerciseIds;
                   SelectWorkoutLogs workoutIds]
            end
          else finish ∅ [SelectScores; SelectExercises exerciseIds]
      end
  end.
End Effect.

(** What a rendered record shows under its heading. *)
Inductive Detail :=
| Meters (amount : Z)
| Calories (amount : Z)
| Pounds (amount : Z) (reps : option Z).

(** [record.exercise?.name || 'Unknown Exercise'] *)
Definition heading (record : ExerciseRecords.Enhanced.t) : string :=
  or_string (Exercise.name <$> ExerciseRecords.Enhanced.exercise record)
            "Unknown Exercise".

Definition detail (record : ExerciseRecords.Enhanced.t) : Detail :=
  let score := ExerciseRecords.Enhanced.score record in
  let name := Exercise.name <$> ExerciseRecords.Enhanced.exercise record in
  if bool_decide (name = Some "Run"%string)
  then Meters (or0 (ExerciseRecords.ExerciseScore.distance score))
  else if bool_decide (name = Some "Assault Bike"%string)
  then Calories (or0 (ExerciseRecords.ExerciseScore.calories score))
  else Pounds (or0 (ExerciseRecords.ExerciseScore.weight score))
              (if 0 <? ExerciseRecords.ExerciseScore.reps score
               then Some (ExerciseRecords.ExerciseScore.reps score)
               else None).

Definition amount (d : Detail) : Z :=
  match d with
  | Meters n => n
  | Calories n => n
  | Pounds n _ => n
  end.

(** [key={record.id}] *)
Definition key (record : ExerciseRecords.Enhanced.t) : string :=
  ExerciseRecords.ExerciseScore.id (ExerciseRecords.Enhanced.score record).
End RecordsView.

(** * Properties *)

Local Open Scope Z_scope.

(** ** Score calculation *)

Section ScoreFacts.
Implicit Types (logs : list ExerciseLog.t) (workout : Workout.t).

Lemma fold_left_add {A : Type} (f : A -> Z) (l : list A) (a : Z) :
  fold_left (fun acc x => acc + f x) l a = a + Zsum (map f l).
Proof.
  revert a. induction l as [|x l IH]; intros a; simpl.
  - lia.
  - rewrite IH. lia.
Qed.

Lemma weightTrainingBranch_sum total log :
  weightTrainingBranch total log =
  total + Zsum (map (fun s => or0 (LoggedSet.weight s) * LoggedSet.reps s)
                    (ExerciseLog.sets log)).
Proof. unfold weightTrainingBranch. by rewrite fold_left_add. Qed.

Lemma defaultBranch_sum total log :
  defaultBranch total log =
  total + Zsum (map (fun s => or0 (LoggedSet.weight s) * LoggedSet.reps s)
                    (ExerciseLog.sets log)).
Proof. unfold defaultBranch. by rewrite fold_left_add. Qed.

Lemma scoreStep_contribution workout total log index :
  scoreStep workout total log index = total + contribution workout index log.
Proof.
  unfold scoreStep, contribution.
  destruct (Workout.workout_exercises workout ≫= _) as [exercise|]; [|lia].
  cbv zeta.
  destruct (String.eqb_spec (Exercise.name (WorkoutExercise.exercise exercise)) "Run")
    as [HRun|HRun].
  { rewrite decide_True by done. unfold sumDistance. by rewrite fold_left_add. }
  rewrite decide_False by done.
  destruct (String.eqb_spec (Exercise.name (WorkoutExercise.exercise exercise))
                            "Assault Bike") as [HBike|HBike].
  { rewrite decide_True by done. unfold sumCalories. by rewrite fold_left_add. }
  rewrite decide_False by done.
  destruct (String.eqb _ _).
  - apply weightTrainingBranch_sum.
  - apply defaultBranch_sum.
Qed.

Lemma reduce_from_scoreStep workout logs index acc :
  reduce_from (scoreStep workout) index logs acc =
  acc + Zsum (imap (fun k => contribution workout (index + k)) logs).
Proof.
  revert index acc. induction logs as [|log logs IH]; intros index acc; simpl.
  - lia.
  - rewrite IH, scoreStep_contribution.
    rewrite Nat.add_0_r.
    replace (imap ((fun k => contribution workout (index + k)) ∘ S) logs)
      with (imap (fun k => contribution workout (S index + k)) logs).
    + lia.
    + apply imap_ext. intros k x _. simpl. f_equal. lia.
Qed.

Lemma scoreStep_with_type ty workout total log index :
  scoreStep (Workout.with_type ty workout) total log index =
  scoreStep workout total log index.
Proof.
  rewrite !scoreStep_contribution. reflexivity.
Qed.

Lemma reduce_from_ext {A B : Type} (f g : B -> A -> nat -> B) index (l : list A) acc :
  (forall b a i, f b a i = g b a i) ->
  reduce_from f index l acc = reduce_from g index l acc.
Proof.
  intros Hfg. revert index acc.
  induction l as [|x l IH]; intros index acc; simpl; [done|].
  by rewrite Hfg, IH.
Qed.
End ScoreFacts.

(** C1.  [calculateTotalScore] is the sum, over the logs, of the
    contribution of each log paired by position with the workout's exercise
    (nothing when the position has no exercise): distances for "Run",
    calories for "Assault Bike", weight times reps otherwise.  A "Run"
    workout with distances 400 and 600 scores 1000; a "weight training"
    workout with sets 100x5 and 100x3 scores 800. *)
Theorem calculateTotalScore_sum_of_contributions :
  (forall logs workout,
      calculateTotalScore logs workout = Zsum (imap (contribution workout) logs))
  /\ (forall wid ty eid xid n w r d t c lid i1 w1 r1 t1 c1 i2 w2 r2 t2 c2,
         calculateTotalScore
           [ExerciseLog.mk lid [LoggedSet.mk i1 w1 r1 (Some 400) t1 c1;
                                LoggedSet.mk i2 w2 r2 (Some 600) t2 c2]]
           (Workout.mk wid ty
              (Some [WorkoutExercise.mk eid (Exercise.mk xid "Run") n w r d t c]))
         = 1000)
  /\ (forall wid eid xid n w r d t c lid i1 d1 t1 c1 i2 d2 t2 c2,
         calculateTotalScore
           [ExerciseLog.mk lid [LoggedSet.mk i1 (Some 100) 5 d1 t1 c1;
                                LoggedSet.mk i2 (Some 100) 3 d2 t2 c2]]
           (Workout.mk wid "weight training"
              (Some [WorkoutExercise.mk eid (Exercise.mk xid "Bench Press") n w r d t c]))
         = 800).
Proof.
  split; [|split].
  - intros logs workout. unfold calculateTotalScore, reduce.
    rewrite reduce_from_scoreStep. simpl. reflexivity.
  - intros. reflexivity.
  - intros. reflexivity.
Qed.

(** C5.  The default branch of [calculateTotalScore] and its weight-training
    branch are the same function, the sum of weight (0 if absent) times reps
    over the sets, on every input; hence the score never depends on the
    workout's declared type. *)
Theorem defaultBranch_eq_weightTrainingBranch :
  (forall total log, defaultBranch total log = weightTrainingBranch total log)
  /\ (forall total log,
         defaultBranch total log =
         total + Zsum (map (fun s => or0 (LoggedSet.weight s) * LoggedSet.reps s)
                           (ExerciseLog.sets log)))
  /\ (forall logs workout ty,
         calculateTotalScore logs (Workout.with_type ty workout) =
         calculateTotalScore logs workout).
Proof.
  split; [|split].
  - intros total log. by rewrite defaultBranch_sum, weightTrainingBranch_sum.
  - apply defaultBranch_sum.
  - intros logs workout ty. unfold calculateTotalScore, reduce.
    apply reduce_from_ext. intros. apply scoreStep_with_type.
Qed.

(** ** startWorkoutLogging *)

Lemma or0_defaultWeight exercise :
  or0 (WorkoutExercise.weight exercise) = defaultWeight exercise.
Proof.
  unfold defaultWeight. destruct (WorkoutExercise.weight exercise) as [v|]; simpl; [|done].
  case_decide; lia.
Qed.

Lemma initialLog_valid capacity exercise :
  0 <= WorkoutExercise.sets exercise <= max_array_length ->
  WorkoutExercise.sets exercise <= capacity ->
  initialLog capacity exercise = Ok (expectedLog exercise).
Proof.
  intros [Hlo Hhi] Hcap. unfold initialLog, Array_fill, valid_array_length.
  rewrite (proj2 (Z.leb_le _ _) Hlo), (proj2 (Z.leb_le _ _) Hhi),
    (proj2 (Z.leb_le _ _) Hcap). simpl.
  unfold expectedLog, initialSet. by rewrite or0_defaultWeight.
Qed.

Lemma map_throw_all_ok {A B : Type} (f : A -> Result B) (g : A -> B) (l : list A) :
  Forall (fun x => f x = Ok (g x)) l -> map_throw f l = Ok (map g l).
Proof.
  induction 1 as [|x l Hx _ IH]; simpl; [done|].
  by rewrite Hx, IH.
Qed.

(** C9, as amended.  With a signed-in user and set counts that are lengths
    of arrays the runtime fills (valid array lengths not beyond its
    capacity), [startWorkoutLogging] returns one log per entry of the
    workout's exercise sequence, in order, with the entry's [exercise_id]
    and [sets] copies of a set whose weight is the entry's weight when
    non-zero and 0 otherwise and whose reps, distance, time and calories are
    the entry's; without an exercise sequence it returns the empty list. *)
Theorem startWorkoutLogging_initial_logs user workout w :
  validSetCounts (arrayCapacity w) workout ->
  startWorkoutLogging (Some user) workout w =
  (Ok (map expectedLog (default [] (Workout.workout_exercises workout))),
   setLogging true w).
Proof.
  intros Hvalid. unfold startWorkoutLogging, initialLogs.
  destruct (Workout.workout_exercises workout) as [exercises|] eqn:Hex; simpl; [|done].
  rewrite (map_throw_all_ok (initialLog (arrayCapacity w)) expectedLog); [done|].
  eapply Forall_impl; [by apply Hvalid|].
  intros e [He Hcap]. by apply initialLog_valid.
Qed.

Lemma startWorkoutLogging_initial_logs_witness :
  validSetCounts (arrayCapacity (worldOf emptyStore [] false)) (sampleWorkout 3 None)
  /\ startWorkoutLogging (Some alice) (sampleWorkout 3 None) (worldOf emptyStore [] false) =
     (Ok [ExerciseLog.mk "ex-1"
            (replicate 3 (LoggedSet.mk None (Some 0) 5 None None None))],
      setLogging true (worldOf emptyStore [] false)).
Proof.
  assert (Hvalid : validSetCounts (arrayCapacity (worldOf emptyStore [] false))
                                  (sampleWorkout 3 None)).
  { intros exercises [= <-]. repeat constructor; vm_compute; discriminate. }
  split; [exact Hvalid|].
  exact (startWorkoutLogging_initial_logs alice (sampleWorkout 3 None)
           (worldOf emptyStore [] false) Hvalid).
Defined.

(** C9 as stated fails: a negative set count makes [Array(exercise.sets)]
    throw, so no list of logs is returned. *)
Lemma startWorkoutLogging_negative_sets :
  (startWorkoutLogging (Some alice) (sampleWorkout (-1) None)
                       (worldOf emptyStore [] false)).1
  = Throw (RangeError "Invalid array length").
Proof. reflexivity. Qed.

(** ** Running the hook: inversion and execution lemmas *)

Lemma bind_Ok {A B : Type} (m : M A) (k : A -> M B) w b w' :
  bind m k w = (Ok b, w') ->
  exists a w1, m w = (Ok a, w1) /\ k a w1 = (Ok b, w').
Proof.
  unfold bind. destruct (m w) as [[a|e] w1]; [eauto|discriminate].
Qed.

Lemma await_or_throw_Ok {A : Type} c (op : Store.t -> StoreErr + (A * Store.t)) w a w' :
  await_or_throw c op w = (Ok a, w') ->
  exists s', op (store w) = inr (a, s') /\ w' = recorded c None s' w.
Proof.
  unfold await_or_throw, await, recorded.
  destruct (faults w) as [|[e|] rest]; [| discriminate |];
    destruct (op (store w)) as [e|[a' s']]; try discriminate;
    intros [= <- <-]; eauto.
Qed.

Lemma await_or_throw_run {A : Type} c (op : Store.t -> StoreErr + (A * Store.t)) w a s' :
  no_faults w ->
  op (store w) = inr (a, s') ->
  await_or_throw c op w = (Ok a, recorded c None s' w).
Proof.
  unfold no_faults, await_or_throw, await, recorded. intros Hnf Hop.
  destruct (faults w) as [|[e|] rest]; rewrite ?Hop; try done.
  by apply Forall_cons_1 in Hnf as [? _].
Qed.

Lemma no_faults_recorded c r s w : no_faults w -> no_faults (recorded c r s w).
Proof.
  unfold no_faults. simpl. destruct (faults w); simpl; [done|].
  by intros [_ ?]%Forall_cons_1.
Qed.

Lemma filter_not_in_nil (scores : gmap string ScoreRow.t) :
  filter (fun kv => kv.1 ∉ @nil string) scores = scores.
Proof. apply map_filter_id. intros i x _. simpl. apply not_elem_of_nil. Qed.

Lemma deleteStep_Ok D w x w' :
  (if (0 <? length D)%nat
   then await_or_throw (DeleteScores D) (store_deleteScores D)
   else ret tt) w = (Ok x, w') ->
  store w' = Store.set_exercise_scores
               (filter (fun kv => kv.1 ∉ D) (Store.exercise_scores (store w))) (store w)
  /\ trace w' = trace w ++ (if decide (D = []) then [] else [(DeleteScores D, None)])
  /\ logging w' = logging w.
Proof.
  destruct D as [|d D'].
  - simpl. intros [= _ <-]. rewrite filter_not_in_nil, app_nil_r.
    by destruct (store w).
  - simpl. intros (s' & Hop & ->)%await_or_throw_Ok.
    by injection Hop as <-.
Qed.

Lemma deleteStep_run D w :
  no_faults w ->
  exists w',
    (if (0 <? length D)%nat
     then await_or_throw (DeleteScores D) (store_deleteScores D)
     else ret tt) w = (Ok tt, w')
    /\ store w' = Store.set_exercise_scores
                    (filter (fun kv => kv.1 ∉ D) (Store.exercise_scores (store w))) (store w)
    /\ no_faults w'.
Proof.
  intros Hnf. destruct D as [|d D'].
  - exists w. simpl. rewrite filter_not_in_nil. by destruct (store w).
  - simpl. eexists. split; [by apply await_or_throw_run|].
    split; [done|]. by apply no_faults_recorded.
Qed.

Lemma updateWorkoutLog_Ok_inv u wl workout logs notes w r w' :
  updateWorkoutLog (Some u) wl workout logs notes w = (Ok r, w') ->
  let score := calculateTotalScore logs workout in
  let rows := upsertedScores (User.id u) wl logs in
  let existing := (map_to_list (scoresOf wl (Store.exercise_scores (store w)))).*1 in
  let D := scoreIdsToDelete (Set_of existing) (currentScoreIds rows) in
  let scores2 := filter (fun kv => kv.1 ∉ D) (Store.exercise_scores (store w)) in
  exists old,
    Store.workout_logs (store w) !! wl = Some old
    /\ WorkoutLog.user_id old = User.id u
    /\ r = (wl, WorkoutLog.mk (WorkoutLog.user_id old) (WorkoutLog.workout_id old)
                              notes score score (now w))
    /\ store w' =
       Store.mk (<[wl := r.2]> (Store.workout_logs (store w)))
                (fold_left upsertRow (upsert_assignment rows scores2) scores2)
                (Store.messages (store w))
    /\ trace w' =
       trace w
         ++ [(UpdateWorkoutLog wl (User.id u) notes score score (now w), None);
             (SelectScoreIds wl, None)]
         ++ (if decide (D = []) then [] else [(DeleteScores D, None)])
         ++ [(UpsertScores rows, None)]
    /\ logging w' = false.
Proof.
  intros Hrun score rows existing D scores2.
  unfold updateWorkoutLog, try_finally, catch_log in Hrun.
  match type of Hrun with
  | (let (_, _) := match ?body with _ => _ end in _) = _ =>
      destruct body as [[r0|e0] w0] eqn:Hbody; [|discriminate]
  end.
  injection Hrun as <- <-.
  apply bind_Ok in Hbody as (completed_at & w1 & Hnow & Hbody).
  injection Hnow as <- <-.
  apply bind_Ok in Hbody as (workoutLog & w1 & Hupd & Hbody).
  apply await_or_throw_Ok in Hupd as (s1 & Hupd & ->).
  apply bind_Ok in Hbody as (existingScores & w2 & Hsel & Hbody).
  apply await_or_throw_Ok in Hsel as (s2 & Hsel & ->).
  apply bind_Ok in Hbody as (? & w3 & Hdel & Hbody).
  apply bind_Ok in Hbody as (? & w4 & Hups & Hbody).
  injection Hbody as <- <-.
  apply await_or_throw_Ok in Hups as (s4 & Hups & ->).
  unfold store_updateWorkoutLog in Hupd.
  destruct (Store.workout_logs (store w) !! wl) as [old|] eqn:Hold; [|discriminate].
  case_decide as Huser; [|discriminate].
  injection Hupd as <- <-.
  injection Hsel as <- <-. simpl in *.
  fold score rows existing D in Hdel.
  apply (deleteStep_Ok D) in Hdel as (Hstore3 & Htrace3 & Hlog3).
  simpl in Hstore3, Htrace3. fold scores2 in Hstore3.
  unfold store_upsertScores in Hups. fold rows in Hups.
  injection Hups as _ <-. rewrite Hstore3. simpl.
  exists old. split_and!; try done.
  rewrite Htrace3. by rewrite <- !app_assoc.
Qed.

(** ** Lists of identifiers *)

Lemma elem_of_Set_from (l acc : list string) x :
  x ∈ fold_left (fun acc x => if decide (x ∈ acc) then acc else acc ++ [x]) l acc
  <-> x ∈ acc \/ x ∈ l.
Proof.
  revert acc. induction l as [|y l IH]; intros acc; simpl.
  - rewrite elem_of_nil. tauto.
  - rewrite IH, elem_of_cons. case_decide as Hy.
    + split; [tauto|]. intros [?|[->|?]]; auto.
    + rewrite elem_of_app, list_elem_of_singleton. tauto.
Qed.

Lemma NoDup_Set_from (l acc : list string) :
  NoDup acc ->
  NoDup (fold_left (fun acc x => if decide (x ∈ acc) then acc else acc ++ [x]) l acc).
Proof.
  revert acc. induction l as [|y l IH]; intros acc Hacc; simpl; [done|].
  apply IH. case_decide as Hy; [done|].
  apply NoDup_app. split_and!; [done| |apply NoDup_singleton].
  intros x Hx ->%list_elem_of_singleton. done.
Qed.

Lemma elem_of_Set_of l x : x ∈ Set_of l <-> x ∈ l.
Proof. unfold Set_of. rewrite elem_of_Set_from, elem_of_nil. tauto. Qed.

Lemma NoDup_Set_of l : NoDup (Set_of l).
Proof. apply NoDup_Set_from, NoDup_nil_2. Qed.

Lemma truthy_id_Some o : truthy_id o = true <-> exists i, o = Some i /\ i ≠ EmptyString.
Proof.
  destruct o as [i|]; simpl.
  - destruct (String.eqb_spec i EmptyString) as [->|Hne]; simpl.
    + split; [done|]. by intros (? & [= <-] & ?).
    + split; [eauto|done].
  - split; [done|]. by intros (? & ? & _).
Qed.

Lemma elem_of_currentScoreIds rows i :
  i ∈ currentScoreIds rows <->
  (i ≠ EmptyString) /\ exists row, (Some i, row) ∈ rows.
Proof.
  unfold currentScoreIds. rewrite elem_of_Set_of, list_elem_of_omap. split.
  - intros ([o row] & [Ht Hin]%list_elem_of_filter & Hfst). simpl in *. subst o.
    apply truthy_id_Some in Ht as (? & [= <-] & ?). eauto.
  - intros (Hne & row & Hin). exists (Some i, row). split; [|done].
    apply list_elem_of_filter. split; [|done]. apply truthy_id_Some. eauto.
Qed.

Lemma elem_of_named_ids rows i :
  i ∈ named_ids rows <-> exists row, (Some i, row) ∈ rows.
Proof.
  unfold named_ids. rewrite list_elem_of_omap. split.
  - intros ([o row] & Hin & Hfst). simpl in *. subst. eauto.
  - intros (row & Hin). by exists (Some i, row).
Qed.

Lemma elem_of_scoreIdsToDelete existing current i :
  i ∈ scoreIdsToDelete existing current <-> i ∈ existing /\ i ∉ current.
Proof. unfold scoreIdsToDelete. rewrite list_elem_of_filter. tauto. Qed.

Lemma elem_of_selected wl (scores : gmap string ScoreRow.t) i :
  i ∈ (map_to_list (scoresOf wl scores)).*1 <->
  exists row, scores !! i = Some row /\ ScoreRow.workout_log_id row = wl.
Proof.
  rewrite list_elem_of_fmap. unfold scoresOf. split.
  - intros ([k row] & -> & Hin). apply elem_of_map_to_list in Hin.
    apply map_lookup_filter_Some in Hin as [? ?]. eauto.
  - intros (row & Hrow & Hwl). exists (i, row). split; [done|].
    apply elem_of_map_to_list, map_lookup_filter_Some. done.
Qed.

(** ** Assigning identifiers to an upsert batch *)

Lemma assign_ids_snd rows pool :
  (length rows <= length pool)%nat -> (assign_ids rows pool).*2 = rows.*2.
Proof.
  revert pool. induction rows as [|[[i|] row] rows IH]; intros pool Hlen; simpl in *.
  - done.
  - f_equal. apply IH. lia.
  - destruct pool as [|j pool]; simpl in *; [lia|].
    f_equal. apply IH. lia.
Qed.

Lemma assign_ids_fst_elem rows pool x :
  x ∈ (assign_ids rows pool).*1 -> x ∈ named_ids rows \/ x ∈ pool.
Proof.
  revert pool. induction rows as [|[[i|] row] rows IH]; intros pool; simpl.
  - by intros ?%elem_of_nil.
  - unfold named_ids. simpl. rewrite !elem_of_cons.
    intros [->|Hx]; [auto|]. destruct (IH _ Hx); auto.
  - destruct pool as [|j pool]; simpl.
    + intros Hx. destruct (IH _ Hx); auto.
    + rewrite !elem_of_cons. intros [->|Hx]; [auto|].
      destruct (IH _ Hx); auto.
Qed.

Lemma assign_ids_NoDup rows pool :
  NoDup (named_ids rows) ->
  NoDup pool ->
  (forall x, x ∈ pool -> x ∉ named_ids rows) ->
  NoDup (assign_ids rows pool).*1.
Proof.
  revert pool. induction rows as [|[[i|] row] rows IH]; intros pool Hnamed Hpool Hdisj; simpl.
  - apply NoDup_nil_2.
  - unfold named_ids in Hnamed, Hdisj. simpl in Hnamed, Hdisj.
    apply NoDup_cons in Hnamed as [Hi Hnamed].
    apply NoDup_cons. split.
    + intros [Hin|Hin]%assign_ids_fst_elem; [done|].
      apply (Hdisj _ Hin). left.
    + apply IH; [done..|]. intros x Hx Hin. apply (Hdisj _ Hx). by right.
  - destruct pool as [|j pool]; simpl.
    + by apply IH.
    + apply NoDup_cons in Hpool as [Hj Hpool].
      apply NoDup_cons. split.
      * intros [Hin|Hin]%assign_ids_fst_elem; [|done].
        apply (Hdisj j); [left|done].
      * apply IH; [done..|]. intros x Hx. apply Hdisj. by right.
Qed.

Lemma assign_ids_named_lookup rows pool k i :
  (length rows <= length pool)%nat ->
  rows.*1 !! k = Some (Some i) ->
  (assign_ids rows pool).*1 !! k = Some i.
Proof.
  revert pool k. induction rows as [|[[j|] row] rows IH]; intros pool k Hlen; simpl in *.
  - by rewrite lookup_nil.
  - destruct k as [|k]; simpl; [by intros [= ->]|]. apply IH. lia.
  - destruct pool as [|j pool]; simpl in *; [lia|].
    destruct k as [|k]; simpl; [done|]. apply IH. lia.
Qed.

Lemma assign_ids_fresh_lookup rows pool k j :
  (length rows <= length pool)%nat ->
  rows.*1 !! k = Some None ->
  (assign_ids rows pool).*1 !! k = Some j ->
  j ∈ pool.
Proof.
  revert pool k. induction rows as [|[[i|] row] rows IH]; intros pool k Hlen; simpl in *.
  - by rewrite lookup_nil.
  - destruct k as [|k]; simpl; [done|]. apply IH. lia.
  - destruct pool as [|p pool]; simpl in *; [lia|].
    destruct k as [|k]; simpl.
    + intros _ [= ->]. left.
    + intros Hk Hj. right. eapply IH; [|done..]. lia.
Qed.

Lemma assign_ids_all_named ids (rows : list ScoreRow.t) pool :
  length ids = length rows ->
  assign_ids (zip (Some <$> ids) rows) pool = zip ids rows.
Proof.
  revert rows. induction ids as [|i ids IH]; intros [|row rows] Hlen; simpl in *;
    try done.
  f_equal. apply IH. lia.
Qed.

Section UpsertAssignment.
Variables (rows : list (option string * ScoreRow.t)) (scores : gmap string ScoreRow.t).

Lemma pool_length :
  length (new_ids (length rows) (dom scores ∪ list_to_set (named_ids rows)))
  = length rows.
Proof. apply length_fresh_list. Qed.

Lemma pool_fresh x :
  x ∈ new_ids (length rows) (dom scores ∪ list_to_set (named_ids rows)) ->
  (x ≠ EmptyString) /\ (x ∉ dom scores) /\ (x ∉ named_ids rows).
Proof.
  intros Hx%fresh_list_is_fresh.
  rewrite !not_elem_of_union, elem_of_list_to_set in Hx.
  destruct Hx as (Hne & ? & ?). split_and!; [|done..].
  intros ->. by apply Hne, elem_of_singleton.
Qed.

Lemma upsert_assignment_snd : (upsert_assignment rows scores).*2 = rows.*2.
Proof. apply assign_ids_snd. by rewrite pool_length. Qed.

Lemma upsert_assignment_length :
  length (upsert_assignment rows scores) = length rows.
Proof.
  rewrite <- (length_fmap snd), upsert_assignment_snd. apply length_fmap.
Qed.

Lemma upsert_assignment_NoDup :
  NoDup (named_ids rows) -> NoDup (upsert_assignment rows scores).*1.
Proof.
  intros Hnamed. apply assign_ids_NoDup; [done|apply NoDup_fresh_list|].
  intros x Hx. by apply pool_fresh.
Qed.

Lemma upsert_assignment_named k i :
  rows.*1 !! k = Some (Some i) ->
  (upsert_assignment rows scores).*1 !! k = Some i.
Proof. apply assign_ids_named_lookup. by rewrite pool_length. Qed.

Lemma upsert_assignment_fresh k j :
  rows.*1 !! k = Some None ->
  (upsert_assignment rows scores).*1 !! k = Some j ->
  (j ≠ EmptyString) /\ (j ∉ dom scores) /\ (j ∉ named_ids rows).
Proof.
  intros Hk Hj. apply pool_fresh.
  eapply assign_ids_fresh_lookup; [|done..]. by rewrite pool_length.
Qed.

Lemma named_in_upsert_assignment i :
  i ∈ named_ids rows -> i ∈ (upsert_assignment rows scores).*1.
Proof.
  intros (row & Hin)%elem_of_named_ids.
  apply list_elem_of_lookup in Hin as [k Hk].
  apply list_elem_of_lookup. exists k.
  apply upsert_assignment_named. by rewrite list_lookup_fmap, Hk.
Qed.
End UpsertAssignment.

(** ** The rows built from the logs *)

Lemma upsertedScores_cons uid wl log logs :
  upsertedScores uid wl (log :: logs) =
  map (fun set =>
         (LoggedSet.id set,
          ScoreRow.mk uid wl (ExerciseLog.exercise_id log)
                      (LoggedSet.weight set) (LoggedSet.reps set)
                      (LoggedSet.distance set) (LoggedSet.time set)
                      (LoggedSet.calories set)))
      (ExerciseLog.sets log)
  ++ upsertedScores uid wl logs.
Proof. reflexivity. Qed.

Lemma upsertedScores_length uid wl logs :
  length (upsertedScores uid wl logs) = length (flat_map ExerciseLog.sets logs).
Proof.
  induction logs as [|log logs IH]; [done|].
  rewrite upsertedScores_cons. simpl flat_map.
  by rewrite !length_app, length_map, IH.
Qed.

Lemma upsertedScores_workout_log_id uid wl logs :
  Forall (fun row => ScoreRow.workout_log_id row = wl) (upsertedScores uid wl logs).*2.
Proof.
  induction logs as [|log logs IH]; [constructor|].
  rewrite upsertedScores_cons, fmap_app. apply Forall_app. split; [|done].
  apply Forall_fmap, Forall_forall. intros p (set & -> & _)%list_elem_of_fmap. done.
Qed.

Lemma elem_of_upsertedScores_id uid wl logs i :
  (exists row, (Some i, row) ∈ upsertedScores uid wl logs) <->
  exists log set, log ∈ logs /\ set ∈ ExerciseLog.sets log /\ LoggedSet.id set = Some i.
Proof.
  induction logs as [|log logs IH].
  - split; [by intros (? & ?%elem_of_nil)|by intros (? & ? & ?%elem_of_nil & _)].
  - rewrite upsertedScores_cons. split.
    + intros (row & [Hin|Hin]%elem_of_app).
      * apply list_elem_of_fmap in Hin as (set & [= Hid _] & Hset).
        exists log, set. split_and!; [left|done..].
      * destruct (proj1 IH) as (log' & set & ? & ? & ?); [eauto|].
        exists log', set. split_and!; [by right|done..].
    + intros (log' & set & [->|Hlog]%elem_of_cons & Hset & Hid).
      * eexists. apply elem_of_app. left. apply list_elem_of_fmap.
        exists set. rewrite Hid. done.
      * destruct (proj2 IH) as (row & ?); [eauto|].
        exists row. apply elem_of_app. by right.
Qed.

Lemma upsertedScores_relabel uid wl logs ids :
  length ids = length (flat_map ExerciseLog.sets logs) ->
  upsertedScores uid wl (relabel logs ids) =
  zip (Some <$> ids) (upsertedScores uid wl logs).*2.
Proof.
  revert ids. induction logs as [|log logs IH]; intros ids Hlen.
  - by destruct ids.
  - simpl relabel. rewrite !upsertedScores_cons. cbn [ExerciseLog.sets ExerciseLog.exercise_id].
    simpl flat_map in Hlen. rewrite length_app in Hlen.
    rewrite IH by (rewrite length_drop; lia).
    rewrite <- (take_drop (length (ExerciseLog.sets log)) ids) at 3.
    rewrite !fmap_app, zip_with_app.
    2:{ rewrite !length_fmap, length_take. lia. }
    f_equal.
    assert (Htake : length (take (length (ExerciseLog.sets log)) ids)
                    = length (ExerciseLog.sets log)) by (rewrite length_take; lia).
    revert Htake. generalize (take (length (ExerciseLog.sets log)) ids).
    generalize (ExerciseLog.sets log).
    induction l as [|set sets IHs]; intros [|i ids1] Hl; simpl in *; try done.
    f_equal. apply IHs. lia.
Qed.

Lemma named_ids_zip_Some ids (rows : list ScoreRow.t) :
  length ids = length rows -> named_ids (zip (Some <$> ids) rows) = ids.
Proof.
  revert rows. induction ids as [|i ids IH]; intros [|row rows] Hlen; simpl in *; try done.
  unfold named_ids in *. simpl. f_equal. apply IH. lia.
Qed.

(** ** The rows of a workout log after an update *)

Lemma upsert_fold_union (A : list (string * ScoreRow.t)) (m : gmap string ScoreRow.t) :
  fold_left upsertRow A m = list_to_map (reverse A) ∪ m.
Proof.
  revert m. induction A as [|[i row] A IH]; intros m; simpl.
  - by rewrite (left_id_L ∅ (∪)).
  - rewrite IH, reverse_cons, list_to_map_app. unfold upsertRow. simpl.
    rewrite <- (assoc_L (∪)). f_equal.
    by rewrite <- insert_union_l, (left_id_L ∅ (∪)).
Qed.

Lemma upsert_fold_distinct (A : list (string * ScoreRow.t)) (m : gmap string ScoreRow.t) :
  NoDup A.*1 -> fold_left upsertRow A m = list_to_map A ∪ m.
Proof.
  intros Hnodup. rewrite upsert_fold_union. f_equal.
  apply list_to_map_proper; [|apply reverse_Permutation].
  by rewrite fmap_reverse, reverse_Permutation.
Qed.

Lemma named_ids_upsertedScores uid wl logs :
  named_ids (upsertedScores uid wl logs) = carriedIds logs.
Proof.
  unfold named_ids, carriedIds. induction logs as [|log logs IH]; [done|].
  rewrite upsertedScores_cons. simpl flat_map. rewrite !omap_app, IH. f_equal.
  induction (ExerciseLog.sets log) as [|set sets IHs]; [done|].
  simpl. destruct (LoggedSet.id set); simpl; by f_equal.
Qed.

Lemma scoresOf_union_batch wl (A : list (string * ScoreRow.t))
    (scores : gmap string ScoreRow.t) :
  Forall (fun row => ScoreRow.workout_log_id row = wl) A.*2 ->
  (forall i row, scores !! i = Some row -> ScoreRow.workout_log_id row = wl -> i ∈ A.*1) ->
  scoresOf wl (list_to_map A ∪ scores) = list_to_map A.
Proof.
  intros Hwl Hcover. apply map_eq. intros i. apply option_eq. intros row.
  unfold scoresOf. rewrite map_lookup_filter_Some, lookup_union_Some_raw. split.
  - intros [[HA|[HnA Hs]] Hrow]; [done|]. simpl in Hrow.
    apply not_elem_of_list_to_map in HnA. destruct HnA. eauto.
  - intros HA. split; [by left|]. simpl.
    apply elem_of_list_to_map_2 in HA.
    eapply Forall_forall in Hwl; [done|].
    apply list_elem_of_fmap. by exists (i, row).
Qed.

Lemma scoresOf_upsert_fold wl (A : list (string * ScoreRow.t))
    (scores : gmap string ScoreRow.t) :
  Forall (fun row => ScoreRow.workout_log_id row = wl) A.*2 ->
  (forall i row, scores !! i = Some row -> ScoreRow.workout_log_id row = wl -> i ∈ A.*1) ->
  scoresOf wl (fold_left upsertRow A scores) = fold_left upsertRow A ∅.
Proof.
  intros Hwl Hcover. rewrite !upsert_fold_union, (right_id_L ∅ (∪)).
  apply scoresOf_union_batch.
  - rewrite fmap_reverse. by apply Forall_reverse.
  - intros i row Hrow Hrowwl. rewrite fmap_reverse, elem_of_reverse. eauto.
Qed.

Lemma reupsert_same wl (A : list (string * ScoreRow.t)) (D : list string)
    (scores : gmap string ScoreRow.t) :
  list_to_map A = scoresOf wl scores ->
  (forall i, i ∈ D -> is_Some (scoresOf wl scores !! i)) ->
  list_to_map A ∪ filter (fun kv => kv.1 ∉ D) scores = scores.
Proof.
  intros -> HD. apply map_eq. intros i.
  destruct (scoresOf wl scores !! i) as [row|] eqn:Hi.
  - rewrite lookup_union_l' by (by rewrite Hi).
    rewrite Hi. unfold scoresOf in Hi.
    by apply map_lookup_filter_Some in Hi as [-> _].
  - rewrite lookup_union_r by done.
    apply option_eq. intros row. rewrite map_lookup_filter_Some. simpl.
    split; [tauto|]. intros Hrow. split; [done|].
    intros Hin. apply HD in Hin as [row' Hin]. congruence.
Qed.

Lemma kept_rows_are_named uid wl logs (scores : gmap string ScoreRow.t) :
  let rows := upsertedScores uid wl logs in
  let existing := (map_to_list (scoresOf wl scores)).*1 in
  let D := scoreIdsToDelete (Set_of existing) (currentScoreIds rows) in
  forall i row,
    filter (fun kv => kv.1 ∉ D) scores !! i = Some row ->
    ScoreRow.workout_log_id row = wl ->
    i ∈ named_ids rows.
Proof.
  intros rows existing D i row [Hrow HnD]%map_lookup_filter_Some Hwl. simpl in HnD.
  destruct (decide (i ∈ currentScoreIds rows)) as [Hcur|Hcur].
  - apply elem_of_currentScoreIds in Hcur as [_ Hcur]. by apply elem_of_named_ids.
  - destruct HnD. apply elem_of_scoreIdsToDelete. split; [|done].
    apply elem_of_Set_of, elem_of_selected. eauto.
Qed.

Lemma updateWorkoutLog_Ok_assignment u wl workout logs notes w r w' :
  updateWorkoutLog (Some u) wl workout logs notes w = (Ok r, w') ->
  exists A : list (string * ScoreRow.t),
    A.*2 = (upsertedScores (User.id u) wl logs).*2
    /\ (NoDup (carriedIds logs) -> NoDup A.*1)
    /\ length A.*1 = length (flat_map ExerciseLog.sets logs)
    /\ (forall k i,
           (upsertedScores (User.id u) wl logs).*1 !! k = Some (Some i) ->
           A.*1 !! k = Some i)
    /\ (forall i row,
           Store.exercise_scores (store w') !! i = Some row ->
           i ∈ A.*1 \/ Store.exercise_scores (store w) !! i = Some row)
    /\ scoresOf wl (Store.exercise_scores (store w')) = fold_left upsertRow A ∅.
Proof.
  intros Hrun.
  apply updateWorkoutLog_Ok_inv in Hrun
    as (old & Hold & Huser & -> & Hstore & Htrace & Hlog).
  set (rows := upsertedScores (User.id u) wl logs) in *.
  set (D := scoreIdsToDelete _ _) in *.
  set (scores2 := filter _ _) in *.
  exists (upsert_assignment rows scores2).
  assert (Hsnd : (upsert_assignment rows scores2).*2 = rows.*2)
    by apply upsert_assignment_snd.
  split_and!.
  - done.
  - intros Hnodup. apply upsert_assignment_NoDup.
    unfold rows. by rewrite named_ids_upsertedScores.
  - rewrite length_fmap, upsert_assignment_length. apply upsertedScores_length.
  - intros k i. apply upsert_assignment_named.
  - intros i row. rewrite Hstore. simpl. rewrite upsert_fold_union.
    intros [HA|[_ Hkept]]%lookup_union_Some_raw.
    + left. apply elem_of_list_to_map_2 in HA. rewrite elem_of_reverse in HA.
      apply list_elem_of_fmap. by exists (i, row).
    + right. by apply map_lookup_filter_Some in Hkept as [? _].
  - rewrite Hstore. simpl. apply scoresOf_upsert_fold.
    + rewrite Hsnd. apply upsertedScores_workout_log_id.
    + intros i row Hrow Hwl. apply named_in_upsert_assignment.
      by eapply kept_rows_are_named.
Qed.

(** C2, as amended.  When no two supplied sets carry the same identifier
    and [updateWorkoutLog] completes without error, the [exercise_scores]
    rows of the workout log are exactly one row per LoggedSet supplied in
    [logs]: they are the rows built from the sets, stored under pairwise
    distinct identifiers (the set's own identifier where it carries one),
    so nothing of the previous rows is left over and no set is stored
    twice. *)
Theorem updateWorkoutLog_rows_exact user workoutLogId workout logs notes w r w' :
  NoDup (carriedIds logs) ->
  updateWorkoutLog user workoutLogId workout logs notes w = (Ok r, w') ->
  exists u ids,
    user = Some u
    /\ length ids = length (flat_map ExerciseLog.sets logs)
    /\ NoDup ids
    /\ (forall k i,
           (upsertedScores (User.id u) workoutLogId logs).*1 !! k = Some (Some i) ->
           ids !! k = Some i)
    /\ scoresOf workoutLogId (Store.exercise_scores (store w')) =
       list_to_map (zip ids (upsertedScores (User.id u) workoutLogId logs).*2)
    /\ size (scoresOf workoutLogId (Store.exercise_scores (store w')))
       = length (flat_map ExerciseLog.sets logs)
    /\ (forall i,
           i ∈ dom (scoresOf workoutLogId (Store.exercise_scores (store w))) ->
           i ∉ ids ->
           Store.exercise_scores (store w') !! i = None).
Proof.
  intros Hdistinct Hrun. destruct user as [u|]; [|discriminate].
  destruct (updateWorkoutLog_Ok_assignment _ _ _ _ _ _ _ _ Hrun)
    as (A & Hsnd & HnodupA & HlenA & Hnamed & Hin & Hrows).
  specialize (HnodupA Hdistinct).
  rewrite upsert_fold_distinct, (right_id_L ∅ (∪)) in Hrows by done.
  exists u, A.*1. split_and!; try done.
  - by rewrite Hrows, <- Hsnd, zip_fst_snd.
  - rewrite Hrows, map_size_list_to_map by done.
    by rewrite <- HlenA, length_fmap.
  - intros i Hi HiA.
    assert (Hnone : scoresOf workoutLogId (Store.exercise_scores (store w')) !! i = None).
    { rewrite Hrows. by apply not_elem_of_list_to_map. }
    destruct (Store.exercise_scores (store w') !! i) as [row|] eqn:Hrow; [exfalso|done].
    apply map_lookup_filter_None in Hnone as [Hnone|Hnone]; [congruence|].
    apply (Hnone row Hrow). simpl.
    destruct (Hin i row Hrow) as [HA|Hrow0]; [done|].
    apply elem_of_dom in Hi as [row' Hi].
    apply map_lookup_filter_Some in Hi as [Hi Hwl]. simpl in Hwl. congruence.
Qed.

(** The sample edit: B is deleted, A and C are kept, one row is added. *)
Example sampleUpdate_rows :
  Store.exercise_scores (store sampleUpdate.2) !! "A"%string = Some (sampleRow 5)
  /\ Store.exercise_scores (store sampleUpdate.2) !! "B"%string = None
  /\ Store.exercise_scores (store sampleUpdate.2) !! "C"%string = Some (sampleRow 3)
  /\ size (Store.exercise_scores (store sampleUpdate.2)) = 3%nat
  /\ (trace sampleUpdate.2).*1 =
     [UpdateWorkoutLog "log-1" "alice" "edited" 1000 1000 "2024-01-01T00:00:00.000Z";
      SelectScoreIds "log-1";
      DeleteScores ["B"%string];
      UpsertScores (upsertedScores "alice" "log-1" sampleLogs)].
Proof. vm_compute. repeat split. Qed.

(** C2 as stated fails: an edit whose two sets both carry the identifier A
    completes, and the workout log is left with one row for two sets (B
    and C are deleted, both sets are written to the row A). *)
Lemma updateWorkoutLog_shared_identifier_one_row :
  let logs :=
    [ExerciseLog.mk "ex-1"
       [LoggedSet.mk (Some "A"%string) (Some 100) 5 None None None;
        LoggedSet.mk (Some "A"%string) (Some 100) 3 None None None]] in
  let run := updateWorkoutLog (Some alice) "log-1" (sampleWorkout 3 (Some 100)) logs
                              "edited" (worldOf sampleStore [] true) in
  (exists r, run.1 = Ok r)
  /\ length (flat_map ExerciseLog.sets logs) = 2%nat
  /\ size (scoresOf "log-1" (Store.exercise_scores (store run.2))) = 1%nat
  /\ dom (Store.exercise_scores (store run.2)) = {[ "A"%string ]}.
Proof. vm_compute. split; [by eexists|]. repeat split. Qed.

Lemma sampleUpdate_ok : exists r, sampleUpdate = (Ok r, sampleUpdate.2).
Proof. eexists. vm_compute. reflexivity. Defined.

Lemma sampleLogs_distinct : NoDup (carriedIds sampleLogs).
Proof.
  unfold carriedIds. simpl.
  apply NoDup_cons_2; [|apply NoDup_singleton].
  intros Hin%list_elem_of_singleton. discriminate Hin.
Defined.

Lemma updateWorkoutLog_rows_exact_witness :
  exists r,
    sampleUpdate = (Ok r, sampleUpdate.2)
    /\ size (scoresOf "log-1" (Store.exercise_scores (store sampleUpdate.2))) = 3%nat.
Proof.
  destruct sampleUpdate_ok as [r Hrun]. exists r. split; [exact Hrun|].
  destruct (updateWorkoutLog_rows_exact _ _ _ _ _ _ _ _ sampleLogs_distinct Hrun)
    as (u & ids & _ & _ & _ & _ & _ & Hsize & _).
  exact Hsize.
Defined.

(** C3.  On a successful [updateWorkoutLog] the deletion set [D] is exactly
    the identifiers of the existing [exercise_scores] rows of the workout
    log that no supplied set carries (as a non-empty identifier, which is
    what the code tests); the store calls are update, select, the delete of
    exactly [D] (skipped when [D] is empty), and only then the upsert of one
    row per set; in that upsert the rows are written in the order of the
    sets, a set that names an identifier under it and a set without one
    under a new identifier.  When no two sets carry the same identifier the
    identifiers written are pairwise distinct and the table is the rows
    written over the table without [D]. *)
Theorem updateWorkoutLog_delete_then_upsert user workoutLogId workout logs notes w r w' :
  updateWorkoutLog user workoutLogId workout logs notes w = (Ok r, w') ->
  exists u D A,
    user = Some u
    /\ NoDup D
    /\ (forall i,
           i ∈ D <->
           (exists row, Store.exercise_scores (store w) !! i = Some row
                        /\ ScoreRow.workout_log_id row = workoutLogId)
           /\ ~ ((i ≠ EmptyString)
                 /\ exists log set, log ∈ logs /\ set ∈ ExerciseLog.sets log
                                    /\ LoggedSet.id set = Some i))
    /\ trace w' =
       trace w
         ++ [(UpdateWorkoutLog workoutLogId (User.id u) notes
                               (calculateTotalScore logs workout)
                               (calculateTotalScore logs workout) (now w), None);
             (SelectScoreIds workoutLogId, None)]
         ++ (if decide (D = []) then [] else [(DeleteScores D, None)])
         ++ [(UpsertScores (upsertedScores (User.id u) workoutLogId logs), None)]
    /\ Store.exercise_scores (store w') =
       fold_left upsertRow A
                 (filter (fun kv => kv.1 ∉ D) (Store.exercise_scores (store w)))
    /\ A.*2 = (upsertedScores (User.id u) workoutLogId logs).*2
    /\ (NoDup (carriedIds logs) ->
        NoDup A.*1
        /\ Store.exercise_scores (store w') =
           list_to_map A ∪ filter (fun kv => kv.1 ∉ D) (Store.exercise_scores (store w)))
    /\ (forall k i,
           (upsertedScores (User.id u) workoutLogId logs).*1 !! k = Some (Some i) ->
           A.*1 !! k = Some i)
    /\ (forall k j,
           (upsertedScores (User.id u) workoutLogId logs).*1 !! k = Some None ->
           A.*1 !! k = Some j ->
           (j ≠ EmptyString)
           /\ (j ∉ dom (filter (fun kv => kv.1 ∉ D) (Store.exercise_scores (store w))))
           /\ (j ∉ named_ids (upsertedScores (User.id u) workoutLogId logs))).
Proof.
  intros Hrun. destruct user as [u|]; [|discriminate].
  apply updateWorkoutLog_Ok_inv in Hrun
    as (old & Hold & Huser & -> & Hstore & Htrace & Hlog).
  set (rows := upsertedScores (User.id u) workoutLogId logs) in *.
  set (D := scoreIdsToDelete _ _) in *.
  set (scores2 := filter _ _) in *.
  exists u, D, (upsert_assignment rows scores2).
  fold rows. split_and!; try done.
  - apply NoDup_filter, NoDup_Set_of.
  - intros i. unfold D. rewrite elem_of_scoreIdsToDelete, elem_of_Set_of,
      elem_of_selected, elem_of_currentScoreIds.
    unfold rows. by rewrite elem_of_upsertedScores_id.
  - by rewrite Hstore.
  - apply upsert_assignment_snd.
  - intros Hdistinct.
    assert (NoDup (upsert_assignment rows scores2).*1) as HnodupA.
    { apply upsert_assignment_NoDup. unfold rows. by rewrite named_ids_upsertedScores. }
    split; [done|]. rewrite Hstore. simpl. by apply upsert_fold_distinct.
  - apply upsert_assignment_named.
  - apply upsert_assignment_fresh.
Qed.

Lemma updateWorkoutLog_delete_then_upsert_witness :
  exists r,
    sampleUpdate = (Ok r, sampleUpdate.2)
    /\ exists D A,
        Store.exercise_scores (store sampleUpdate.2) =
        list_to_map A ∪ filter (fun kv => kv.1 ∉ D) (Store.exercise_scores sampleStore)
        /\ NoDup D.
Proof.
  destruct sampleUpdate_ok as [r Hrun]. exists r. split; [exact Hrun|].
  destruct (updateWorkoutLog_delete_then_upsert _ _ _ _ _ _ _ _ Hrun)
    as (u & D & A & _ & HD & _ & _ & _ & _ & Hdistinct & _).
  destruct (Hdistinct sampleLogs_distinct) as [_ Hstore].
  exists D, A. split; [exact Hstore|exact HD].
Defined.

(** ** Running an update to completion *)

Lemma bind_run {A B : Type} (m : M A) (k : A -> M B) w a w1 :
  m w = (Ok a, w1) -> bind m k w = k a w1.
Proof. unfold bind. by intros ->. Qed.

Lemma updateWorkoutLog_run u wl workout logs notes w old :
  no_faults w ->
  Store.workout_logs (store w) !! wl = Some old ->
  WorkoutLog.user_id old = User.id u ->
  exists r w', updateWorkoutLog (Some u) wl workout logs notes w = (Ok r, w').
Proof.
  intros Hnf Hold Huser.
  unfold updateWorkoutLog, try_finally, catch_log.
  set (score := calculateTotalScore logs workout).
  set (rows := upsertedScores (User.id u) wl logs) in *.
  erewrite (bind_run toISOString_now) by reflexivity.
  erewrite bind_run; cycle 1.
  { apply await_or_throw_run; [done|].
    unfold store_updateWorkoutLog. rewrite Hold. by rewrite decide_True. }
  erewrite bind_run; cycle 1.
  { apply await_or_throw_run; [by apply no_faults_recorded|]. reflexivity. }
  match goal with
  | |- context [bind (if (0 <? length ?D)%nat then _ else _) _ ?w2] =>
      destruct (deleteStep_run D w2) as (w3 & Hdel & Hstore3 & Hnf3);
      [by do 2 apply no_faults_recorded|]
  end.
  erewrite bind_run by exact Hdel.
  erewrite bind_run; cycle 1.
  { apply await_or_throw_run; [done|]. reflexivity. }
  simpl. eauto.
Qed.

Lemma persistedUnder_labelled uid wl logs scores ids :
  NoDup ids -> persistedUnder uid wl logs scores ids <-> labelled uid wl logs scores ids.
Proof.
  intros Hnodup. unfold persistedUnder, labelled.
  assert (length ids = length (flat_map ExerciseLog.sets logs) ->
          fold_left upsertRow (zip ids (upsertedScores uid wl logs).*2) ∅
          = list_to_map (zip ids (upsertedScores uid wl logs).*2)) as Heq.
  { intros Hlen. rewrite upsert_fold_distinct, (right_id_L ∅ (∪)); [done|].
    rewrite fst_zip; [done|]. rewrite length_fmap, upsertedScores_length. lia. }
  split.
  - intros [Hlen Hrows]. split_and!; [done..|]. by rewrite <- Heq.
  - intros (Hlen & _ & Hrows). split; [done|]. by rewrite Heq.
Qed.

(** C4.  After a successful [updateWorkoutLog] there are identifiers [ids]
    under which the rows of the supplied sets are persisted: the rows of
    the workout log are what writing the sets' rows in order under [ids]
    gives, a set that carries an identifier being written under it (and
    the identifiers are pairwise distinct when the carried ones are).  A
    second call with the same logs carrying such identifiers, with no store
    failure, completes and leaves the [exercise_scores] table exactly as
    the first call left it: the same rows under the same identifiers, none
    left over and none added. *)
Theorem updateWorkoutLog_idempotent u workoutLogId workout logs notes w r1 w1 :
  updateWorkoutLog (Some u) workoutLogId workout logs notes w = (Ok r1, w1) ->
  (exists ids,
      persistedUnder (User.id u) workoutLogId logs (Store.exercise_scores (store w1)) ids
      /\ (forall k i,
             (upsertedScores (User.id u) workoutLogId logs).*1 !! k = Some (Some i) ->
             ids !! k = Some i)
      /\ (NoDup (carriedIds logs) ->
          labelled (User.id u) workoutLogId logs (Store.exercise_scores (store w1)) ids))
  /\ forall ids w1',
      persistedUnder (User.id u) workoutLogId logs (Store.exercise_scores (store w1)) ids ->
      store w1' = store w1 ->
      no_faults w1' ->
      exists r2 w2,
        updateWorkoutLog (Some u) workoutLogId workout (relabel logs ids) notes w1'
        = (Ok r2, w2)
        /\ Store.exercise_scores (store w2) = Store.exercise_scores (store w1)
        /\ persistedUnder (User.id u) workoutLogId logs
                          (Store.exercise_scores (store w2)) ids.
Proof.
  intros Hrun1. split.
  - destruct (updateWorkoutLog_Ok_assignment _ _ _ _ _ _ _ _ Hrun1)
      as (A & Hsnd & Hnodup & Hlen & Hnamed & _ & Hrows).
    assert (persistedUnder (User.id u) workoutLogId logs
                           (Store.exercise_scores (store w1)) A.*1) as Hpers.
    { split; [done|]. by rewrite <- Hsnd, zip_fst_snd. }
    exists A.*1. split_and!; [done..|].
    intros Hdistinct. apply persistedUnder_labelled; auto.
  - intros ids w1' (Hlen & Hrows) Hstore Hnf.
    apply updateWorkoutLog_Ok_inv in Hrun1
      as (old & Hold & Huser & -> & Hstore1 & _).
    set (rows := upsertedScores (User.id u) workoutLogId logs) in *.
    assert (Hlen' : length ids = length rows.*2).
    { rewrite length_fmap. unfold rows. by rewrite upsertedScores_length. }
    assert (Hrows2 : upsertedScores (User.id u) workoutLogId (relabel logs ids)
                     = zip (Some <$> ids) rows.*2)
      by by apply upsertedScores_relabel.
    destruct (updateWorkoutLog_run u workoutLogId workout (relabel logs ids) notes w1'
                (WorkoutLog.mk (WorkoutLog.user_id old) (WorkoutLog.workout_id old) notes
                   (calculateTotalScore logs workout) (calculateTotalScore logs workout)
                   (now w)))
      as (r2 & w2 & Hrun2); [done| | done |].
    { rewrite Hstore, Hstore1. simpl. apply lookup_insert_eq. }
    exists r2, w2. split; [done|].
    apply updateWorkoutLog_Ok_inv in Hrun2
      as (old2 & _ & _ & _ & Hstore2 & _).
    assert (Heq : Store.exercise_scores (store w2) = Store.exercise_scores (store w1)).
    { rewrite Hstore2. simpl. rewrite Hrows2.
      unfold upsert_assignment. rewrite assign_ids_all_named by done.
      rewrite Hstore, upsert_fold_union. apply (reupsert_same workoutLogId).
      - rewrite Hrows, upsert_fold_union. by rewrite (right_id_L ∅ (∪)).
      - intros i [Hin _]%elem_of_scoreIdsToDelete.
        apply elem_of_Set_of, elem_of_selected in Hin as (row & Hrow & Hwl).
        exists row. by apply map_lookup_filter_Some. }
    split; [done|]. rewrite Heq. by split.
Qed.

Lemma updateWorkoutLog_idempotent_witness :
  exists r1,
    sampleUpdate = (Ok r1, sampleUpdate.2)
    /\ exists ids r2 w2,
        updateWorkoutLog (Some alice) "log-1" (sampleWorkout 3 (Some 100))
                         (relabel sampleLogs ids) "edited" sampleUpdate.2
        = (Ok r2, w2)
        /\ Store.exercise_scores (store w2) = Store.exercise_scores (store sampleUpdate.2).
Proof.
  destruct sampleUpdate_ok as [r1 Hrun]. exists r1. split; [exact Hrun|].
  destruct (updateWorkoutLog_idempotent _ _ _ _ _ _ _ _ Hrun)
    as [(ids & Hids & _) Hagain].
  destruct (Hagain ids sampleUpdate.2 Hids eq_refl) as (r2 & w2 & Hrun2 & Hsame & _).
  { vm_compute. constructor. }
  exists ids, r2, w2. split; [exact Hrun2|exact Hsame].
Defined.

(** ** Failures of store calls *)

Lemma faithful_ret {A : Type} (a : A) : faithful (ret a).
Proof.
  unfold faithful, ret. intros w res w' [= <- <-]. split; [done|].
  exists []. rewrite app_nil_r. split; [done|constructor].
Qed.

Lemma faithful_toISOString_now : faithful toISOString_now.
Proof.
  unfold faithful, toISOString_now. intros w res w' [= <- <-]. split; [done|].
  exists []. rewrite app_nil_r. split; [done|constructor].
Qed.

Lemma faithful_await_or_throw {A : Type} c (op : Store.t -> StoreErr + (A * Store.t)) :
  faithful (await_or_throw c op).
Proof.
  intros w res w'. unfold await_or_throw, await.
  destruct (faults w) as [|[e|] rest]; [| |];
    try destruct (op (store w)) as [e'|[a s']];
    intros [= <- <-]; simpl; (split; [done|]); eexists; (split; [done|]); simpl;
    try (by repeat constructor);
    by (exists [], c; eexists; split_and!; [done|constructor|done]).
Qed.

Lemma faithful_bind {A B : Type} (m : M A) (k : A -> M B) :
  faithful m -> (forall a, faithful (k a)) -> faithful (bind m k).
Proof.
  intros Hm Hk w res w'. unfold bind.
  destruct (m w) as [[a|e] w1] eqn:Hmw.
  - intros Hkw. apply Hm in Hmw as (Hlog1 & calls1 & Htr1 & Hp1).
    apply Hk in Hkw as (Hlog2 & calls2 & Htr2 & Hp2).
    split; [congruence|]. exists (calls1 ++ calls2).
    split; [by rewrite Htr2, Htr1, app_assoc|].
    simpl in Hp1. destruct res as [b|err]; simpl in *.
    + by apply Forall_app.
    + destruct Hp2 as (pre & c & e & -> & Hpre & ->).
      exists (calls1 ++ pre), c, e. split_and!; [by rewrite app_assoc| |done].
      by apply Forall_app.
  - intros [= <- <-]. apply Hm in Hmw. exact Hmw.
Qed.

Lemma faithful_catch_log {A : Type} label (m : M A) : faithful m -> faithful (catch_log label m).
Proof.
  intros Hm w res w'. unfold catch_log.
  destruct (m w) as [[a|e] w1] eqn:Hmw; intros [= <- <-]; by apply Hm in Hmw.
Qed.

Lemma try_finally_setLogging {A : Type} (m : M A) w :
  faithful m ->
  logging (try_finally m (setLogging false) w).2 = false
  /\ exists calls,
      trace (try_finally m (setLogging false) w).2 = trace w ++ calls
      /\ propagates (try_finally m (setLogging false) w).1 calls.
Proof.
  intros Hm. unfold try_finally.
  destruct (m w) as [res w1] eqn:Hmw. simpl.
  apply Hm in Hmw as (_ & calls & ? & ?). eauto.
Qed.

Lemma faithful_logWorkout_body u workout logs notes :
  faithful
    (catch_log "Error logging workout:"
       (bind toISOString_now (fun completed_at =>
          let row := WorkoutLog.mk (User.id u) (Workout.id workout) notes
                                   (calculateTotalScore logs workout)
                                   (calculateTotalScore logs workout) completed_at in
          bind (await_or_throw (InsertWorkoutLog row) (store_insertWorkoutLog row))
               (fun workoutLog =>
                  let exerciseScores := insertedScores (User.id u) workoutLog.1 logs in
                  bind (await_or_throw (InsertScores exerciseScores)
                                       (store_insertScores exerciseScores))
                       (fun _ => ret workoutLog))))).
Proof.
  apply faithful_catch_log.
  repeat (apply faithful_bind; [|intros ?]);
    auto using faithful_toISOString_now, faithful_await_or_throw, faithful_ret.
Qed.

Lemma faithful_updateWorkoutLog_body u wl workout logs notes :
  faithful
    (catch_log "Error updating workout log:"
       (bind toISOString_now (fun completed_at =>
          bind (await_or_throw
                  (UpdateWorkoutLog wl (User.id u) notes
                     (calculateTotalScore logs workout)
                     (calculateTotalScore logs workout) completed_at)
                  (store_updateWorkoutLog wl (User.id u) notes
                     (calculateTotalScore logs workout)
                     (calculateTotalScore logs workout) completed_at))
               (fun workoutLog =>
                  bind (await_or_throw (SelectScoreIds wl) (store_selectScoreIds wl))
                       (fun existingScores =>
                          let D := scoreIdsToDelete
                                     (Set_of existingScores)
                                     (currentScoreIds (upsertedScores (User.id u) wl logs)) in
                          bind (if (0 <? length D)%nat
                                then await_or_throw (DeleteScores D) (store_deleteScores D)
                                else ret tt)
                               (fun _ =>
                                  bind (await_or_throw
                                          (UpsertScores (upsertedScores (User.id u) wl logs))
                                          (store_upsertScores
                                             (upsertedScores (User.id u) wl logs)))
                                       (fun _ => ret workoutLog))))))).
Proof.
  apply faithful_catch_log.
  repeat (apply faithful_bind; [|intros ?]);
    try case_match;
    auto using faithful_toISOString_now, faithful_await_or_throw, faithful_ret.
Qed.

(** C7, as amended.  With a signed-in user, [logWorkout] and
    [updateWorkoutLog] end with the logging flag false, on success and on
    failure alike, and a store call that fails is the last call made and
    its error is the error of the returned promise, unchanged.  With no
    signed-in user both fail before the [try] block and leave the world,
    the logging flag included, as it was. *)
Theorem store_failure_propagates_logging_resets u workoutLogId workout logs notes w :
  (logging (logWorkout (Some u) workout logs notes w).2 = false
   /\ exists calls,
       trace (logWorkout (Some u) workout logs notes w).2 = trace w ++ calls
       /\ propagates (logWorkout (Some u) workout logs notes w).1 calls)
  /\ (logging (updateWorkoutLog (Some u) workoutLogId workout logs notes w).2 = false
      /\ exists calls,
          trace (updateWorkoutLog (Some u) workoutLogId workout logs notes w).2
          = trace w ++ calls
          /\ propagates (updateWorkoutLog (Some u) workoutLogId workout logs notes w).1
                        calls)
  /\ logWorkout None workout logs notes w
     = (Throw (Error "User must be logged in to log a workout"), w)
  /\ updateWorkoutLog None workoutLogId workout logs notes w
     = (Throw (Error "User must be logged in to update a workout"), w).
Proof.
  split; [|split; [|split; reflexivity]].
  - apply try_finally_setLogging, faithful_logWorkout_body.
  - apply try_finally_setLogging, faithful_updateWorkoutLog_body.
Qed.

(** C7 as stated fails: with no signed-in user the flag is not reset. *)
Lemma logging_not_reset_without_user :
  logging (logWorkout None (sampleWorkout 1 None) [] EmptyString
                      (worldOf emptyStore [] true)).2 = true
  /\ logging (updateWorkoutLog None "log-1" (sampleWorkout 1 None) [] EmptyString
                               (worldOf emptyStore [] true)).2 = true.
Proof. split; reflexivity. Qed.

(** C8, as amended.  With no signed-in user, [logWorkout],
    [updateWorkoutLog] and [startWorkoutLogging] fail with their
    "must be logged in" error before any store call (the world, its trace
    included, is unchanged), whereas [handlePostMessage] returns without an
    error, without a store call and without changing its state. *)
Theorem no_user_no_store_call workoutLogId workout logs notes board w :
  logWorkout None workout logs notes w
  = (Throw (Error "User must be logged in to log a workout"), w)
  /\ updateWorkoutLog None workoutLogId workout logs notes w
     = (Throw (Error "User must be logged in to update a workout"), w)
  /\ startWorkoutLogging None workout w
     = (Throw (Error "User must be logged in to start a workout"), w)
  /\ MessageBoard.handlePostMessage None board w = (Ok board, w).
Proof. repeat split. Qed.

(** C8 as stated fails: posting a message without a user raises nothing. *)
Lemma handlePostMessage_no_user_no_error :
  MessageBoard.handlePostMessage None
    (MessageBoard.mkState [] (code_units "hello") None) (worldOf emptyStore [] false)
  = (Ok (MessageBoard.mkState [] (code_units "hello") None),
     worldOf emptyStore [] false).
Proof. reflexivity. Qed.

(** ** logWorkout *)

Lemma new_ids_one (used : gset string) :
  exists id, new_ids 1 used = [id] /\ (id ∉ used) /\ (id ≠ EmptyString).
Proof.
  unfold new_ids. simpl. eexists. split; [done|].
  pose proof (is_fresh ({[EmptyString]} ∪ used)) as Hfresh.
  rewrite not_elem_of_union, not_elem_of_singleton in Hfresh.
  destruct Hfresh. by split.
Qed.

Lemma insertedScores_length uid wl logs :
  length (insertedScores uid wl logs) = length (flat_map ExerciseLog.sets logs).
Proof.
  induction logs as [|log logs IH]; [done|].
  unfold insertedScores in *. simpl.
  by rewrite !length_app, length_map, IH.
Qed.

Lemma insertedScores_workout_log_id uid wl logs :
  Forall (fun row => ScoreRow.workout_log_id row = wl) (insertedScores uid wl logs).
Proof.
  induction logs as [|log logs IH]; [constructor|].
  unfold insertedScores in *. simpl. apply Forall_app. split; [|done].
  apply Forall_forall. intros row (set & -> & _)%list_elem_of_fmap. done.
Qed.

Lemma logWorkout_Ok_inv u workout logs notes w r w' :
  logWorkout (Some u) workout logs notes w = (Ok r, w') ->
  let score := calculateTotalScore logs workout in
  let row := WorkoutLog.mk (User.id u) (Workout.id workout) notes score score (now w) in
  exists L,
    r = (L, row)
    /\ Store.workout_logs (store w) !! L = None
    /\ store w' =
       Store.mk (<[L := row]> (Store.workout_logs (store w)))
                (list_to_map
                   (zip (new_ids (length (insertedScores (User.id u) L logs))
                                 (dom (Store.exercise_scores (store w))))
                        (insertedScores (User.id u) L logs))
                   ∪ Store.exercise_scores (store w))
                (Store.messages (store w))
    /\ trace w' =
       trace w ++ [(InsertWorkoutLog row, None);
                   (InsertScores (insertedScores (User.id u) L logs), None)].
Proof.
  intros Hrun score row.
  unfold logWorkout, try_finally, catch_log in Hrun.
  match type of Hrun with
  | (let (_, _) := match ?body with _ => _ end in _) = _ =>
      destruct body as [[r0|e0] w0] eqn:Hbody; [|discriminate]
  end.
  injection Hrun as <- <-.
  apply bind_Ok in Hbody as (completed_at & w1 & Hnow & Hbody).
  injection Hnow as <- <-.
  apply bind_Ok in Hbody as (workoutLog & w1 & Hins & Hbody).
  apply await_or_throw_Ok in Hins as (s1 & Hins & ->).
  apply bind_Ok in Hbody as (? & w2 & Hscores & Hbody).
  injection Hbody as <- <-.
  apply await_or_throw_Ok in Hscores as (s2 & Hscores & ->).
  unfold store_insertWorkoutLog in Hins.
  destruct (new_ids_one (dom (Store.workout_logs (store w)))) as (L & HL & Hfresh & _).
  rewrite HL in Hins. injection Hins as <- <-.
  injection Hscores as <-. simpl.
  exists L. split_and!; try done.
  - by apply not_elem_of_dom.
  - by rewrite <- app_assoc.
Qed.

(** C6.  On success [logWorkout] adds exactly one row to [workout_logs],
    under a new identifier, with the computed score in both [score] and
    [total], the notes and the completion time, and adds to
    [exercise_scores] one row per LoggedSet of the logs, under new pairwise
    distinct identifiers, each referencing the new workout log.  When the
    [exercise_scores] insert fails after the [workout_logs] insert went
    through, the call fails with that error and the new [workout_logs] row
    stays. *)
Theorem logWorkout_persists u workout logs notes w :
  let score := calculateTotalScore logs workout in
  let row := WorkoutLog.mk (User.id u) (Workout.id workout) notes score score (now w) in
  (forall r w',
      logWorkout (Some u) workout logs notes w = (Ok r, w') ->
      exists L ids,
        r = (L, row)
        /\ Store.workout_logs (store w) !! L = None
        /\ Store.workout_logs (store w') = <[L := row]> (Store.workout_logs (store w))
        /\ length ids = length (flat_map ExerciseLog.sets logs)
        /\ NoDup ids
        /\ (forall j, j ∈ ids -> Store.exercise_scores (store w) !! j = None)
        /\ Store.exercise_scores (store w') =
           list_to_map (zip ids (insertedScores (User.id u) L logs))
             ∪ Store.exercise_scores (store w)
        /\ length (insertedScores (User.id u) L logs)
           = length (flat_map ExerciseLog.sets logs)
        /\ Forall (fun s => ScoreRow.workout_log_id s = L)
                  (insertedScores (User.id u) L logs))
  /\ (forall e rest,
         faults w = None :: Some e :: rest ->
         exists L w',
           logWorkout (Some u) workout logs notes w = (Throw (StoreError e), w')
           /\ Store.workout_logs (store w) !! L = None
           /\ Store.workout_logs (store w') = <[L := row]> (Store.workout_logs (store w))
           /\ Store.exercise_scores (store w') = Store.exercise_scores (store w)
           /\ logging w' = false).
Proof.
  intros score row. split.
  - intros r w' Hrun.
    apply logWorkout_Ok_inv in Hrun as (L & -> & HL & Hstore & _).
    exists L. eexists. rewrite Hstore. simpl.
    split_and!; try done.
    + unfold new_ids. rewrite length_fresh_list. apply insertedScores_length.
    + apply NoDup_fresh_list.
    + intros j Hj%fresh_list_is_fresh. apply not_elem_of_dom.
      rewrite not_elem_of_union in Hj. tauto.
    + apply insertedScores_length.
    + apply insertedScores_workout_log_id.
  - intros e rest Hfaults.
    destruct (new_ids_one (dom (Store.workout_logs (store w)))) as (L & HL & Hfresh & _).
    exists L. eexists. split.
    + unfold logWorkout, try_finally, catch_log, bind, toISOString_now,
        await_or_throw, await, recorded, store_insertWorkoutLog.
      rewrite Hfaults, HL. simpl. reflexivity.
    + simpl. split_and!; try done. by apply not_elem_of_dom.
Qed.

Lemma logWorkout_persists_witness :
  (exists r,
      sampleLogWorkout [] = (Ok r, (sampleLogWorkout []).2)
      /\ exists L, Store.workout_logs (store (sampleLogWorkout []).2)
                   = <[L := r.2]> (Store.workout_logs emptyStore))
  /\ (exists L w',
         sampleLogWorkout [None; Some (StoreFailure "500")]
         = (Throw (StoreError (StoreFailure "500")), w')
         /\ Store.workout_logs (store w')
            = <[L := WorkoutLog.mk "alice" "wk-1" "done" 1000 1000
                                   "2024-01-01T00:00:00.000Z"]>
                (Store.workout_logs emptyStore)).
Proof.
  split.
  - assert (Hrun : exists r, sampleLogWorkout [] = (Ok r, (sampleLogWorkout []).2)).
    { eexists. vm_compute. reflexivity. }
    destruct Hrun as [r Hrun]. exists r. split; [exact Hrun|].
    destruct (logWorkout_persists alice (sampleWorkout 3 (Some 100)) sampleLogs "done"
                (worldOf emptyStore [] true)) as [Hok _].
    destruct (Hok _ _ Hrun) as (L & ids & -> & _ & Hlogs & _).
    exists L. exact Hlogs.
  - destruct (logWorkout_persists alice (sampleWorkout 3 (Some 100)) sampleLogs "done"
                (worldOf emptyStore [None; Some (StoreFailure "500")] true))
      as [_ Hfail].
    destruct (Hfail (StoreFailure "500") [] eq_refl) as (L & w' & Hrun & _ & Hlogs & _).
    exists L, w'. split; [exact Hrun|exact Hlogs].
Defined.

(** ** Sorting *)

Section SortFacts.
Context {A : Type} (key : A -> Z).

Lemma sort_insert_Permutation (compare : A -> A -> Z) x l :
  sort_insert compare x l ≡ₚ x :: l.
Proof.
  induction l as [|y l IH]; simpl; [done|].
  case_match; [done|]. rewrite IH. apply Permutation_swap.
Qed.

Lemma sort_Permutation (compare : A -> A -> Z) l : sort compare l ≡ₚ l.
Proof.
  induction l as [|x l IH]; simpl; [done|].
  by rewrite sort_insert_Permutation, IH.
Qed.

Lemma sort_insert_sorted x l :
  StronglySorted (fun a b => key b <= key a) l ->
  StronglySorted (fun a b => key b <= key a)
                 (sort_insert (fun a b => key b - key a) x l).
Proof.
  induction 1 as [|y l Hl IH Hy]; simpl.
  - repeat constructor.
  - case_match eqn:Hcmp.
    + apply Z.leb_le in Hcmp. constructor; [by constructor|].
      constructor; [lia|].
      eapply Forall_impl; [exact Hy|]. simpl. intros z ?. lia.
    + apply Z.leb_gt in Hcmp. constructor; [done|].
      rewrite sort_insert_Permutation. constructor; [lia|done].
Qed.

Lemma sort_sorted l :
  StronglySorted (fun a b => key b <= key a) (sort (fun a b => key b - key a) l).
Proof.
  induction l as [|x l IH]; simpl; [constructor|].
  by apply sort_insert_sorted.
Qed.

Lemma StronglySorted_lookup_desc l i j a b :
  StronglySorted (fun a b => key b <= key a) l ->
  (i < j)%nat -> l !! i = Some a -> l !! j = Some b -> key b <= key a.
Proof.
  intros Hl. revert i j. induction Hl as [|x l Hl IH Hx]; intros i j Hij Hi Hj.
  - by rewrite lookup_nil in Hi.
  - destruct j as [|j]; [lia|]. destruct i as [|i]; simpl in *.
    + injection Hi as ->. eapply Forall_forall in Hx; [done|].
      by eapply list_elem_of_lookup_2.
    + eapply (IH i j); [lia|done..].
Qed.
End SortFacts.

(** ** ExerciseRecords: grouping *)

Import ExerciseRecords.

Lemma has_own_spec name (G : Groups) : has_own name G = true <-> name ∈ G.*1.
Proof.
  unfold has_own. induction G as [|[key g] G IH]; simpl.
  - split; [done|by intros ?%elem_of_nil].
  - rewrite orb_true_iff, IH, elem_of_cons.
    destruct (String.eqb_spec key name) as [->|Hne]; split; auto.
    + intros [?|?]; [done|by right].
    + intros [?|?]; [congruence|by right].
Qed.

Lemma push_fst name s (G : Groups) :
  (push name s G).*1 = if decide (name ∈ G.*1) then G.*1 else G.*1 ++ [name].
Proof.
  induction G as [|[key g] G IH].
  - rewrite decide_False; [done|apply not_elem_of_nil].
  - cbn [push]. destruct (String.eqb_spec key name) as [->|Hne]; rewrite !fmap_cons;
      cbn [fst].
    + rewrite decide_True; [done|left].
    + rewrite IH. destruct (decide (name ∈ G.*1)) as [Hin|Hin].
      * rewrite decide_True; [done|by right].
      * rewrite decide_False; [done|].
        intros [?|?]%elem_of_cons; congruence.
Qed.

Lemma elem_of_push name s (G : Groups) key g :
  NoDup G.*1 ->
  (key, g) ∈ push name s G ->
((key ≠ name) /\ (key, g) ∈ G)
  \/ (key = name
      /\ ((exists g0, (name, g0) ∈ G /\ g = g0 ++ [s])
          \/ ((name ∉ G.*1) /\ g = [s]))).
Proof.
  induction G as [|[key' g'] G IH]; simpl; intros Hnodup.
  - intros [= -> ->]%list_elem_of_singleton. right. split; [done|].
    right. split; [apply not_elem_of_nil|done].
  - apply NoDup_cons in Hnodup as [Hkey' Hnodup].
    destruct (String.eqb_spec key' name) as [->|Hne].
    + intros [[= -> ->]|Hin]%elem_of_cons.
      * right. split; [done|]. left. exists g'. split; [left|done].
      * destruct (decide (key = name)) as [->|Hk].
        -- destruct Hkey'. apply list_elem_of_fmap. by exists (name, g).
        -- left. split; [done|by right].
    + intros [[= -> ->]|Hin]%elem_of_cons.
      * left. split; [done|left].
      * destruct (IH Hnodup Hin) as [[? ?]|[-> [(g0 & ? & ->)|[Hnot ->]]]].
        -- left. split; [done|by right].
        -- right. split; [done|]. left. exists g0. split; [by right|done].
        -- right. split; [done|]. right. split; [|done].
           intros [?|?]%elem_of_cons; [congruence|by apply Hnot].
Qed.

Lemma groupOf_app name l1 l2 : groupOf name (l1 ++ l2) = groupOf name l1 ++ groupOf name l2.
Proof. apply filter_app. Qed.

Lemma groupOf_singleton name s :
  groupOf name [s] = if decide (resolvedName s = Some name) then [s] else [].
Proof. unfold groupOf. rewrite filter_cons, filter_nil. done. Qed.

Lemma groupOf_nil_intro name l :
  (forall s, s ∈ l -> resolvedName s ≠ Some name) -> groupOf name l = [].
Proof.
  intros Hl. induction l as [|x l IH]; [done|].
  unfold groupOf in *. rewrite filter_cons_False.
  - apply IH. intros s Hs. apply Hl. by right.
  - apply Hl. left.
Qed.

Lemma groups_reflect_skip G processed s :
  resolvedName s = None ->
  groups_reflect G processed -> groups_reflect G (processed ++ [s]).
Proof.
  intros Hs (Hnodup & Hgroups & Hkeys). split_and!; [done| |].
  - intros name g Hin. destruct (Hgroups _ _ Hin) as [-> Hne]. split; [|done].
    rewrite groupOf_app, groupOf_singleton, decide_False, app_nil_r; [done|congruence].
  - intros s' name [Hin| ->%list_elem_of_singleton]%elem_of_app Hname;
      [by eapply Hkeys|congruence].
Qed.

Lemma groups_reflect_push G processed s name :
  resolvedName s = Some name ->
  groups_reflect G processed -> groups_reflect (push name s G) (processed ++ [s]).
Proof.
  intros Hs (Hnodup & Hgroups & Hkeys). split_and!.
  - rewrite push_fst. case_decide as Hin; [done|].
    apply NoDup_app. split_and!; [done| |apply NoDup_singleton].
    by intros x Hx ->%list_elem_of_singleton.
  - intros key g Hin. rewrite groupOf_app, groupOf_singleton.
    apply (elem_of_push _ _ _ _ _ Hnodup) in Hin
      as [[Hne Hin]|[-> [(g0 & Hin & ->)|[Hnot ->]]]].
    + destruct (Hgroups _ _ Hin) as [-> Hnil]. split; [|done].
      rewrite decide_False, app_nil_r; [done|congruence].
    + destruct (Hgroups _ _ Hin) as [-> Hnil]. rewrite decide_True by done.
      split; [done|]. by intros [? _]%app_eq_nil.
    + rewrite decide_True by done. split; [|done].
      rewrite groupOf_nil_intro; [done|].
      intros s' Hs' Hname. apply Hnot. eauto.
  - intros s' key Hin Hname. rewrite push_fst.
    apply elem_of_app in Hin as [Hin| ->%list_elem_of_singleton].
    + case_decide; [eauto|]. apply elem_of_app. left. eauto.
    + assert (key = name) as -> by congruence.
      case_decide; [done|]. apply elem_of_app. right. left.
Qed.

Lemma groupStep_Ok G s G' :
  groupStep G s = Ok G' ->
  (resolvedName s = None /\ G' = G)
  \/ (exists name, resolvedName s = Some name /\ G' = push name s G).
Proof.
  unfold groupStep, resolvedName.
  destruct (Enhanced.exercise s) as [exercise|]; [|intros [= <-]; by left].
  destruct (String.eqb (Exercise.name exercise) EmptyString); [intros [= <-]; by left|].
  case_match; [discriminate|]. intros [= <-]. right. eauto.
Qed.

Lemma groupStep_Throw G s e :
  groupStep G s = Throw e ->
  exists name, resolvedName s = Some name /\ name ∈ object_prototype_keys.
Proof.
  unfold groupStep, resolvedName.
  destruct (Enhanced.exercise s) as [exercise|]; [|discriminate].
  destruct (String.eqb (Exercise.name exercise) EmptyString); [discriminate|].
  case_match eqn:Hcond; [|discriminate]. intros _.
  apply andb_true_iff in Hcond as [_ Hkey%bool_decide_eq_true].
  eauto.
Qed.

Lemma groupFrom_reflect es G processed G' :
  groupFrom G es = Ok G' ->
  groups_reflect G processed -> groups_reflect G' (processed ++ es).
Proof.
  revert G processed. induction es as [|s es IH]; intros G processed; simpl.
  - intros [= <-]. by rewrite app_nil_r.
  - destruct (groupStep G s) as [G1|e] eqn:Hstep; [|discriminate].
    intros Hrest Hinv. change (s :: es) with ([s] ++ es). rewrite app_assoc.
    apply (IH _ _ Hrest).
    apply groupStep_Ok in Hstep as [[Hs ->]|(name & Hs & ->)].
    + by apply groups_reflect_skip.
    + by apply groups_reflect_push.
Qed.

Lemma groupFrom_Throw es G e :
  groupFrom G es = Throw e ->
  exists s name, s ∈ es /\ resolvedName s = Some name /\ name ∈ object_prototype_keys.
Proof.
  revert G. induction es as [|s es IH]; intros G; simpl; [discriminate|].
  destruct (groupStep G s) as [G1|e'] eqn:Hstep.
  - intros (s' & name & ? & ? & ?)%IH. exists s', name. split_and!; [by right|done..].
  - intros _. apply groupStep_Throw in Hstep as (name & ? & ?).
    exists s, name. split_and!; [left|done..].
Qed.

Lemma exerciseGroups_reflect es G :
  exerciseGroups es = Ok G -> groups_reflect G es.
Proof.
  intros HG. apply (groupFrom_reflect es [] [] G HG).
  split_and!; [constructor| |]; intros ? ? []%elem_of_nil.
Qed.

(** ** ExerciseRecords: enumeration order and best scores *)

Lemma indexed_snd (G : Groups) :
  (indexed G).*2 = filter (fun kv => is_Some (array_index kv.1)) G.
Proof.
  unfold indexed. induction G as [|[key g] G IH]; [done|].
  destruct (array_index key) as [n|] eqn:Hkey.
  - rewrite filter_cons_True by (simpl; rewrite Hkey; eauto).
    simpl. rewrite Hkey. simpl. by rewrite <- IH.
  - rewrite filter_cons_False by (simpl; rewrite Hkey; by intros [? ?]).
    simpl. rewrite Hkey. simpl. by rewrite <- IH.
Qed.

Lemma Object_entries_Permutation (G : Groups) : Object_entries G ≡ₚ G.
Proof.
  unfold Object_entries. rewrite sort_Permutation, indexed_snd.
  rewrite (list_filter_iff (fun kv => array_index kv.1 = None)
                           (fun kv => ~ is_Some (array_index kv.1))).
  - apply filter_app_complement.
  - intros [key g]. simpl. apply eq_None_not_Some.
Qed.

Lemma better_fold f l b :
  let r := fold_left (better f) l b in
  or0 (f b) <= or0 (f r)
  /\ (forall s, s ∈ l -> or0 (f s) <= or0 (f r))
  /\ ((r = b /\ forall s, s ∈ l -> or0 (f s) <= or0 (f b))
      \/ (exists k,
             l !! k = Some r
             /\ or0 (f b) < or0 (f r)
             /\ forall k' s, (k' < k)%nat -> l !! k' = Some s -> or0 (f s) < or0 (f r))).
Proof.
  revert b. induction l as [|x l IH]; intros b; simpl.
  - split_and!; [lia|by intros ? ?%elem_of_nil|].
    left. split; [done|by intros ? ?%elem_of_nil].
  - destruct (IH (better f b x)) as (Hb & Hl & Hpos). clear IH.
    set (r := fold_left (better f) l (better f b x)) in *.
    assert (Hbb : or0 (f b) <= or0 (f (better f b x))
                  /\ or0 (f x) <= or0 (f (better f b x))).
    { unfold better. destruct (Z.ltb_spec (or0 (f b)) (or0 (f x))); lia. }
    split_and!; [lia| |].
    + intros s [->|Hs]%elem_of_cons; [lia|by apply Hl].
    + destruct Hpos as [[Hr Hle]|(k & Hk & Hlt & Hbefore)].
      * unfold better in Hr, Hle.
        destruct (Z.ltb_spec (or0 (f b)) (or0 (f x))) as [Hlt|Hge].
        -- right. exists 0%nat. rewrite Hr. split_and!; [done..|]. intros; lia.
        -- left. split; [done|].
           intros s [->|Hs]%elem_of_cons; [lia|by apply Hle].
      * right. exists (S k). split_and!; [done|lia|].
        intros [|k'] s Hk'; simpl.
        -- intros [= <-]. lia.
        -- apply Hbefore. lia.
Qed.

Lemma better_fold_first f g first rest :
  g = first :: rest ->
  exists k,
    g !! k = Some (fold_left (better f) g first)
    /\ (forall s, s ∈ g -> or0 (f s) <= or0 (f (fold_left (better f) g first)))
    /\ (forall k' s,
           (k' < k)%nat -> g !! k' = Some s ->
           or0 (f s) < or0 (f (fold_left (better f) g first))).
Proof.
  intros Hg. destruct (better_fold f g first) as (_ & Hall & [[Hr Hle]|(k & ? & _ & ?)]).
  - exists 0%nat. rewrite Hr, Hg. split_and!; [done| |intros; lia].
    rewrite <- Hg, <- Hr. done.
  - exists k. by split_and!.
Qed.

Lemma bestScore_spec name g :
  g ≠ [] ->
  exists r k,
    bestScore name g = Some r
    /\ g !! k = Some r
    /\ (forall s, s ∈ g -> measure name s <= measure name r)
    /\ (forall k' s, (k' < k)%nat -> g !! k' = Some s -> measure name s < measure name r).
Proof.
  destruct g as [|first rest] eqn:Hg; [done|]. intros _.
  unfold bestScore. rewrite <- Hg.
  destruct (String.eqb_spec name "Run") as [HRun|HRun].
  { assert (Hm : forall s, measure name s
                           = or0 (ExerciseScore.distance (Enhanced.score s))).
    { intros s. unfold measure. by rewrite decide_True. }
    destruct (better_fold_first
                (fun s => ExerciseScore.distance (Enhanced.score s)) g first rest Hg)
      as (k & ? & ? & ?).
    eexists _, k. split_and!; [done..| |]; intros; rewrite !Hm; eauto. }
  destruct (String.eqb_spec name "Assault Bike") as [HBike|HBike].
  { assert (Hm : forall s, measure name s
                           = or0 (ExerciseScore.calories (Enhanced.score s))).
    { intros s. unfold measure. by rewrite decide_False, decide_True. }
    destruct (better_fold_first
                (fun s => ExerciseScore.calories (Enhanced.score s)) g first rest Hg)
      as (k & ? & ? & ?).
    eexists _, k. split_and!; [done..| |]; intros; rewrite !Hm; eauto. }
  assert (Hm : forall s, measure name s
                         = or0 (ExerciseScore.weight (Enhanced.score s))).
  { intros s. unfold measure. by rewrite !decide_False. }
  destruct (better_fold_first
              (fun s => ExerciseScore.weight (Enhanced.score s)) g first rest Hg)
    as (k & ? & ? & ?).
  eexists _, k. split_and!; [done..| |]; intros; rewrite !Hm; eauto.
Qed.

(** The best scores of groups that reflect the enhanced scores. *)
Lemma bestScores_of_entries (entries : Groups) es :
  (forall name g, (name, g) ∈ entries -> g = groupOf name es /\ g ≠ []) ->
  resolvedName <$> omap (fun kv => bestScore kv.1 kv.2) entries = Some <$> entries.*1
  /\ (forall r, r ∈ omap (fun kv => bestScore kv.1 kv.2) entries ->
                exists name, resolvedName r = Some name /\ bestOfGroup name es r).
Proof.
  induction entries as [|[name g] entries IH]; intros Hentries.
  - split; [done|]. by intros r ?%elem_of_nil.
  - destruct IH as [IHnames IHbest].
    { intros name' g' Hin. apply Hentries. by right. }
    destruct (Hentries name g) as [Hg Hne]; [left|].
    destruct (bestScore_spec name g Hne) as (r & k & Hbest & Hk & Hmax & Hfirst).
    assert (Hname : resolvedName r = Some name).
    { apply list_elem_of_lookup_2 in Hk. rewrite Hg in Hk.
      unfold groupOf in Hk. by apply list_elem_of_filter in Hk as [? _]. }
    simpl. rewrite Hbest. simpl. split.
    + rewrite Hname. f_equal. exact IHnames.
    + intros r' [->|Hr']%elem_of_cons; [|by apply IHbest].
      exists name. split; [done|]. exists k. rewrite <- Hg. by split_and!.
Qed.

Lemma bestScores_spec (G : list (string * list Enhanced.t)) es :
  groups_reflect G es ->
  NoDup (resolvedName <$> bestScores G)
  /\ (forall r, r ∈ bestScores G ->
                exists name, resolvedName r = Some name /\ bestOfGroup name es r)
  /\ (forall s name,
         s ∈ es -> resolvedName s = Some name ->
         exists r, r ∈ bestScores G /\ resolvedName r = Some name).
Proof.
  intros (Hnodup & Hgroups & Hkeys). unfold bestScores.
  pose proof (Object_entries_Permutation G) as Hperm.
  destruct (bestScores_of_entries (Object_entries G) es) as [Hnames Hbest].
  { intros name g Hin. apply Hgroups. by rewrite <- Hperm. }
  split_and!; [|done|].
  - rewrite Hnames. apply (NoDup_fmap_2 Some). by rewrite Hperm.
  - intros s name Hs Hname.
    assert (Hin : Some name ∈ resolvedName <$> omap (fun kv => bestScore kv.1 kv.2)
                                                    (Object_entries G)).
    { rewrite Hnames. apply list_elem_of_fmap_2. rewrite Hperm. by eapply Hkeys. }
    apply list_elem_of_fmap in Hin as (r & ? & ?). eauto.
Qed.

Section TopRecords.
Variable getTime : string -> Z.

Lemma sort_compareDates_newestFirst l : newestFirst getTime (sort (compareDates getTime) l).
Proof.
  intros i j a b Hij Hi Hj.
  eapply (StronglySorted_lookup_desc (fun r => getTime (Enhanced.date r)));
    [apply sort_sorted|done..].
Qed.

Lemma newestFirst_take n l : newestFirst getTime l -> newestFirst getTime (take n l).
Proof.
  intros Hl i j a b Hij [Hi _]%lookup_take_Some [Hj _]%lookup_take_Some. eauto.
Qed.

Lemma topRecords_spec bests :
  NoDup (resolvedName <$> bests) ->
  (length (topRecords getTime bests) <= 5)%nat
  /\ newestFirst getTime (topRecords getTime bests)
  /\ NoDup (resolvedName <$> topRecords getTime bests)
  /\ (forall r, r ∈ topRecords getTime bests -> r ∈ bests).
Proof.
  intros Hnodup. unfold topRecords. split_and!.
  - rewrite length_take. lia.
  - apply newestFirst_take, sort_compareDates_newestFirst.
  - rewrite fmap_take. eapply sublist_NoDup; [|apply sublist_take].
    by rewrite sort_Permutation.
  - intros r (i & Hi & _)%elem_of_take.
    apply list_elem_of_lookup_2 in Hi. by rewrite sort_Permutation in Hi.
Qed.

(** The selection in general.  The records shown are at most five, ordered
    by date newest first, with pairwise distinct exercise names; each one
    resolves to a non-empty exercise name and is, within the group of the
    scores sharing that name, the record that maximizes distance for "Run",
    calories for "Assault Bike" and weight otherwise (absent counting as
    0), the earliest in fetch order on ties.  When the selection completes,
    the records shown are the first five of a newest-first list that holds
    one such record for every resolved name; it fails only on a name that
    collides with a property of [Object.prototype], and then nothing is
    shown. *)
Theorem records_are_group_bests scores exercises workoutInfo :
  let enhanced := map (enhance exercises workoutInfo) scores in
  let shown := records getTime scores exercises workoutInfo in
  (length shown <= 5)%nat
  /\ newestFirst getTime shown
  /\ NoDup (resolvedName <$> shown)
  /\ (forall r, r ∈ shown ->
                exists name, resolvedName r = Some name /\ bestOfGroup name enhanced r)
  /\ match selectRecords getTime scores exercises workoutInfo with
     | Ok _ =>
         exists bests,
           shown = take 5 bests
           /\ newestFirst getTime bests
           /\ NoDup (resolvedName <$> bests)
           /\ (forall r, r ∈ bests ->
                         exists name, resolvedName r = Some name
                                      /\ bestOfGroup name enhanced r)
           /\ (forall s name,
                  s ∈ enhanced -> resolvedName s = Some name ->
                  exists r, r ∈ bests /\ resolvedName r = Some name)
     | Throw _ =>
         shown = []
         /\ exists s name,
             s ∈ enhanced /\ resolvedName s = Some name
             /\ name ∈ object_prototype_keys
     end.
Proof.
  intros enhanced shown. unfold shown, records, selectRecords. fold enhanced.
  destruct scores as [|score scores'] eqn:Hscores.
  { simpl. split_and!; [lia|by intros i j a b _ ?|apply NoDup_nil_2|
                         by intros r ?%elem_of_nil|].
    exists []. split_and!; [done|by intros i j a b _ ?|apply NoDup_nil_2|
                            by intros r ?%elem_of_nil|by intros s name ?%elem_of_nil]. }
  clear Hscores.
  destruct (exerciseGroups enhanced) as [G|e] eqn:HG.
  - apply exerciseGroups_reflect, bestScores_spec in HG as (Hnodup & Hbest & Hall).
    destruct (topRecords_spec (bestScores G) Hnodup) as (Hlen & Hsorted & Hnd & Hin).
    split_and!; [done..|by intros r ?%Hin%Hbest|].
    exists (sort (compareDates getTime) (bestScores G)). split_and!.
    + done.
    + apply sort_compareDates_newestFirst.
    + by rewrite sort_Permutation.
    + intros r Hr. rewrite sort_Permutation in Hr. by apply Hbest.
    + intros s name Hs Hname. destruct (Hall s name Hs Hname) as (r & ? & ?).
      exists r. by rewrite sort_Permutation.
  - split_and!; [simpl; lia|by intros i j a b _ ?|apply NoDup_nil_2|
                 by intros r ?%elem_of_nil|done|by eapply groupFrom_Throw].
Qed.
End TopRecords.

(** C10.  The code at a failing input.  The catalogue holds an exercise
    named "constructor" and one score refers to it.  Both scores resolve
    to an exercise name, so the claim has a "Run" record and a
    "constructor" record displayed; but [exerciseGroups["constructor"]] is
    the function every object inherits, no array is created for the name,
    and [push] throws a [TypeError]: the effect ends in its error state and
    no record is displayed, the "Run" record included. *)
Theorem records_prototype_name_nothing_shown :
  let exercises := Some [Exercise.mk "run" "Run"; Exercise.mk "ctor" "constructor"] in
  let s1 := sampleScore "s1" "run" None (Some 400) "20240305" in
  let s2 := sampleScore "s2" "ctor" (Some 100) None "20240304" in
  resolvedName (enhance exercises ∅ s1) = Some "Run"%string
  /\ resolvedName (enhance exercises ∅ s2) = Some "constructor"%string
  /\ selectRecords sampleGetTime [s1; s2] exercises ∅
     = Throw (TypeError "exerciseGroups[exerciseName].push is not a function")
  /\ records sampleGetTime [s1; s2] exercises ∅ = []
  /\ (RecordsView.fetchExerciseRecords sampleGetTime
        (RecordsView.mkBackend (inr (Some [s1; s2])) (fun _ => inr exercises)
                               (fun _ => inr None))
        (RecordsView.mkState [] true None)).1
     = RecordsView.mkState [] false
         (Some "Failed to load exercise records. Please try again later.").
Proof. vm_compute. repeat split. Qed.

(** On the sample scores the "Run" record is the earlier of the two 600 m
    runs, the "Bench Press" record follows it by date, and the score whose
    exercise is unknown is left out. *)
Example sampleRecords :
  ExerciseScore.id ∘ Enhanced.score
    <$> records sampleGetTime sampleScores (Some sampleExercises) ∅
  = ["s2"; "s3"]%string.
Proof. vm_compute. reflexivity. Qed.

(** * Further properties *)

(** ** Scores: bounds, composition, sign *)

Lemma Zsum_nonneg l : Forall (fun x => 0 <= x) l -> 0 <= Zsum l.
Proof. induction 1 as [|x l Hx _ IH]; simpl; lia. Qed.

Lemma calculateTotalScore_imap logs workout :
  calculateTotalScore logs workout = Zsum (imap (contribution workout) logs).
Proof. unfold calculateTotalScore, reduce. by rewrite reduce_from_scoreStep. Qed.

Lemma contribution_out_of_range workout index log :
  (length (default [] (Workout.workout_exercises workout)) <= index)%nat ->
  contribution workout index log = 0.
Proof.
  intros Hlen. unfold contribution.
  destruct (Workout.workout_exercises workout) as [exercises|]; simpl in *; [|done].
  by rewrite lookup_ge_None_2.
Qed.

Lemma Zsum_imap_take (f : nat -> ExerciseLog.t -> Z) n logs :
  (forall k log, (n <= k)%nat -> f k log = 0) ->
  Zsum (imap f logs) = Zsum (imap f (take n logs)).
Proof.
  revert f n. induction logs as [|log logs IH]; intros f n Hf.
  - by rewrite take_nil.
  - destruct n as [|n]; simpl.
    + rewrite Hf by lia. rewrite (IH _ 0%nat); [by rewrite take_0|].
      intros k log' _. simpl. apply Hf. lia.
    + f_equal. apply IH. intros k log' Hk. simpl. apply Hf. lia.
Qed.

(** X1.  Logs beyond the end of the workout's exercise sequence count for
    nothing: the score is that of the logs cut to the length of the
    sequence, and it is 0 for a workout without a sequence. *)
Theorem calculateTotalScore_ignores_extra_logs logs workout :
  calculateTotalScore logs workout =
  calculateTotalScore
    (take (length (default [] (Workout.workout_exercises workout))) logs) workout
  /\ (Workout.workout_exercises workout = None -> calculateTotalScore logs workout = 0).
Proof.
  split.
  - rewrite !calculateTotalScore_imap. apply Zsum_imap_take.
    intros k log Hk. by apply contribution_out_of_range.
  - intros Hnone. rewrite calculateTotalScore_imap.
    rewrite (Zsum_imap_take _ 0%nat); [by rewrite take_0|].
    intros k log _. apply contribution_out_of_range. rewrite Hnone. simpl. lia.
Qed.

Lemma calculateTotalScore_ignores_extra_logs_witness :
  Workout.workout_exercises (Workout.mk "wk-0" "cardio" None) = None
  /\ calculateTotalScore sampleLogs (Workout.mk "wk-0" "cardio" None) = 0.
Proof.
  split; [reflexivity|].
  exact (proj2 (calculateTotalScore_ignores_extra_logs
                  sampleLogs (Workout.mk "wk-0" "cardio" None)) eq_refl).
Defined.

Lemma contribution_nonneg workout index log :
  Forall nonNegativeSet (ExerciseLog.sets log) -> 0 <= contribution workout index log.
Proof.
  intros Hsets. unfold contribution.
  destruct (_ ≫= _) as [exercise|]; [|lia]. cbv zeta.
  repeat case_decide; apply Zsum_nonneg, Forall_fmap;
    (eapply Forall_impl; [exact Hsets|]); intros set (? & ? & ? & ?); simpl; nia.
Qed.

(** X3.  When every weight, rep count, distance and calorie figure logged
    is non-negative, the score is non-negative. *)
Theorem calculateTotalScore_nonneg logs workout :
  Forall (fun log => Forall nonNegativeSet (ExerciseLog.sets log)) logs ->
  0 <= calculateTotalScore logs workout.
Proof.
  intros Hlogs. rewrite calculateTotalScore_imap.
  apply Zsum_nonneg, Forall_forall. intros x Hx.
  apply list_elem_of_lookup in Hx as [k Hk].
  apply list_lookup_imap_Some in Hk as (log & Hlog & ->).
  apply contribution_nonneg. eapply Forall_forall in Hlogs; [done|].
  by eapply list_elem_of_lookup_2.
Qed.

Lemma calculateTotalScore_nonneg_witness :
  Forall (fun log => Forall nonNegativeSet (ExerciseLog.sets log)) sampleLogs
  /\ 0 <= calculateTotalScore sampleLogs (sampleWorkout 3 (Some 100)).
Proof.
  assert (H : Forall (fun log => Forall nonNegativeSet (ExerciseLog.sets log)) sampleLogs).
  { repeat constructor; vm_compute; discriminate. }
  split; [exact H|].
  exact (calculateTotalScore_nonneg sampleLogs (sampleWorkout 3 (Some 100)) H).
Defined.

(** ** startWorkoutLogging: set counts the runtime refuses *)

Lemma initialLog_cases capacity exercise :
  (valid_array_length (WorkoutExercise.sets exercise) = true
   /\ initialLog capacity exercise
      = Ok (ExerciseLog.mk (WorkoutExercise.exercise_id exercise)
                           (replicate (Z.to_nat (WorkoutExercise.sets exercise))
                                      (initialSet exercise))))
  \/ initialLog capacity exercise = Throw (RangeError "Invalid array length").
Proof.
  unfold initialLog, Array_fill.
  destruct (valid_array_length (WorkoutExercise.sets exercise)); [|by right].
  destruct (WorkoutExercise.sets exercise <=? capacity); [by left|by right].
Qed.

Lemma initialLogs_invalid capacity exercises :
  Exists (fun e => valid_array_length (WorkoutExercise.sets e) = false) exercises ->
  map_throw (initialLog capacity) exercises = Throw (RangeError "Invalid array length").
Proof.
  induction exercises as [|x l IH]; intros Hex; [by apply Exists_nil in Hex|].
  simpl. destruct (initialLog_cases capacity x) as [[Hvalid ->]| ->]; [|done].
  rewrite IH; [done|].
  apply Exists_cons in Hex as [Hx|Hl]; [congruence|done].
Qed.

(** X5.  When some entry's set count is not a valid array length,
    [startWorkoutLogging] fails with the [RangeError] after it has raised
    the logging flag: the flag is left set and nothing else changes. *)
Theorem startWorkoutLogging_invalid_count_leaves_logging user workout exercises w :
  Workout.workout_exercises workout = Some exercises ->
  Exists (fun e => valid_array_length (WorkoutExercise.sets e) = false) exercises ->
  startWorkoutLogging (Some user) workout w
  = (Throw (RangeError "Invalid array length"), setLogging true w).
Proof.
  intros Hex Hinvalid. unfold startWorkoutLogging, initialLogs.
  by rewrite Hex, (initialLogs_invalid _ _ Hinvalid).
Qed.

Lemma startWorkoutLogging_invalid_count_leaves_logging_witness :
  Exists (fun e => valid_array_length (WorkoutExercise.sets e) = false)
         [benchPress 2 None; benchPress (-3) None]
  /\ logging (startWorkoutLogging (Some alice)
                 (Workout.mk "wk-1" "weight training"
                             (Some [benchPress 2 None; benchPress (-3) None]))
                 (worldOf emptyStore [] false)).2 = true.
Proof.
  assert (H : Exists (fun e => valid_array_length (WorkoutExercise.sets e) = false)
                     [benchPress 2 None; benchPress (-3) None]).
  { apply Exists_cons_tl, Exists_cons_hd. reflexivity. }
  split; [exact H|].
  rewrite (startWorkoutLogging_invalid_count_leaves_logging alice
             (Workout.mk "wk-1" "weight training"
                         (Some [benchPress 2 None; benchPress (-3) None]))
             _ (worldOf emptyStore [] false) eq_refl H).
  reflexivity.
Defined.

(** ** Store calls that fail, and what a failed call leaves behind *)

Lemma bind_Throw {A B : Type} (m : M A) (k : A -> M B) w e w' :
  bind m k w = (Throw e, w') ->
  m w = (Throw e, w')
  \/ exists a w1, m w = (Ok a, w1) /\ k a w1 = (Throw e, w').
Proof.
  unfold bind. destruct (m w) as [[a|e'] w1]; [eauto|].
  intros [= <- <-]. by left.
Qed.

Lemma await_or_throw_Throw {A : Type} c (op : Store.t -> StoreErr + (A * Store.t)) w err w' :
  await_or_throw c op w = (Throw err, w') ->
  exists e, err = StoreError e /\ w' = recorded c (Some e) (store w) w.
Proof.
  unfold await_or_throw, await.
  destruct (faults w) as [|[e|] rest]; [| |];
    try destruct (op (store w)) as [e'|[a s']]; intros [= <- <-]; eauto.
Qed.

Lemma await_or_throw_fault {A : Type} c (op : Store.t -> StoreErr + (A * Store.t)) w e rest :
  faults w = Some e :: rest ->
  await_or_throw c op w = (Throw (StoreError e), recorded c (Some e) (store w) w).
Proof. unfold await_or_throw, await. by intros ->. Qed.

Lemma await_or_throw_pass {A : Type} c (op : Store.t -> StoreErr + (A * Store.t)) w a s' rest :
  faults w = None :: rest ->
  op (store w) = inr (a, s') ->
  await_or_throw c op w = (Ok a, recorded c None s' w).
Proof. unfold await_or_throw, await. by intros -> ->. Qed.

Lemma await_or_throw_refused {A : Type} c (op : Store.t -> StoreErr + (A * Store.t)) w e :
  op (store w) = inl e ->
  exists e', await_or_throw c op w
             = (Throw (StoreError e'), recorded c (Some e') (store w) w).
Proof.
  unfold await_or_throw, await. intros ->.
  destruct (faults w) as [|[e'|] rest]; eauto.
Qed.

Lemma catch_finally_Throw {A : Type} label (body : M A) w e w' :
  try_finally (catch_log label body) (setLogging false) w = (Throw e, w') ->
  exists w0, body w = (Throw e, w0)
             /\ store w' = store w0 /\ trace w' = trace w0 /\ logging w' = false.
Proof.
  unfold try_finally, catch_log.
  destruct (body w) as [[a|e0] w0]; intros [= <- <-]; eauto.
Qed.

(** X6.  A failed [logWorkout] leaves no [exercise_scores] row behind: the
    table is as before, and [workout_logs] is either as before (the first
    insert failed) or holds the one new row (the second insert failed). *)
Theorem logWorkout_failure_leaves_scores u workout logs notes w err w' :
  logWorkout (Some u) workout logs notes w = (Throw err, w') ->
  Store.exercise_scores (store w') = Store.exercise_scores (store w)
  /\ Store.messages (store w') = Store.messages (store w)
  /\ logging w' = false
  /\ (Store.workout_logs (store w') = Store.workout_logs (store w)
      \/ exists L,
          Store.workout_logs (store w) !! L = None
          /\ Store.workout_logs (store w') =
             <[L := WorkoutLog.mk (User.id u) (Workout.id workout) notes
                                  (calculateTotalScore logs workout)
                                  (calculateTotalScore logs workout) (now w)]>
               (Store.workout_logs (store w))).
Proof.
  intros Hrun. unfold logWorkout in Hrun.
  apply catch_finally_Throw in Hrun as (w0 & Hbody & -> & _ & Hlog).
  apply bind_Throw in Hbody as [Hnow|(completed_at & w1 & Hnow & Hbody)];
    [discriminate|].
  injection Hnow as <- <-.
  apply bind_Throw in Hbody as [Hins|(workoutLog & w1 & Hins & Hbody)].
  { apply await_or_throw_Throw in Hins as (e & -> & ->). simpl. auto. }
  apply await_or_throw_Ok in Hins as (s1 & Hins & ->).
  unfold store_insertWorkoutLog in Hins.
  destruct (new_ids_one (dom (Store.workout_logs (store w)))) as (L & HL & Hfresh & _).
  rewrite HL in Hins. injection Hins as <- <-.
  apply bind_Throw in Hbody as [Hscores|(? & w2 & _ & Hret)]; [|discriminate].
  apply await_or_throw_Throw in Hscores as (e & -> & ->). simpl.
  split_and!; try done. right. exists L. split; [by apply not_elem_of_dom|done].
Qed.

Lemma logWorkout_failure_leaves_scores_witness :
  exists w',
    sampleLogWorkout [None; Some (StoreFailure "500")]
    = (Throw (StoreError (StoreFailure "500")), w')
    /\ Store.exercise_scores (store w') = ∅.
Proof.
  eexists. split; [vm_compute; reflexivity|].
  exact (proj1 (logWorkout_failure_leaves_scores alice (sampleWorkout 3 (Some 100))
                  sampleLogs "done" (worldOf emptyStore [None; Some (StoreFailure "500")] true)
                  _ _ eq_refl)).
Defined.

Lemma size_union_fresh_batch (ids : list string) (rows : list ScoreRow.t)
    (scores : gmap string ScoreRow.t) :
  length ids = length rows ->
  NoDup ids ->
  (forall j, j ∈ ids -> scores !! j = None) ->
  size (list_to_map (zip ids rows) ∪ scores) = (size scores + length rows)%nat
  /\ forall i row, scores !! i = Some row ->
                   (list_to_map (zip ids rows) ∪ scores) !! i = Some row.
Proof.
  intros Hlen Hnodup Hfresh.
  assert (Hfst : (zip ids rows).*1 = ids) by (apply fst_zip; lia).
  split.
  - rewrite map_size_disj_union.
    + rewrite map_size_list_to_map by (by rewrite Hfst).
      rewrite length_zip. lia.
    + apply map_disjoint_spec. intros i x y Hx Hy.
      apply elem_of_list_to_map_2 in Hx.
      assert (i ∈ ids).
      { rewrite <- Hfst. apply list_elem_of_fmap. by exists (i, x). }
      rewrite Hfresh in Hy by done. discriminate.
  - intros i row Hrow. rewrite lookup_union_r; [done|].
    apply not_elem_of_list_to_map. rewrite Hfst. intros Hin.
    rewrite Hfresh in Hrow by done. discriminate.
Qed.

(** X7.  A successful [logWorkout] only adds rows: every row stored before
    is still stored unchanged, whatever identifiers the logged sets carry;
    [workout_logs] has one row more and [exercise_scores] one more per
    logged set, so logging the same sets again stores them again. *)
Theorem logWorkout_only_adds u workout logs notes w r w' :
  logWorkout (Some u) workout logs notes w = (Ok r, w') ->
  (forall i row,
      Store.exercise_scores (store w) !! i = Some row ->
      Store.exercise_scores (store w') !! i = Some row)
  /\ (forall l row,
         Store.workout_logs (store w) !! l = Some row ->
         Store.workout_logs (store w') !! l = Some row)
  /\ size (Store.exercise_scores (store w'))
     = (size (Store.exercise_scores (store w))
        + length (flat_map ExerciseLog.sets logs))%nat
  /\ size (Store.workout_logs (store w')) = S (size (Store.workout_logs (store w)))
  /\ Store.messages (store w') = Store.messages (store w).
Proof.
  intros Hrun. apply logWorkout_Ok_inv in Hrun as (L & -> & HL & Hstore & _).
  rewrite Hstore. simpl.
  destruct (size_union_fresh_batch
              (new_ids (length (insertedScores (User.id u) L logs))
                       (dom (Store.exercise_scores (store w))))
              (insertedScores (User.id u) L logs)
              (Store.exercise_scores (store w))) as [Hsize Hkeep].
  { apply length_fresh_list. }
  { apply NoDup_fresh_list. }
  { intros j Hj%fresh_list_is_fresh. apply not_elem_of_dom.
    rewrite not_elem_of_union in Hj. tauto. }
  split_and!; try done.
  - intros l row Hrow. rewrite lookup_insert_ne; [done|]. congruence.
  - by rewrite Hsize, insertedScores_length.
  - by apply map_size_insert_None.
Qed.

Lemma logWorkout_only_adds_witness :
  exists r,
    sampleLogWorkout [] = (Ok r, (sampleLogWorkout []).2)
    /\ size (Store.exercise_scores (store (sampleLogWorkout []).2)) = 3%nat.
Proof.
  assert (Hrun : exists r, sampleLogWorkout [] = (Ok r, (sampleLogWorkout []).2)).
  { eexists. vm_compute. reflexivity. }
  destruct Hrun as [r Hrun]. exists r. split; [exact Hrun|].
  destruct (logWorkout_only_adds _ _ _ _ _ _ _ Hrun) as (_ & _ & Hsize & _).
  exact Hsize.
Defined.

(** ** updateWorkoutLog: refusals, failures and what is left untouched *)

(** X8.  When the workout log does not exist or belongs to another user,
    [updateWorkoutLog] fails at its first store call: the store is
    unchanged and no select, delete or upsert is issued. *)
Theorem updateWorkoutLog_foreign_log_refused u workoutLogId workout logs notes w :
  (forall old, Store.workout_logs (store w) !! workoutLogId = Some old ->
               WorkoutLog.user_id old ≠ User.id u) ->
  exists e,
    (updateWorkoutLog (Some u) workoutLogId workout logs notes w).1
    = Throw (StoreError e)
    /\ store (updateWorkoutLog (Some u) workoutLogId workout logs notes w).2 = store w
    /\ trace (updateWorkoutLog (Some u) workoutLogId workout logs notes w).2
       = trace w ++ [(UpdateWorkoutLog workoutLogId (User.id u) notes
                                       (calculateTotalScore logs workout)
                                       (calculateTotalScore logs workout) (now w),
                      Some e)].
Proof.
  intros Hforeign.
  destruct (await_or_throw_refused
              (UpdateWorkoutLog workoutLogId (User.id u) notes
                                (calculateTotalScore logs workout)
                                (calculateTotalScore logs workout) (now w))
              (store_updateWorkoutLog workoutLogId (User.id u) notes
                                      (calculateTotalScore logs workout)
                                      (calculateTotalScore logs workout) (now w))
              w (StoreFailure "PGRST116")) as [e He].
  { unfold store_updateWorkoutLog.
    destruct (Store.workout_logs (store w) !! workoutLogId) as [old|] eqn:Hold; [|done].
    rewrite decide_False; [done|]. by apply Hforeign. }
  exists e. unfold updateWorkoutLog, try_finally, catch_log, bind, toISOString_now.
  rewrite He. simpl. done.
Qed.

Lemma updateWorkoutLog_foreign_log_refused_witness :
  (forall old, Store.workout_logs sampleStore !! "log-1"%string = Some old ->
               WorkoutLog.user_id old ≠ "mallory"%string)
  /\ exists e,
      (updateWorkoutLog (Some (User.mk "mallory")) "log-1" (sampleWorkout 3 None) []
                        "mine now" (worldOf sampleStore [] false)).1
      = Throw (StoreError e)
      /\ store (updateWorkoutLog (Some (User.mk "mallory")) "log-1" (sampleWorkout 3 None)
                                 [] "mine now" (worldOf sampleStore [] false)).2
         = sampleStore.
Proof.
  assert (H : forall old, Store.workout_logs sampleStore !! "log-1"%string = Some old ->
                          WorkoutLog.user_id old ≠ "mallory"%string).
  { intros old. vm_compute. intros [= <-]. discriminate. }
  split; [exact H|].
  destruct (updateWorkoutLog_foreign_log_refused (User.mk "mallory") "log-1"
              (sampleWorkout 3 None) [] "mine now" (worldOf sampleStore [] false) H)
    as (e & He & Hstore & _).
  exists e. split; [exact He|exact Hstore].
Defined.

Lemma deleteStep_Throw D w err w' :
  (if (0 <? length D)%nat
   then await_or_throw (DeleteScores D) (store_deleteScores D)
   else ret tt) w = (Throw err, w') ->
  exists e, err = StoreError e /\ D ≠ []
            /\ w' = recorded (DeleteScores D) (Some e) (store w) w.
Proof.
  destruct D as [|d D']; simpl; [discriminate|].
  intros (e & -> & ->)%await_or_throw_Throw. by exists e.
Qed.

(** Every way in which [updateWorkoutLog] fails, by the call that failed. *)
Lemma updateWorkoutLog_Throw_inv u wl workout logs notes w err w' :
  updateWorkoutLog (Some u) wl workout logs notes w = (Throw err, w') ->
  let score := calculateTotalScore logs workout in
  let rows := upsertedScores (User.id u) wl logs in
  let existing := (map_to_list (scoresOf wl (Store.exercise_scores (store w)))).*1 in
  let D := scoreIdsToDelete (Set_of existing) (currentScoreIds rows) in
  let update := UpdateWorkoutLog wl (User.id u) notes score score (now w) in
  exists e,
    err = StoreError e
    /\ logging w' = false
    /\ ((store w' = store w /\ trace w' = trace w ++ [(update, Some e)])
        \/ exists old,
            Store.workout_logs (store w) !! wl = Some old
            /\ WorkoutLog.user_id old = User.id u
            /\ Store.workout_logs (store w') =
               <[wl := WorkoutLog.mk (WorkoutLog.user_id old) (WorkoutLog.workout_id old)
                                     notes score score (now w)]>
                 (Store.workout_logs (store w))
            /\ Store.messages (store w') = Store.messages (store w)
            /\ ((Store.exercise_scores (store w') = Store.exercise_scores (store w)
                 /\ trace w' = trace w ++ [(update, None); (SelectScoreIds wl, Some e)])
                \/ (Store.exercise_scores (store w') = Store.exercise_scores (store w)
                    /\ trace w' = trace w ++ [(update, None); (SelectScoreIds wl, None);
                                              (DeleteScores D, Some e)])
                \/ (Store.exercise_scores (store w') =
                    filter (fun kv => kv.1 ∉ D) (Store.exercise_scores (store w))
                    /\ trace w' =
                       trace w
                         ++ [(update, None); (SelectScoreIds wl, None)]
                         ++ (if decide (D = []) then [] else [(DeleteScores D, None)])
                         ++ [(UpsertScores rows, Some e)]))).
Proof.
  intros Hrun score rows existing D update. unfold updateWorkoutLog in Hrun.
  apply catch_finally_Throw in Hrun as (w0 & Hbody & Hstore & Htrace & Hlog).
  rewrite Hstore, Htrace. clear Hstore Htrace.
  apply bind_Throw in Hbody as [Hnow|(completed_at & w1 & Hnow & Hbody)];
    [discriminate|].
  injection Hnow as <- <-.
  apply bind_Throw in Hbody as [Hupd|(workoutLog & w1 & Hupd & Hbody)].
  { apply await_or_throw_Throw in Hupd as (e & -> & ->).
    exists e. split_and!; [done..|]. left. by split. }
  apply await_or_throw_Ok in Hupd as (s1 & Hupd & ->).
  unfold store_updateWorkoutLog in Hupd.
  destruct (Store.workout_logs (store w) !! wl) as [old|] eqn:Hold; [|discriminate].
  case_decide as Huser; [|discriminate].
  injection Hupd as <- <-.
  apply bind_Throw in Hbody as [Hsel|(existingScores & w2 & Hsel & Hbody)].
  { apply await_or_throw_Throw in Hsel as (e & -> & ->).
    exists e. split_and!; [done..|]. right. exists old. split_and!; [done..|].
    left. simpl. split; [done|]. by rewrite <- app_assoc. }
  apply await_or_throw_Ok in Hsel as (s2 & Hsel & ->).
  injection Hsel as <- <-. simpl in Hbody. fold score rows existing D in Hbody.
  apply bind_Throw in Hbody as [Hdel|(? & w3 & Hdel & Hbody)].
  { apply deleteStep_Throw in Hdel as (e & -> & HD & ->).
    exists e. split_and!; [done..|]. right. exists old. split_and!; [done..|].
    right. left. simpl. split; [done|]. by rewrite <- !app_assoc. }
  apply deleteStep_Ok in Hdel as (Hstore3 & Htrace3 & _). simpl in Hstore3, Htrace3.
  apply bind_Throw in Hbody as [Hups|(? & w4 & _ & Hret)]; [|discriminate].
  apply await_or_throw_Throw in Hups as (e & -> & ->).
  exists e. split_and!; [done..|]. right. exists old. simpl. rewrite Hstore3. simpl.
  split_and!; [done..|]. right. right. split; [done|].
  rewrite Htrace3. by rewrite <- !app_assoc.
Qed.

Lemma deleted_rows_belong_to_log wl (scores : gmap string ScoreRow.t) current i :
  i ∈ scoreIdsToDelete (Set_of (map_to_list (scoresOf wl scores)).*1) current ->
  exists row, scores !! i = Some row /\ ScoreRow.workout_log_id row = wl.
Proof.
  intros [Hin _]%elem_of_scoreIdsToDelete.
  by apply elem_of_Set_of, elem_of_selected in Hin.
Qed.

(** X9.  A failed [updateWorkoutLog] writes no [exercise_scores] row: what
    is stored afterwards was stored before, unchanged, and the only rows
    that can be missing are rows of this workout log (those the delete
    removed before the upsert failed). *)
Theorem updateWorkoutLog_failure_only_deletes u workoutLogId workout logs notes w err w' :
  updateWorkoutLog (Some u) workoutLogId workout logs notes w = (Throw err, w') ->
  (forall i row,
      Store.exercise_scores (store w') !! i = Some row ->
      Store.exercise_scores (store w) !! i = Some row)
  /\ (forall i row,
         Store.exercise_scores (store w) !! i = Some row ->
         ScoreRow.workout_log_id row ≠ workoutLogId ->
         Store.exercise_scores (store w') !! i = Some row)
  /\ logging w' = false.
Proof.
  intros Hrun.
  apply updateWorkoutLog_Throw_inv in Hrun as (e & -> & Hlog & Hcases).
  assert (Hscores :
            Store.exercise_scores (store w') = Store.exercise_scores (store w)
            \/ Store.exercise_scores (store w') =
               filter (fun kv => kv.1 ∉ scoreIdsToDelete
                         (Set_of (map_to_list
                                    (scoresOf workoutLogId
                                       (Store.exercise_scores (store w)))).*1)
                         (currentScoreIds
                            (upsertedScores (User.id u) workoutLogId logs)))
                      (Store.exercise_scores (store w))).
  { destruct Hcases as [[-> _]|(old & _ & _ & _ & _ & [[? _]|[[? _]|[? _]]])]; auto. }
  split_and!; [| |done].
  - intros i row. destruct Hscores as [->| ->]; [done|].
    by intros [? _]%map_lookup_filter_Some.
  - intros i row Hrow Hother. destruct Hscores as [->| ->]; [done|].
    apply map_lookup_filter_Some. split; [done|]. simpl.
    intros (row' & Hrow' & Hwl)%deleted_rows_belong_to_log. congruence.
Qed.

Lemma updateWorkoutLog_failure_only_deletes_witness :
  exists w',
    updateWorkoutLog (Some alice) "log-1" (sampleWorkout 3 (Some 100)) sampleLogs
                     "edited" (worldOf sampleStore [None; None; None; Some (StoreFailure "500")]
                                       true)
    = (Throw (StoreError (StoreFailure "500")), w')
    /\ Store.exercise_scores (store w') !! "B"%string = None
    /\ forall i row,
        Store.exercise_scores (store w') !! i = Some row ->
        Store.exercise_scores sampleStore !! i = Some row.
Proof.
  eexists. split; [vm_compute; reflexivity|]. split; [vm_compute; reflexivity|].
  exact (proj1 (updateWorkoutLog_failure_only_deletes alice "log-1"
                  (sampleWorkout 3 (Some 100)) sampleLogs "edited"
                  (worldOf sampleStore [None; None; None; Some (StoreFailure "500")] true)
                  _ _ eq_refl)).
Defined.

(** X10.  When the call that fails is the upsert, the delete has already
    been applied and is not undone: the table is the former one without
    the deletion set, and the workout log row carries the new score. *)
Theorem updateWorkoutLog_upsert_failure_keeps_delete
    u workoutLogId workout logs notes w err w' e :
  updateWorkoutLog (Some u) workoutLogId workout logs notes w = (Throw err, w') ->
  last (trace w')
  = Some (UpsertScores (upsertedScores (User.id u) workoutLogId logs), Some e) ->
  err = StoreError e
  /\ Store.exercise_scores (store w') =
     filter (fun kv =>
               kv.1 ∉ scoreIdsToDelete
                        (Set_of (map_to_list
                                   (scoresOf workoutLogId
                                      (Store.exercise_scores (store w)))).*1)
                        (currentScoreIds (upsertedScores (User.id u) workoutLogId logs)))
            (Store.exercise_scores (store w))
  /\ exists row,
      Store.workout_logs (store w') !! workoutLogId = Some row
      /\ WorkoutLog.score row = calculateTotalScore logs workout
      /\ WorkoutLog.total row = calculateTotalScore logs workout
      /\ WorkoutLog.notes row = notes.
Proof.
  intros Hrun Hlast.
  apply updateWorkoutLog_Throw_inv in Hrun as (e' & -> & Hlog & Hcases).
  destruct Hcases as [[_ Htr]|(old & Hold & Huser & Hlogs & _
                               & [[_ Htr]|[[_ Htr]|[Hscores Htr]]])];
    rewrite Htr in Hlast.
  - rewrite last_snoc in Hlast. discriminate.
  - change [?a; ?b] with ([a] ++ [b]) in Hlast.
    rewrite app_assoc, last_snoc in Hlast. discriminate.
  - change [?a; ?b; ?c] with ([a; b] ++ [c]) in Hlast.
    rewrite app_assoc, last_snoc in Hlast. discriminate.
  - rewrite !app_assoc, last_snoc in Hlast. injection Hlast as <-.
    split_and!; [done..|].
    eexists. rewrite Hlogs, lookup_insert_eq. split; [done|]. by simpl.
Qed.

Lemma updateWorkoutLog_upsert_failure_keeps_delete_witness :
  exists w',
    updateWorkoutLog (Some alice) "log-1" (sampleWorkout 3 (Some 100)) sampleLogs
                     "edited" (worldOf sampleStore [None; None; None; Some (StoreFailure "500")]
                                       true)
    = (Throw (StoreError (StoreFailure "500")), w')
    /\ exists row,
        Store.workout_logs (store w') !! "log-1"%string = Some row
        /\ WorkoutLog.score row = 1000.
Proof.
  eexists. split; [vm_compute; reflexivity|].
  destruct (updateWorkoutLog_upsert_failure_keeps_delete alice "log-1"
              (sampleWorkout 3 (Some 100)) sampleLogs "edited"
              (worldOf sampleStore [None; None; None; Some (StoreFailure "500")] true)
              _ _ (StoreFailure "500") eq_refl eq_refl)
    as (_ & _ & row & Hrow & Hscore & _).
  exists row. split; [exact Hrow|exact Hscore].
Defined.

(** ** updateWorkoutLog: what a successful update touches *)

Lemma elem_of_upsertedScores uid wl logs log set :
  log ∈ logs -> set ∈ ExerciseLog.sets log ->
  (LoggedSet.id set, scoreRowOf uid wl log set) ∈ upsertedScores uid wl logs.
Proof.
  intros Hlog Hset. induction logs as [|log' logs IH]; [by apply elem_of_nil in Hlog|].
  rewrite upsertedScores_cons. apply elem_of_app.
  apply elem_of_cons in Hlog as [<-|Hlog]; [left|right; by apply IH].
  apply list_elem_of_fmap. by exists set.
Qed.

Lemma assign_ids_named_elem rows pool i row :
  (Some i, row) ∈ rows -> (i, row) ∈ assign_ids rows pool.
Proof.
  revert pool. induction rows as [|[[j|] row'] rows IH]; intros pool Hin; simpl.
  - by apply elem_of_nil in Hin.
  - apply elem_of_cons in Hin as [[= -> ->]|Hin]; [left|right; by apply IH].
  - apply elem_of_cons in Hin as [?|Hin]; [discriminate|].
    destruct pool as [|p pool]; [by apply IH|right; by apply IH].
Qed.

(** X11.  When no two supplied sets carry the same identifier, after a
    successful [updateWorkoutLog] every set that carries an identifier is
    stored under that identifier with its own values, as a row of the
    calling user and of this workout log, whatever row was stored under the
    identifier before (a row of another log is taken over). *)
Theorem updateWorkoutLog_named_rows_stored
    u workoutLogId workout logs notes w r w' log set i :
  NoDup (carriedIds logs) ->
  updateWorkoutLog (Some u) workoutLogId workout logs notes w = (Ok r, w') ->
  log ∈ logs ->
  set ∈ ExerciseLog.sets log ->
  LoggedSet.id set = Some i ->
  Store.exercise_scores (store w') !! i
  = Some (scoreRowOf (User.id u) workoutLogId log set).
Proof.
  intros Hdistinct Hrun Hlog Hset Hid.
  apply updateWorkoutLog_Ok_inv in Hrun
    as (old & _ & _ & _ & Hstore & _).
  assert (NoDup (upsert_assignment (upsertedScores (User.id u) workoutLogId logs)
                   (filter (fun kv => kv.1 ∉ scoreIdsToDelete
                      (Set_of (map_to_list (scoresOf workoutLogId
                                              (Store.exercise_scores (store w)))).*1)
                      (currentScoreIds (upsertedScores (User.id u) workoutLogId logs)))
                      (Store.exercise_scores (store w)))).*1) as HnodupA.
  { apply upsert_assignment_NoDup. by rewrite named_ids_upsertedScores. }
  rewrite Hstore. simpl. rewrite upsert_fold_distinct by done.
  apply lookup_union_Some_l.
  apply elem_of_list_to_map_1; [done|].
  apply assign_ids_named_elem. rewrite <- Hid. by apply elem_of_upsertedScores.
Qed.

(** X12.  A successful [updateWorkoutLog] leaves alone every
    [exercise_scores] row of another workout log whose identifier no
    supplied set names, every other [workout_logs] row and all messages;
    the workout log row itself keeps its owner and workout and takes the
    notes, the computed score in [score] and [total] and the current time,
    and it is the row returned. *)
Theorem updateWorkoutLog_touches_only_its_log u workoutLogId workout logs notes w r w' :
  updateWorkoutLog (Some u) workoutLogId workout logs notes w = (Ok r, w') ->
  (forall i row,
      Store.exercise_scores (store w) !! i = Some row ->
      ScoreRow.workout_log_id row ≠ workoutLogId ->
      i ∉ named_ids (upsertedScores (User.id u) workoutLogId logs) ->
      Store.exercise_scores (store w') !! i = Some row)
  /\ (forall l, l ≠ workoutLogId ->
                Store.workout_logs (store w') !! l = Store.workout_logs (store w) !! l)
  /\ Store.messages (store w') = Store.messages (store w)
  /\ exists old,
      Store.workout_logs (store w) !! workoutLogId = Some old
      /\ r = (workoutLogId,
              WorkoutLog.mk (WorkoutLog.user_id old) (WorkoutLog.workout_id old) notes
                            (calculateTotalScore logs workout)
                            (calculateTotalScore logs workout) (now w))
      /\ Store.workout_logs (store w') !! workoutLogId = Some r.2.
Proof.
  intros Hrun.
  apply updateWorkoutLog_Ok_inv in Hrun
    as (old & Hold & Huser & -> & Hstore & _).
  rewrite Hstore. simpl. split_and!.
  - intros i row Hrow Hother Hunnamed.
    rewrite upsert_fold_union, lookup_union_r.
    + apply map_lookup_filter_Some. split; [done|]. simpl.
      intros (row' & Hrow' & Hwl)%deleted_rows_belong_to_log. congruence.
    + apply not_elem_of_list_to_map. rewrite fmap_reverse, elem_of_reverse.
      unfold upsert_assignment.
      intros Hin. apply assign_ids_fst_elem in Hin as [Hin|Hin]; [done|].
      apply fresh_list_is_fresh in Hin.
      rewrite !not_elem_of_union in Hin. destruct Hin as [_ [Hin _]].
      apply Hin, elem_of_dom. exists row.
      apply map_lookup_filter_Some. split; [done|]. simpl.
      intros (row' & Hrow' & Hwl)%deleted_rows_belong_to_log. congruence.
  - intros l Hl. by rewrite lookup_insert_ne.
  - done.
  - exists old. split_and!; [done..|]. apply lookup_insert_eq.
Qed.

Lemma updateWorkoutLog_touches_only_its_log_witness :
  exists r,
    sampleUpdate = (Ok r, sampleUpdate.2)
    /\ Store.workout_logs (store sampleUpdate.2) !! "log-1"%string = Some r.2.
Proof.
  destruct sampleUpdate_ok as [r Hrun]. exists r. split; [exact Hrun|].
  destruct (updateWorkoutLog_touches_only_its_log _ _ _ _ _ _ _ _ Hrun)
    as (_ & _ & _ & old & _ & _ & Hrow).
  exact Hrow.
Defined.

Lemma updateWorkoutLog_named_rows_stored_witness :
  exists r,
    sampleUpdate = (Ok r, sampleUpdate.2)
    /\ Store.exercise_scores (store sampleUpdate.2) !! "C"%string
       = Some (sampleRow 3).
Proof.
  destruct sampleUpdate_ok as [r Hrun]. exists r. split; [exact Hrun|].
  exact (updateWorkoutLog_named_rows_stored alice "log-1" (sampleWorkout 3 (Some 100))
           sampleLogs "edited" (worldOf sampleStore [] true) r sampleUpdate.2
           (ExerciseLog.mk "ex-1"
              [LoggedSet.mk (Some "A"%string) (Some 100) 5 None None None;
               LoggedSet.mk (Some "C"%string) (Some 100) 3 None None None;
               LoggedSet.mk None (Some 100) 2 None None None])
           (LoggedSet.mk (Some "C"%string) (Some 100) 3 None None None)
           "C" sampleLogs_distinct Hrun
           (list_elem_of_here _ _)
           (list_elem_of_further _ _ _ (list_elem_of_here _ _))
           eq_refl).
Defined.

Lemma contribution_no_sets workout index log :
  ExerciseLog.sets log = [] -> contribution workout index log = 0.
Proof.
  intros Hsets. unfold contribution. rewrite Hsets.
  destruct (_ ≫= _); [|done]. cbv zeta. by repeat case_decide.
Qed.

Lemma calculateTotalScore_no_sets logs workout :
  flat_map ExerciseLog.sets logs = [] -> calculateTotalScore logs workout = 0.
Proof.
  intros Hempty. rewrite calculateTotalScore_imap.
  assert (Hsets : forall log, log ∈ logs -> ExerciseLog.sets log = []).
  { clear -Hempty. induction logs as [|log logs IH]; [by intros ? ?%elem_of_nil|].
    simpl in Hempty. apply app_eq_nil in Hempty as [? ?].
    intros log' [->|?]%elem_of_cons; auto. }
  assert (Hzero : Forall (fun x => x = 0) (imap (contribution workout) logs)).
  { apply Forall_forall. intros x [k Hk]%list_elem_of_lookup.
    apply list_lookup_imap_Some in Hk as (log & Hlog & ->).
    apply contribution_no_sets, Hsets. by eapply list_elem_of_lookup_2. }
  induction Hzero as [|x l -> _ IH]; simpl; [done|]. by rewrite IH.
Qed.

(** X13.  A successful [updateWorkoutLog] with no set at all (no logs, or
    logs without sets) removes every [exercise_scores] row of the workout
    log and sets its score to 0. *)
Theorem updateWorkoutLog_without_sets_clears_log u workoutLogId workout logs notes w r w' :
  updateWorkoutLog (Some u) workoutLogId workout logs notes w = (Ok r, w') ->
  flat_map ExerciseLog.sets logs = [] ->
  scoresOf workoutLogId (Store.exercise_scores (store w')) = ∅
  /\ WorkoutLog.score r.2 = 0
  /\ WorkoutLog.total r.2 = 0.
Proof.
  intros Hrun Hempty.
  destruct (updateWorkoutLog_Ok_assignment _ _ _ _ _ _ _ _ Hrun)
    as (A & _ & _ & Hlen & _ & _ & Hrows).
  rewrite Hempty in Hlen. rewrite length_fmap in Hlen.
  destruct A as [|? ?]; [|discriminate].
  split; [by rewrite Hrows|].
  apply updateWorkoutLog_Ok_inv in Hrun as (old & _ & _ & -> & _).
  simpl. by rewrite calculateTotalScore_no_sets.
Qed.

Lemma updateWorkoutLog_without_sets_clears_log_witness :
  exists r w',
    updateWorkoutLog (Some alice) "log-1" (sampleWorkout 3 (Some 100))
                     [ExerciseLog.mk "ex-1" []] "cleared" (worldOf sampleStore [] true)
    = (Ok r, w')
    /\ scoresOf "log-1" (Store.exercise_scores (store w')) = ∅.
Proof.
  eexists _, _. split; [vm_compute; reflexivity|].
  exact (proj1 (updateWorkoutLog_without_sets_clears_log alice "log-1"
                  (sampleWorkout 3 (Some 100)) [ExerciseLog.mk "ex-1" []] "cleared"
                  (worldOf sampleStore [] true) _ _ eq_refl eq_refl)).
Defined.

(** ** Store invariants across the hook *)

Lemma hoare_ret {A : Type} (P : Store.t -> Prop) (a : A) Q E :
  (forall s, P s -> Q a s) -> hoare P (ret a) Q E.
Proof. intros HPQ w res w' HP [= <- <-]. by apply HPQ. Qed.

Lemma hoare_toISOString_now (P : Store.t -> Prop) E :
  hoare P toISOString_now (fun _ => P) E.
Proof. by intros w res w' HP [= <- <-]. Qed.

Lemma hoare_bind {A B : Type} (P : Store.t -> Prop) (m : M A) (k : A -> M B) R Q E :
  hoare P m R E -> (forall a, hoare (R a) (k a) Q E) -> hoare P (bind m k) Q E.
Proof.
  intros Hm Hk w res w' HP. unfold bind.
  destruct (m w) as [[a|e] w1] eqn:Hmw.
  - intros Hkw. specialize (Hm _ _ _ HP Hmw). simpl in Hm.
    exact (Hk a _ _ _ Hm Hkw).
  - intros [= <- <-]. exact (Hm _ _ _ HP Hmw).
Qed.

Lemma hoare_await {A : Type} c (op : Store.t -> StoreErr + (A * Store.t))
    (P : Store.t -> Prop) Q E :
  (forall s, P s -> E s) ->
  (forall s a s', P s -> op s = inr (a, s') -> Q a s') ->
  hoare P (await_or_throw c op) Q E.
Proof.
  intros HE HQ w res w' HP. unfold await_or_throw, await.
  destruct (faults w) as [|[e|] rest]; [| |];
    try destruct (op (store w)) as [e'|[a s']] eqn:Hop;
    intros [= <- <-]; simpl; eauto.
Qed.

Lemma hoare_catch_finally {A : Type} label (body : M A) (P : Store.t -> Prop) Q E b :
  hoare P body Q E ->
  hoare P (try_finally (catch_log label body) (setLogging b)) Q E.
Proof.
  intros Hbody w res w' HP. unfold try_finally, catch_log.
  destruct (body w) as [[a|e] w0] eqn:Hrun; intros [= <- <-];
    exact (Hbody _ _ _ HP Hrun).
Qed.

Lemma referencesLogs_insert_log s L row :
  referencesLogs s ->
  referencesLogs (Store.set_workout_logs (<[L := row]> (Store.workout_logs s)) s).
Proof.
  intros Href i r Hr. simpl in *. destruct (Href i r Hr) as [x Hx].
  destruct (decide (L = ScoreRow.workout_log_id r)) as [<-|Hne].
  - rewrite lookup_insert_eq. eauto.
  - rewrite lookup_insert_ne by done. eauto.
Qed.

Lemma referencesLogs_batch s (A : list (string * ScoreRow.t)) L :
  referencesLogs s ->
  is_Some (Store.workout_logs s !! L) ->
  Forall (fun row => ScoreRow.workout_log_id row = L) A.*2 ->
  referencesLogs (Store.set_exercise_scores (list_to_map A ∪ Store.exercise_scores s) s).
Proof.
  intros Href HL HA i r. simpl.
  intros [Hbatch|[_ Hold]]%lookup_union_Some_raw; [|by eapply Href].
  apply elem_of_list_to_map_2 in Hbatch.
  eapply Forall_forall in HA; [by rewrite HA|].
  apply list_elem_of_fmap. by exists (i, r).
Qed.

Lemma referencesLogs_filter s (keep : string * ScoreRow.t -> Prop)
    `{!forall kv, Decision (keep kv)} :
  referencesLogs s ->
  referencesLogs (Store.set_exercise_scores (filter keep (Store.exercise_scores s)) s).
Proof.
  intros Href i r. simpl. intros [Hr _]%map_lookup_filter_Some. by eapply Href.
Qed.

Lemma hoare_logWorkout u workout logs notes :
  hoare referencesLogs (logWorkout (Some u) workout logs notes)
        (fun _ => referencesLogs) referencesLogs.
Proof.
  unfold logWorkout. apply hoare_catch_finally.
  eapply hoare_bind; [apply hoare_toISOString_now|]. intros completed_at. cbv zeta.
  eapply hoare_bind.
  { apply (hoare_await _ _ _
             (fun wl s => referencesLogs s /\ is_Some (Store.workout_logs s !! wl.1)));
      [done|].
    intros s [L row] s' Href. unfold store_insertWorkoutLog.
    destruct (new_ids 1 _) as [|id ?]; [discriminate|]. intros [= <- <- <-].
    split; [by apply referencesLogs_insert_log|]. simpl. rewrite lookup_insert_eq. eauto. }
  intros [L row]. simpl.
  eapply hoare_bind; [|intros ?; apply hoare_ret; intros s Hs; exact Hs].
  apply hoare_await; [by intros s [? _]|].
  intros s [] s' [Href HL]. intros [= <-].
  apply referencesLogs_batch with (L := L); [done..|].
  rewrite snd_zip; [apply insertedScores_workout_log_id|].
  unfold new_ids. rewrite length_fresh_list. lia.
Qed.

Lemma hoare_updateWorkoutLog u wl workout logs notes :
  hoare referencesLogs (updateWorkoutLog (Some u) wl workout logs notes)
        (fun _ => referencesLogs) referencesLogs.
Proof.
  unfold updateWorkoutLog. apply hoare_catch_finally.
  eapply hoare_bind; [apply hoare_toISOString_now|]. intros completed_at. cbv zeta.
  set (linked := fun s : Store.t =>
                   referencesLogs s /\ is_Some (Store.workout_logs s !! wl)).
  eapply (hoare_bind _ _ _ (fun _ => linked)).
  { apply hoare_await; [done|].
    intros s [L row] s' Href. unfold store_updateWorkoutLog.
    destruct (Store.workout_logs s !! wl) as [old|]; [|discriminate].
    case_decide; [|discriminate]. intros [= <- <- <-].
    split; [by apply referencesLogs_insert_log|]. simpl. rewrite lookup_insert_eq. eauto. }
  intros workoutLog.
  eapply (hoare_bind _ _ _ (fun _ => linked)).
  { apply hoare_await; [by intros s [? _]|]. by intros s ids s' Hl [= <- <-]. }
  intros existingScores.
  eapply (hoare_bind _ _ _ (fun _ => linked)).
  { case_match.
    - apply hoare_await; [by intros s [? _]|].
      intros s [] s' [Href HL] [= <-]. split; [|done].
      by apply referencesLogs_filter.
    - apply hoare_ret. by intros s Hs. }
  intros _.
  eapply hoare_bind; [|intros ?; apply hoare_ret; intros s Hs; exact Hs].
  apply hoare_await; [by intros s [? _]|].
  intros s [] s' [Href HL]. unfold store_upsertScores.
  intros [= <-]. rewrite upsert_fold_union.
  apply referencesLogs_batch with (L := wl); [done..|].
  rewrite fmap_reverse. apply Forall_reverse.
  rewrite upsert_assignment_snd. apply upsertedScores_workout_log_id.
Qed.

(** X14.  Referential integrity is kept by the hook in every outcome: when
    every [exercise_scores] row references a stored workout log, so it is
    after [logWorkout] and after [updateWorkoutLog], whether they succeed,
    fail at any store call, or are refused for want of a user. *)
Theorem referencesLogs_preserved user workoutLogId workout logs notes w :
  referencesLogs (store w) ->
  referencesLogs (store (logWorkout user workout logs notes w).2)
  /\ referencesLogs (store (updateWorkoutLog user workoutLogId workout logs notes w).2).
Proof.
  intros Href. destruct user as [u|]; [|by split]. split.
  - destruct (logWorkout (Some u) workout logs notes w) as [res w'] eqn:Hrun.
    pose proof (hoare_logWorkout u workout logs notes w res w' Href Hrun) as H.
    by destruct res.
  - destruct (updateWorkoutLog (Some u) workoutLogId workout logs notes w)
      as [res w'] eqn:Hrun.
    pose proof (hoare_updateWorkoutLog u workoutLogId workout logs notes w res w' Href Hrun)
      as H.
    by destruct res.
Qed.

Lemma referencesLogs_sampleStore : referencesLogs sampleStore.
Proof.
  intros i row Hrow. unfold sampleStore in *. cbn [Store.exercise_scores] in Hrow.
  assert (Hlog : ScoreRow.workout_log_id row = "log-1"%string).
  { apply lookup_insert_Some in Hrow as [[_ <-]|[_ Hrow]]; [done|].
    apply lookup_insert_Some in Hrow as [[_ <-]|[_ Hrow]]; [done|].
    by apply lookup_singleton_Some in Hrow as [_ <-]. }
  rewrite Hlog. cbn [Store.workout_logs]. rewrite lookup_singleton_eq. eauto.
Qed.

Lemma referencesLogs_preserved_witness :
  referencesLogs sampleStore /\ referencesLogs (store sampleUpdate.2).
Proof.
  split; [exact referencesLogs_sampleStore|].
  exact (proj2 (referencesLogs_preserved (Some alice) "log-1" (sampleWorkout 3 (Some 100))
                  sampleLogs "edited" (worldOf sampleStore [] true)
                  referencesLogs_sampleStore)).
Defined.

(** ** Logging a workout, then editing it *)

Lemma upsertedScores_snd uid wl logs :
  (upsertedScores uid wl logs).*2 = insertedScores uid wl logs.
Proof.
  induction logs as [|log logs IH]; [done|].
  rewrite upsertedScores_cons, fmap_app, IH. unfold insertedScores at 2. simpl.
  f_equal. rewrite <- list_fmap_compose. done.
Qed.

Lemma updateWorkoutLog_relabelled_same u wl workout logs notes ids w old :
  no_faults w ->
  Store.workout_logs (store w) !! wl = Some old ->
  WorkoutLog.user_id old = User.id u ->
  labelled (User.id u) wl logs (Store.exercise_scores (store w)) ids ->
  exists r w',
    updateWorkoutLog (Some u) wl workout (relabel logs ids) notes w = (Ok r, w')
    /\ Store.exercise_scores (store w') = Store.exercise_scores (store w).
Proof.
  intros Hnf Hold Huser (Hlen & Hnodup & Hrows).
  set (rows := upsertedScores (User.id u) wl logs) in *.
  assert (Hlen' : length ids = length rows.*2).
  { rewrite length_fmap. unfold rows. by rewrite upsertedScores_length. }
  assert (Hrows2 : upsertedScores (User.id u) wl (relabel logs ids)
                   = zip (Some <$> ids) rows.*2)
    by by apply upsertedScores_relabel.
  destruct (updateWorkoutLog_run u wl workout (relabel logs ids) notes w old)
    as (r & w' & Hrun); [done..|].
  exists r, w'. split; [done|].
  apply updateWorkoutLog_Ok_inv in Hrun as (old2 & _ & _ & _ & Hstore & _).
  rewrite Hstore. simpl. rewrite Hrows2.
  unfold upsert_assignment. rewrite assign_ids_all_named by done.
  assert (NoDup (zip ids rows.*2).*1) as HnodupA by (rewrite fst_zip; [done|lia]).
  rewrite upsert_fold_distinct by done.
  apply (reupsert_same wl); [done|].
  intros i (row & Hrow & Hwl)%deleted_rows_belong_to_log.
  exists row. by apply map_lookup_filter_Some.
Qed.

(** X15.  In a store with referential integrity, right after a successful
    [logWorkout] the rows of the new workout log are exactly the rows of
    the logged sets; editing that log with the same sets, each carrying the
    identifier it was stored under, completes (no store failure) and
    changes no [exercise_scores] row. *)
Theorem logWorkout_then_update_unchanged u workout logs notes w r w1 :
  referencesLogs (store w) ->
  logWorkout (Some u) workout logs notes w = (Ok r, w1) ->
  (exists ids, labelled (User.id u) r.1 logs (Store.exercise_scores (store w1)) ids)
  /\ forall ids workout' notes' w1',
      labelled (User.id u) r.1 logs (Store.exercise_scores (store w1)) ids ->
      store w1' = store w1 ->
      no_faults w1' ->
      exists r2 w2,
        updateWorkoutLog (Some u) r.1 workout' (relabel logs ids) notes' w1' = (Ok r2, w2)
        /\ Store.exercise_scores (store w2) = Store.exercise_scores (store w1).
Proof.
  intros Href Hrun.
  apply logWorkout_Ok_inv in Hrun as (L & -> & HL & Hstore & _). simpl.
  split.
  - exists (new_ids (length (insertedScores (User.id u) L logs))
                    (dom (Store.exercise_scores (store w)))).
    assert (Hlen : length (new_ids (length (insertedScores (User.id u) L logs))
                                   (dom (Store.exercise_scores (store w))))
                   = length (insertedScores (User.id u) L logs))
      by apply length_fresh_list.
    split_and!.
    + by rewrite Hlen, insertedScores_length.
    + apply NoDup_fresh_list.
    + rewrite upsertedScores_snd, Hstore. simpl.
      apply scoresOf_union_batch.
      * rewrite snd_zip by lia. apply insertedScores_workout_log_id.
      * intros i row Hrow Hwl. destruct (Href i row Hrow) as [x Hx].
        rewrite Hwl in Hx. congruence.
  - intros ids workout' notes' w1' Hlab Hw1' Hnf.
    destruct (updateWorkoutLog_relabelled_same u L workout' logs notes' ids w1'
                (WorkoutLog.mk (User.id u) (Workout.id workout) notes
                               (calculateTotalScore logs workout)
                               (calculateTotalScore logs workout) (now w)))
      as (r2 & w2 & Hrun2 & Hsame); [done| |done|by rewrite Hw1'|].
    { rewrite Hw1', Hstore. simpl. apply lookup_insert_eq. }
    exists r2, w2. split; [done|]. by rewrite Hsame, Hw1'.
Qed.

Lemma logWorkout_then_update_unchanged_witness :
  referencesLogs emptyStore
  /\ exists r,
      sampleLogWorkout [] = (Ok r, (sampleLogWorkout []).2)
      /\ exists ids r2 w2,
          updateWorkoutLog (Some alice) r.1 (sampleWorkout 3 (Some 100))
                           (relabel sampleLogs ids) "again" (sampleLogWorkout []).2
          = (Ok r2, w2)
          /\ Store.exercise_scores (store w2)
             = Store.exercise_scores (store (sampleLogWorkout []).2).
Proof.
  assert (Href : referencesLogs emptyStore).
  { intros i row Hrow. simpl in Hrow. by rewrite lookup_empty in Hrow. }
  split; [exact Href|].
  assert (Hrun : exists r, sampleLogWorkout [] = (Ok r, (sampleLogWorkout []).2)).
  { eexists. vm_compute. reflexivity. }
  destruct Hrun as [r Hrun]. exists r. split; [exact Hrun|].
  destruct (logWorkout_then_update_unchanged alice (sampleWorkout 3 (Some 100)) sampleLogs
              "done" (worldOf emptyStore [] true) r (sampleLogWorkout []).2 Href Hrun)
    as [[ids Hids] Hagain].
  destruct (Hagain ids (sampleWorkout 3 (Some 100)) "again" (sampleLogWorkout []).2
              Hids eq_refl) as (r2 & w2 & Hrun2 & Hsame).
  { vm_compute. constructor. }
  exists ids, r2, w2. split; [exact Hrun2|exact Hsame].
Defined.

(** ** MessageBoard.handlePostMessage *)

Lemma trimStart_white s :
  Forall (fun c => MessageBoard.is_white_space c = true) s ->
  MessageBoard.trimStart s = [].
Proof. induction 1 as [|c s Hc _ IH]; simpl; [done|]. by rewrite Hc. Qed.

Lemma trimStart_cases s :
  (MessageBoard.trimStart s = []
   /\ Forall (fun c => MessageBoard.is_white_space c = true) s)
  \/ (exists c t,
         MessageBoard.trimStart s = c :: t
         /\ MessageBoard.is_white_space c = false
         /\ Exists (fun c => MessageBoard.is_white_space c = false) s).
Proof.
  induction s as [|c s IH]; simpl; [by left|].
  destruct (MessageBoard.is_white_space c) eqn:Hc.
  - destruct IH as [[-> Hall]|(c' & t & -> & Hc' & Hex)].
    + left. split; [done|]. by constructor.
    + right. exists c', t. split_and!; [done..|]. by apply Exists_cons_tl.
  - right. exists c, s. split_and!; [done..|]. by apply Exists_cons_hd.
Qed.

Lemma white_or_not s :
  Forall (fun c => MessageBoard.is_white_space c = true) s
  \/ Exists (fun c => MessageBoard.is_white_space c = false) s.
Proof. destruct (trimStart_cases s) as [[_ ?]|(? & ? & _ & _ & ?)]; auto. Qed.

Lemma white_and_not s :
  Forall (fun c => MessageBoard.is_white_space c = true) s ->
  Exists (fun c => MessageBoard.is_white_space c = false) s -> False.
Proof.
  intros Hall [c [Hin Hc]]%Exists_exists.
  eapply Forall_forall in Hall; [|done]. congruence.
Qed.

(** The trimmed string is empty exactly when every character of the string
    is white space. *)
Lemma trim_nil s :
  MessageBoard.trim s = [] <-> Forall (fun c => MessageBoard.is_white_space c = true) s.
Proof.
  unfold MessageBoard.trim, MessageBoard.trimEnd. split.
  - intros Hnil. destruct (trimStart_cases s) as [[_ ?]|(c & t & Hs & Hc & _)]; [done|].
    exfalso. rewrite Hs in Hnil.
    apply (f_equal reverse) in Hnil. rewrite reverse_involutive, reverse_nil in Hnil.
    destruct (trimStart_cases (reverse (c :: t))) as [[_ Hall]|(? & ? & Heq & _)];
      [|congruence].
    apply Forall_reverse, Forall_cons_1 in Hall as [? _]. congruence.
  - intros Hall. by rewrite (trimStart_white s Hall).
Qed.

Lemma trim_cons s :
  Exists (fun c => MessageBoard.is_white_space c = false) s ->
  exists c t, MessageBoard.trim s = c :: t.
Proof.
  intros Hex. destruct (MessageBoard.trim s) as [|c t] eqn:Htrim; [|eauto].
  apply trim_nil in Htrim. destruct (white_and_not _ Htrim Hex).
Qed.

(** X16.  [handlePostMessage] never rejects, and it issues a store call
    exactly when a user is signed in and the message has a character that
    is not white space: with no user, or a message of white space only
    (the empty message included), it returns the board and the world as
    they are; otherwise it issues one insert of the untrimmed message with
    the user as author. *)
Theorem handlePostMessage_calls_store_iff user board w :
  (exists board', (MessageBoard.handlePostMessage user board w).1 = Ok board')
  /\ ((user = None
       \/ Forall (fun c => MessageBoard.is_white_space c = true)
                 (MessageBoard.newMessage board)) ->
      MessageBoard.handlePostMessage user board w = (Ok board, w))
  /\ (forall u,
         user = Some u ->
         Exists (fun c => MessageBoard.is_white_space c = false)
                (MessageBoard.newMessage board) ->
         exists outcome,
           trace (MessageBoard.handlePostMessage user board w).2
           = trace w ++ [(InsertMessage
                            (Message.mk (MessageBoard.newMessage board) (User.id u)),
                          outcome)]).
Proof.
  unfold MessageBoard.handlePostMessage. split_and!.
  - destruct user as [u|]; [|by eexists].
    destruct (MessageBoard.trim _); [by eexists|].
    destruct (await _ _ w) as [[e|data] w1]; by eexists.
  - intros [->|Hblank%trim_nil]; [done|]. rewrite Hblank. by destruct user.
  - intros u -> (c & t & ->)%trim_cons.
    unfold await. destruct (faults w) as [|[e|] rest]; simpl; [| |];
      try (destruct (store_insertMessage _ _) as [e'|[a s']]); simpl; eauto.
Qed.

(** A message made of a space, a no-break space, a line separator, a
    byte-order mark and a tab is not posted. *)
Lemma handlePostMessage_calls_store_iff_witness :
  Forall (fun c => MessageBoard.is_white_space c = true) [32; 160; 8232; 65279; 9]%N
  /\ MessageBoard.handlePostMessage (Some alice)
       (MessageBoard.mkState [] [32; 160; 8232; 65279; 9]%N None)
       (worldOf emptyStore [] false)
     = (Ok (MessageBoard.mkState [] [32; 160; 8232; 65279; 9]%N None),
        worldOf emptyStore [] false).
Proof.
  assert (Forall (fun c => MessageBoard.is_white_space c = true)
                 [32; 160; 8232; 65279; 9]%N) as Hwhite
    by (repeat constructor).
  split; [exact Hwhite|].
  exact (proj1 (proj2 (handlePostMessage_calls_store_iff (Some alice)
                         (MessageBoard.mkState [] [32; 160; 8232; 65279; 9]%N None)
                         (worldOf emptyStore [] false)))
               (or_intror Hwhite)).
Defined.

(** X17.  With a user and a message that has a character that is not white
    space: if the insert goes through, the message is stored untrimmed
    under a new identifier with the user as author, it is put in front of
    the list, the input is cleared and the error banner is left as it was;
    if the insert fails, the store and the input are unchanged, the list
    is unchanged, the error text is set and the error is logged. *)
Theorem handlePostMessage_outcomes u board w :
  Exists (fun c => MessageBoard.is_white_space c = false)
         (MessageBoard.newMessage board) ->
  let row := Message.mk (MessageBoard.newMessage board) (User.id u) in
  let run := MessageBoard.handlePostMessage (Some u) board w in
  (exists id,
      Store.messages (store w) !! id = None
      /\ id ≠ EmptyString
      /\ store run.2 = Store.set_messages (<[id := row]> (Store.messages (store w))) (store w)
      /\ run.1 = Ok (MessageBoard.mkState ((id, row) :: MessageBoard.messages board)
                                          [] (MessageBoard.error board))
      /\ console run.2 = console w)
  \/ (exists e,
         store run.2 = store w
         /\ run.1 = Ok (MessageBoard.mkState
                          (MessageBoard.messages board) (MessageBoard.newMessage board)
                          (Some "Failed to post message. Please try again later."))
         /\ console run.2 = console w ++ [("Error posting message:", StoreError e)]
         /\ last (trace run.2) = Some (InsertMessage row, Some e)).
Proof.
  intros (c & t & Htrim)%trim_cons row run. unfold run, MessageBoard.handlePostMessage.
  rewrite Htrim. unfold await, store_insertMessage.
  destruct (new_ids_one (dom (Store.messages (store w)))) as (id & Hid & Hfresh & Hne).
  rewrite Hid.
  destruct (faults w) as [|[e|] rest]; simpl.
  - left. exists id. split_and!; try done. by apply not_elem_of_dom.
  - right. exists e. split_and!; try done. by rewrite last_snoc.
  - left. exists id. split_and!; try done. by apply not_elem_of_dom.
Qed.

Lemma handlePostMessage_outcomes_witness :
  Exists (fun c => MessageBoard.is_white_space c = false) (code_units "hello")
  /\ exists id,
      (MessageBoard.handlePostMessage (Some alice)
         (MessageBoard.mkState [] (code_units "hello") None)
         (worldOf emptyStore [] false)).1
      = Ok (MessageBoard.mkState [(id, Message.mk (code_units "hello") "alice")] [] None).
Proof.
  assert (Exists (fun c => MessageBoard.is_white_space c = false) (code_units "hello"))
    as Hex by (apply Exists_cons_hd; reflexivity).
  split; [exact Hex|].
  destruct (handlePostMessage_outcomes alice
              (MessageBoard.mkState [] (code_units "hello") None)
              (worldOf emptyStore [] false) Hex)
    as [(id & _ & _ & _ & Hres & _)|(e & _ & _ & _ & Hlast)].
  - exists id. exact Hres.
  - exfalso. vm_compute in Hlast. discriminate.
Defined.

(** ** ExerciseRecords: what is shown *)

Lemma selectRecords_eq getTime scores exercises workoutInfo :
  selectRecords getTime scores exercises workoutInfo
  = match exerciseGroups (map (enhance exercises workoutInfo) scores) with
    | Throw e => Throw e
    | Ok groups => Ok (topRecords getTime (bestScores groups))
    end.
Proof. by destruct scores. Qed.

Lemma selectRecords_Ok getTime scores exercises workoutInfo shown :
  selectRecords getTime scores exercises workoutInfo = Ok shown ->
  exists G,
    groups_reflect G (map (enhance exercises workoutInfo) scores)
    /\ shown = topRecords getTime (bestScores G).
Proof.
  rewrite selectRecords_eq.
  destruct (exerciseGroups _) as [G|e] eqn:HG; [|done].
  intros [= <-]. exists G. split; [by apply exerciseGroups_reflect|done].
Qed.

Lemma bestOfGroup_elem name es r : bestOfGroup name es r -> r ∈ es.
Proof.
  intros (k & Hk & _). apply list_elem_of_lookup_2 in Hk.
  unfold groupOf in Hk. by apply list_elem_of_filter in Hk as [_ Hk].
Qed.

Lemma shown_elem getTime scores exercises workoutInfo r :
  r ∈ records getTime scores exercises workoutInfo ->
  exists name,
    resolvedName r = Some name
    /\ bestOfGroup name (map (enhance exercises workoutInfo) scores) r.
Proof.
  unfold records.
  destruct (selectRecords _ _ _ _) as [shown|e] eqn:Hsel; [|by intros ?%elem_of_nil].
  apply selectRecords_Ok in Hsel as (G & HG & ->).
  destruct (bestScores_spec G _ HG) as (Hnd & Hbest & _).
  destruct (topRecords_spec getTime _ Hnd) as (_ & _ & _ & Hin).
  intros Hr. by apply Hbest, Hin.
Qed.

Lemma resolvedName_Some r name :
  resolvedName r = Some name ->
  exists e, Enhanced.exercise r = Some e /\ Exercise.name e = name /\ name ≠ EmptyString.
Proof.
  unfold resolvedName. destruct (Enhanced.exercise r) as [e|]; [|done].
  destruct (String.eqb_spec (Exercise.name e) EmptyString) as [Heq|Hne]; [done|].
  intros [= <-]. by exists e.
Qed.

(** X18.  Every record the component shows is rendered under its exercise
    name (the fall-back heading is never used), and the amount rendered
    for it (meters for Run, calories for Assault Bike, pounds otherwise) is
    the largest of that quantity over all fetched scores of that exercise
    name. *)
Theorem shown_record_rendering getTime scores exercises workoutInfo r :
  r ∈ records getTime scores exercises workoutInfo ->
  exists name,
    name ≠ EmptyString
    /\ RecordsView.heading r = name
    /\ RecordsView.amount (RecordsView.detail r) = measure name r
    /\ forall s,
         s ∈ map (enhance exercises workoutInfo) scores ->
         resolvedName s = Some name ->
         measure name s <= RecordsView.amount (RecordsView.detail r).
Proof.
  intros (name & Hname & Hbest)%shown_elem. exists name.
  destruct (resolvedName_Some _ _ Hname) as (e & He & Hen & Hne).
  assert (RecordsView.amount (RecordsView.detail r) = measure name r) as Hamount.
  { unfold RecordsView.detail, measure. rewrite He. simpl. rewrite Hen.
    repeat case_bool_decide; repeat case_decide; simpl; congruence. }
  split_and!; [done| |done|].
  - unfold RecordsView.heading, or_string. rewrite He. simpl. rewrite Hen.
    by destruct (String.eqb_spec name EmptyString).
  - intros s Hs Hsname. rewrite Hamount.
    destruct Hbest as (k & _ & Hmax & _). apply Hmax.
    unfold groupOf. by apply list_elem_of_filter.
Qed.

Lemma shown_record_rendering_witness :
  let r := enhance (Some sampleExercises) ∅
             (sampleScore "s2" "run" None (Some 600) "20240304") in
  r ∈ records sampleGetTime sampleScores (Some sampleExercises) ∅
  /\ exists name,
      name ≠ EmptyString
      /\ RecordsView.heading r = name
      /\ RecordsView.amount (RecordsView.detail r) = measure name r
      /\ forall s,
           s ∈ map (enhance (Some sampleExercises) ∅) sampleScores ->
           resolvedName s = Some name ->
           measure name s <= RecordsView.amount (RecordsView.detail r).
Proof.
  assert (enhance (Some sampleExercises) ∅
            (sampleScore "s2" "run" None (Some 600) "20240304")
          ∈ records sampleGetTime sampleScores (Some sampleExercises) ∅) as Hin.
  { vm_compute. apply list_elem_of_here. }
  split; [exact Hin|].
  exact (shown_record_rendering _ _ _ _ _ Hin).
Defined.

(** X19.  When the selection completes, the number of records shown is the
    number of distinct exercise names the fetched scores resolve to, capped
    at five. *)
Theorem records_count getTime scores exercises workoutInfo shown :
  selectRecords getTime scores exercises workoutInfo = Ok shown ->
  length shown
  = (5 `min` length (remove_dups
                       (omap resolvedName (map (enhance exercises workoutInfo) scores))))%nat.
Proof.
  intros (G & HG & ->)%selectRecords_Ok.
  destruct (bestScores_spec G _ HG) as (Hnd & Hbest & Hall).
  unfold topRecords. rewrite length_take.
  rewrite (Permutation_length (sort_Permutation _ _)).
  f_equal. rewrite <- (length_fmap resolvedName (bestScores G)).
  rewrite <- (length_fmap Some (remove_dups _)).
  apply Permutation_length, NoDup_Permutation; [done| |].
  - apply (NoDup_fmap_2 _), NoDup_remove_dups.
  - intros x. rewrite !list_elem_of_fmap. split.
    + intros (r & -> & Hr). destruct (Hbest r Hr) as (name & Hname & Hb).
      exists name. split; [done|]. apply elem_of_remove_dups, list_elem_of_omap.
      exists r. split; [by eapply bestOfGroup_elem|done].
    + intros (name & -> & Hin). apply elem_of_remove_dups, list_elem_of_omap in Hin
        as (s & Hs & Hname).
      destruct (Hall s name Hs Hname) as (r & Hr & Hrname). by exists r.
Qed.

Lemma records_count_witness :
  exists shown,
    selectRecords sampleGetTime sampleScores (Some sampleExercises) ∅ = Ok shown
    /\ length shown = 2%nat.
Proof.
  eexists. split; [vm_compute; reflexivity|].
  exact (records_count sampleGetTime sampleScores (Some sampleExercises) ∅ _ eq_refl).
Defined.

Lemma groupStep_unresolved G s : resolvedName s = None -> groupStep G s = Ok G.
Proof.
  unfold resolvedName, groupStep. destruct (Enhanced.exercise s) as [e|]; [|done].
  by destruct (String.eqb (Exercise.name e) EmptyString).
Qed.

Lemma groupFrom_resolved_only (f : ExerciseScore.t -> Enhanced.t) G l :
  groupFrom G (map f (filter (fun s => is_Some (resolvedName (f s))) l))
  = groupFrom G (map f l).
Proof.
  revert G. induction l as [|a l IH]; intros G; [done|].
  rewrite filter_cons. case_decide as Ha; simpl.
  - destruct (groupStep G (f a)); [apply IH|done].
  - rewrite groupStep_unresolved; [apply IH|].
    destruct (resolvedName (f a)); [|done]. by destruct Ha.
Qed.

(** X20.  Scores whose exercise is not found, or has an empty name, have
    no influence on the selection: removing them from the fetched scores
    gives the same records, or the same error. *)
Theorem unresolved_scores_are_ignored getTime scores exercises workoutInfo :
  selectRecords getTime
    (filter (fun s => is_Some (resolvedName (enhance exercises workoutInfo s))) scores)
    exercises workoutInfo
  = selectRecords getTime scores exercises workoutInfo.
Proof.
  rewrite !selectRecords_eq. unfold exerciseGroups.
  by rewrite groupFrom_resolved_only.
Qed.

Lemma NoDup_fmap_inj_on {A B : Type} (f : A -> B) l x y :
  NoDup (f <$> l) -> x ∈ l -> y ∈ l -> f x = f y -> x = y.
Proof.
  induction l as [|a l IH]; [by intros _ ?%elem_of_nil|].
  rewrite fmap_cons, NoDup_cons. intros [Ha Hnd].
  rewrite !elem_of_cons. intros [->|Hx] [->|Hy] Heq; [done| | |by apply IH].
  - destruct Ha. rewrite Heq. by apply list_elem_of_fmap_2.
  - destruct Ha. rewrite <- Heq. by apply list_elem_of_fmap_2.
Qed.

(** X21.  When the fetched scores have pairwise distinct identifiers, the
    keys of the rendered records are pairwise distinct. *)
Theorem rendered_keys_distinct getTime scores exercises workoutInfo :
  NoDup (ExerciseScore.id <$> scores) ->
  NoDup (RecordsView.key <$> records getTime scores exercises workoutInfo).
Proof.
  intros Hids.
  assert (forall r, r ∈ records getTime scores exercises workoutInfo ->
                    r ∈ map (enhance exercises workoutInfo) scores) as Hsub.
  { intros r (name & _ & Hb)%shown_elem. by eapply bestOfGroup_elem. }
  assert (NoDup (records getTime scores exercises workoutInfo)) as Hnd.
  { unfold records.
    destruct (selectRecords _ _ _ _) as [shown|e] eqn:Hsel; [|apply NoDup_nil_2].
    apply selectRecords_Ok in Hsel as (G & HG & ->).
    destruct (bestScores_spec G _ HG) as (Hnd & _).
    destruct (topRecords_spec getTime _ Hnd) as (_ & _ & Hnd' & _).
    by apply NoDup_fmap_1 in Hnd'. }
  apply NoDup_fmap_2_strong; [|done].
  intros x y Hx%Hsub Hy%Hsub.
  apply (NoDup_fmap_inj_on RecordsView.key (map (enhance exercises workoutInfo) scores));
    [|done..].
  by rewrite <- list_fmap_compose.
Qed.

Lemma rendered_keys_distinct_witness :
  NoDup (RecordsView.key <$> records sampleGetTime sampleScores (Some sampleExercises) ∅).
Proof.
  apply rendered_keys_distinct.
  vm_compute. repeat (apply NoDup_cons_2; [by rewrite ?elem_of_cons, elem_of_nil; intros H; repeat destruct H as [H|H]|]).
  apply NoDup_nil_2.
Defined.

(** ** ExerciseRecords: the effect *)

Lemma elem_of_workoutIdsOf scores id :
  id ∈ RecordsView.workoutIdsOf scores
  <-> id ≠ EmptyString /\ exists s, s ∈ scores /\ ExerciseScore.workout_id s = Some id.
Proof.
  unfold RecordsView.workoutIdsOf. rewrite list_elem_of_omap. split.
  - intros (s & Hs & Hid). destruct (ExerciseScore.workout_id s) as [i|] eqn:Hw; [|done].
    destruct (String.eqb_spec i EmptyString) as [->|Hne]; [done|].
    injection Hid as <-. eauto.
  - intros (Hne & s & Hs & Hw). exists s. split; [done|]. rewrite Hw.
    by destruct (String.eqb_spec id EmptyString).
Qed.

(** X22.  However the backend answers, the effect ends with [loading]
    false.  It ends in the failed state (the error text set, the records
    as they were before) exactly when the scores query, the exercises query
    or the workout logs query returns an error, or the selection throws.
    Otherwise the error is cleared and the records are: none when no score
    came back; else the selection made from the fetched scores, the fetched
    exercises and the workout information built from the fetched workout
    rows (none when no score carries a workout identifier, so that the logs
    are not queried, or when null came back). *)
Theorem fetchExerciseRecords_final_state getTime backend st :
  let st' := (RecordsView.fetchExerciseRecords getTime backend st).1 in
  RecordsView.loading st' = false
  /\ match RecordsView.scores backend with
     | inl _ => st' = RecordsView.failed st
     | inr fetched =>
         let scores := default [] fetched in
         if decide (scores = []) then st' = RecordsView.mkState [] false None
         else
           match RecordsView.exercises backend
                   (Set_of (map ExerciseScore.exercise_id scores)) with
           | inl _ => st' = RecordsView.failed st
           | inr exercises =>
               match (if decide (RecordsView.workoutIdsOf scores = [])
                      then inr None
                      else RecordsView.workout_logs backend
                             (RecordsView.workoutIdsOf scores)) with
               | inl _ => st' = RecordsView.failed st
               | inr workouts =>
                   match selectRecords getTime scores exercises
                           (from_option workoutInfoOf ∅ workouts) with
                   | Ok shown => st' = RecordsView.mkState shown false None
                   | Throw _ => st' = RecordsView.failed st
                   end
               end
           end
     end.
Proof.
  unfold RecordsView.fetchExerciseRecords.
  destruct (RecordsView.scores backend) as [e|[[|s scores]|]] eqn:Hscores;
    cbv beta iota zeta; [done|done| |done].
  simpl default. rewrite decide_False by done.
  destruct (RecordsView.exercises backend _) as [e|exercises] eqn:Hex; [done|].
  destruct (RecordsView.workoutIdsOf (s :: scores)) as [|wid wids] eqn:Hwids.
  - rewrite decide_True by done. simpl length. cbv beta iota zeta.
    change (0 <? 0)%nat with false. cbv beta iota.
    rewrite selectRecords_eq. simpl from_option.
    by destruct (exerciseGroups _).
  - rewrite decide_False by done.
    change (0 <? length (wid :: wids))%nat with true. cbv beta iota.
    destruct (RecordsView.workout_logs backend _) as [e|workouts]; [done|].
    rewrite selectRecords_eq.
    destruct workouts as [workouts|]; simpl from_option; by destruct (exerciseGroups _).
Qed.

Lemma fetchExerciseRecords_queries_shape getTime backend st :
  let queries := (RecordsView.fetchExerciseRecords getTime backend st).2 in
  queries = [RecordsView.SelectScores]
  \/ exists scores,
      RecordsView.scores backend = inr (Some scores)
      /\ scores ≠ []
      /\ (queries = [RecordsView.SelectScores;
                     RecordsView.SelectExercises
                       (Set_of (map ExerciseScore.exercise_id scores))]
          \/ exists exercises,
              RecordsView.exercises backend
                (Set_of (map ExerciseScore.exercise_id scores)) = inr exercises
              /\ RecordsView.workoutIdsOf scores ≠ []
              /\ queries = [RecordsView.SelectScores;
                            RecordsView.SelectExercises
                              (Set_of (map ExerciseScore.exercise_id scores));
                            RecordsView.SelectWorkoutLogs
                              (RecordsView.workoutIdsOf scores)]).
Proof.
  unfold RecordsView.fetchExerciseRecords.
  destruct (RecordsView.scores backend) as [e|[[|s scores]|]] eqn:Hscores;
    cbv beta iota zeta; [by left|by left| |by left].
  right. exists (s :: scores). split; [done|]. split; [done|].
  destruct (RecordsView.exercises backend _) as [e|exercises] eqn:Hex; [by left|].
  destruct (0 <? length (RecordsView.workoutIdsOf (s :: scores)))%nat eqn:Hlen.
  - right. exists exercises. split; [done|]. split.
    { intros Heq. rewrite Heq in Hlen. done. }
    destruct (RecordsView.workout_logs backend _) as [e|workouts]; [done|].
    by destruct (exerciseGroups _).
  - left. by destruct (exerciseGroups _).
Qed.

(** X23.  The effect queries the scores first and issues at most three
    queries.  The exercises are asked for only when scores were returned,
    and for exactly the exercise identifiers of the scores, each once.  The
    workout logs are asked for only after the exercises were answered, and
    only for a non-empty list of the non-empty workout identifiers the
    scores carry. *)
Theorem fetchExerciseRecords_queries getTime backend st :
  let queries := (RecordsView.fetchExerciseRecords getTime backend st).2 in
  head queries = Some RecordsView.SelectScores
  /\ (length queries <= 3)%nat
  /\ (forall ids,
         RecordsView.SelectExercises ids ∈ queries ->
         exists scores,
           RecordsView.scores backend = inr (Some scores)
           /\ scores ≠ []
           /\ NoDup ids
           /\ forall id, id ∈ ids <-> exists s, s ∈ scores /\ ExerciseScore.exercise_id s = id)
  /\ (forall ids,
         RecordsView.SelectWorkoutLogs ids ∈ queries ->
         exists scores exercises,
           RecordsView.scores backend = inr (Some scores)
           /\ RecordsView.exercises backend
                (Set_of (map ExerciseScore.exercise_id scores)) = inr exercises
           /\ ids ≠ []
           /\ forall id,
               id ∈ ids
               <-> id ≠ EmptyString
                   /\ exists s, s ∈ scores /\ ExerciseScore.workout_id s = Some id).
Proof.
  intros queries.
  assert (forall scores id,
             id ∈ Set_of (map ExerciseScore.exercise_id scores)
             <-> exists s, s ∈ scores /\ ExerciseScore.exercise_id s = id) as Hids.
  { intros scores id. rewrite elem_of_Set_of.
    change (map ExerciseScore.exercise_id scores)
      with (ExerciseScore.exercise_id <$> scores).
    rewrite list_elem_of_fmap. split; intros (s & ? & ?); by exists s. }
  destruct (fetchExerciseRecords_queries_shape getTime backend st)
    as [Hq|(scores & Hscores & Hne & [Hq|(exercises & Hex & Hw & Hq)])];
    fold queries in Hq; rewrite Hq; (split; [done|]); (split; [simpl; lia|]); split;
    intros ids Hin; repeat (apply elem_of_cons in Hin as [Hin|Hin]; [try done|]);
    try (by apply elem_of_nil in Hin).
  - injection Hin as ->. exists scores. split_and!; [done|done|apply NoDup_Set_of|apply Hids].
  - injection Hin as ->. exists scores. split_and!; [done|done|apply NoDup_Set_of|apply Hids].
  - injection Hin as ->. exists scores, exercises.
    split_and!; [done|done|done|]. intros id. apply elem_of_workoutIdsOf.
Qed.

(** ** ExerciseRecords: dates *)

Lemma workoutInfo_fold_lookup workouts (acc : gmap string WorkoutInfo.t) id :
  fold_left
    (fun acc workout =>
       <[WorkoutRow.id workout :=
           WorkoutInfo.mk (or_string (WorkoutRow.workout_type workout) EmptyString)
                          (WorkoutRow.completed_at workout)]> acc)
    workouts acc !! id
  = match last (filter (fun workout => WorkoutRow.id workout = id) workouts) with
    | Some workout =>
        Some (WorkoutInfo.mk (or_string (WorkoutRow.workout_type workout) EmptyString)
                             (WorkoutRow.completed_at workout))
    | None => acc !! id
    end.
Proof.
  revert acc. induction workouts as [|a workouts IH]; intros acc; [done|].
  simpl. rewrite IH, filter_cons. case_decide as Ha.
  - rewrite last_cons. destruct (last (filter _ workouts)); [done|].
    by rewrite <- Ha, lookup_insert_eq.
  - destruct (last (filter _ workouts)); [done|]. by rewrite lookup_insert_ne.
Qed.

(** X24.  The date of an enhanced score is the completion time of the last
    fetched workout row whose identifier is the score's workout identifier,
    when the score carries a non-empty one and that completion time is
    present and non-empty; in every other case it is the score's creation
    time. *)
Theorem enhance_date exercises workouts score :
  Enhanced.date (enhance exercises (workoutInfoOf workouts) score)
  = match ExerciseScore.workout_id score with
    | Some id =>
        match last (filter (fun workout => WorkoutRow.id workout = id) workouts) with
        | Some workout =>
            if decide (id = EmptyString) then ExerciseScore.created_at score
            else match WorkoutRow.completed_at workout with
                 | Some completed_at =>
                     if decide (completed_at = EmptyString)
                     then ExerciseScore.created_at score
                     else completed_at
                 | None => ExerciseScore.created_at score
                 end
        | None => ExerciseScore.created_at score
        end
    | None => ExerciseScore.created_at score
    end.
Proof.
  unfold enhance, workoutInfoOf. cbn [Enhanced.date].
  destruct (ExerciseScore.workout_id score) as [id|]; [|done].
  destruct (String.eqb_spec id EmptyString) as [->|Hne].
  - destruct (last _); [|done]. by case_decide.
  - rewrite workoutInfo_fold_lookup.
    destruct (last _) as [workout|]; [|by rewrite lookup_empty].
    case_decide; [done|]. cbn [mbind option_bind WorkoutInfo.completed_at].
    destruct (WorkoutRow.completed_at workout) as [c|]; [|done]. cbn [or_string].
    destruct (String.eqb_spec c EmptyString); by case_decide.
Qed.
